(** * CFA Fire Forecast: the feed coordinator, verified

    A shallow embedding of [coordinator.py] and [const.py] of the
    [cfa_fire_forecast] Home Assistant integration and of the sensors of
    its [sensor.py], and the properties of its text extractor, feed
    parser, fetch strategies, fallback controller and sensors.

    Text is a list of Unicode code points, as Python's [str] is.  What the
    Python standard library decides from the Unicode database or from the
    HTML entity table is a parameter of the development ([uni_word],
    [uni_upper], [uni_ci], [unescape]); everything the code itself decides
    is a definition. *)

From Stdlib Require Import ZArith NArith List Ascii String Bool Lia Sorted.
From stdpp Require Import base option list gmap pretty.

Local Open Scope N_scope.

(** ** Text *)

Definition char := N.
Abbreviation str := (list N).

(** The code points of an ASCII literal of the source. *)
Definition codes (s : string) : str :=
  List.map N_of_ascii (list_ascii_of_string s).

Definition between (lo hi c : char) : bool := (lo <=? c) && (c <=? hi).

(** [str.isspace], which is also what [\s] matches on a [str] pattern. *)
Definition is_space (c : char) : bool :=
  between 9 13 c || between 28 32 c || (c =? 133) || (c =? 160)
  || (c =? 5760) || between 8192 8202 c || (c =? 8232) || (c =? 8233)
  || (c =? 8239) || (c =? 8287) || (c =? 12288).

Definition is_ascii_upper (c : char) : bool := between 65 90 c.
Definition is_ascii_lower (c : char) : bool := between 97 122 c.
Definition is_ascii_digit (c : char) : bool := between 48 57 c.

Definition ascii_lower (c : char) : char :=
  if is_ascii_upper c then c + 32 else c.
Definition ascii_upper (c : char) : char :=
  if is_ascii_lower c then c - 32 else c.

(** The four letters outside ASCII that [re.IGNORECASE] equates with an
    ASCII letter (the [re] documentation lists them). *)
Definition DOTTED_I : char := 304.   (* U+0130 *)
Definition DOTLESS_I : char := 305.  (* U+0131 *)
Definition LONG_S : char := 383.     (* U+017F *)
Definition KELVIN : char := 8490.    (* U+212A *)

Fixpoint drop_while (p : char -> bool) (s : str) : str :=
  match s with
  | x :: s' => if p x then drop_while p s' else s
  | [] => []
  end.

(** [str.strip()] *)
Definition strip (s : str) : str :=
  rev (drop_while is_space (rev (drop_while is_space s))).

(** [sep.join(parts)] *)
Fixpoint join (sep : str) (parts : list str) : str :=
  match parts with
  | [] => []
  | [p] => p
  | p :: rest => p ++ sep ++ join sep rest
  end.

Fixpoint str_eqb (s t : str) : bool :=
  match s, t with
  | [], [] => true
  | x :: s', y :: t' => (x =? y) && str_eqb s' t'
  | _, _ => false
  end.

Section Unicode.

(** [\w] on a code point outside ASCII ([str.isalnum] there). *)
Variable uni_word : char -> bool.
(** [str.upper()] of a code point outside ASCII other than the four above. *)
Variable uni_upper : char -> str.
(** Whether a literal code point outside ASCII of an [re.IGNORECASE]
    pattern matches a code point of the text. *)
Variable uni_ci : char -> char -> bool.

Definition is_word (c : char) : bool :=
  if c <? 128
  then is_ascii_upper c || is_ascii_lower c || is_ascii_digit c || (c =? 95)
  else uni_word c.

Definition upper_char (c : char) : str :=
  if c <? 128 then [ascii_upper c]
  else if c =? DOTTED_I then [DOTTED_I]
  else if c =? DOTLESS_I then [73]
  else if c =? LONG_S then [83]
  else if c =? KELVIN then [KELVIN]
  else uni_upper c.

(** [s.upper()] *)
Definition upper (s : str) : str := concat (List.map upper_char s).

(** A literal pattern character [p] against a text character [c] under
    [re.IGNORECASE]. *)
Definition ci_char (p c : char) : bool :=
  if p <? 128 then
    let lo := ascii_lower p in
    if is_ascii_lower lo then
      (ascii_lower c =? lo)
      || ((lo =? 105) && ((c =? DOTTED_I) || (c =? DOTLESS_I)))
      || ((lo =? 115) && (c =? LONG_S))
      || ((lo =? 107) && (c =? KELVIN))
    else c =? p
  else uni_ci p c.

(** The text [t] begins with the literal [p]; the rest of [t]. *)
Fixpoint eat_lit (p t : str) : option str :=
  match p, t with
  | [], _ => Some t
  | x :: p', y :: t' => if ci_char x y then eat_lit p' t' else None
  | _ :: _, [] => None
  end.

(** ** Regular expressions

    The fragment of Python's [re] the patterns of the source are written
    in.  Literals compare as under [re.IGNORECASE], which every pattern
    with a letter in it is compiled with.  Repetition is of one character
    class, as in the source. *)

Inductive regex :=
| Lit (s : str)
| Chr (p : char -> bool)
| Seq (r1 r2 : regex)
| Alt (r1 r2 : regex)
| Star (p : char -> bool)
| LazyStar (p : char -> bool)
| Opt (r : regex)
| Group (n : nat) (r : regex)
| Bol
| Eol
| WordB
| NotBehindLit (s : str)
| NotBehindChr (p : char -> bool).

Definition Plus (p : char -> bool) : regex := Seq (Chr p) (Star p).

(** A position in a text: what is before it (nearest first) and after it. *)
Record cursor := Cursor { before : str; after : str }.

Definition pos (c : cursor) : nat := length (before c).

Definition groups := list (nat * str).

Fixpoint group (n : nat) (g : groups) : option str :=
  match g with
  | [] => None
  | (k, s) :: g' => if Nat.eqb k n then Some s else group n g'
  end.

(** The text from cursor [c] to the later cursor [c']. *)
Definition span (c c' : cursor) : str := take (pos c' - pos c)%nat (after c).

Definition word_at (s : str) : bool :=
  match s with
  | x :: _ => is_word x
  | [] => false
  end.

Section Run.
Context {A : Type}.

Fixpoint star (p : char -> bool) (b a : str) (k : cursor -> option A)
  : option A :=
  match a with
  | x :: a' =>
      if p x then
        match star p (x :: b) a' k with
        | Some v => Some v
        | None => k (Cursor b a)
        end
      else k (Cursor b a)
  | [] => k (Cursor b a)
  end.

Fixpoint lazy_star (p : char -> bool) (b a : str) (k : cursor -> option A)
  : option A :=
  match k (Cursor b a) with
  | Some v => Some v
  | None =>
      match a with
      | x :: a' => if p x then lazy_star p (x :: b) a' k else None
      | [] => None
      end
  end.

(** The backtracking matcher: [run r c g k] matches [r] at [c] and hands
    the end of the match to [k]; when [k] refuses, the next way of
    matching [r] is tried, in the order [re] tries them. *)
Fixpoint run (r : regex) (c : cursor) (g : groups)
    (k : cursor -> groups -> option A) : option A :=
  match r with
  | Lit s =>
      match eat_lit s (after c) with
      | Some a' =>
          k (Cursor (rev (take (length s) (after c)) ++ before c) a') g
      | None => None
      end
  | Chr p =>
      match after c with
      | x :: a' => if p x then k (Cursor (x :: before c) a') g else None
      | [] => None
      end
  | Seq r1 r2 => run r1 c g (fun c' g' => run r2 c' g' k)
  | Alt r1 r2 =>
      match run r1 c g k with
      | Some v => Some v
      | None => run r2 c g k
      end
  | Star p => star p (before c) (after c) (fun c' => k c' g)
  | LazyStar p => lazy_star p (before c) (after c) (fun c' => k c' g)
  | Opt r1 =>
      match run r1 c g k with
      | Some v => Some v
      | None => k c g
      end
  | Group n r1 => run r1 c g (fun c' g' => k c' ((n, span c c') :: g'))
  | Bol => match before c with [] => k c g | _ :: _ => None end
  | Eol =>
      match after c with
      | [] => k c g
      | [x] => if x =? 10 then k c g else None
      | _ => None
      end
  | WordB =>
      if xorb (word_at (before c)) (word_at (after c)) then k c g else None
  | NotBehindLit s =>
      match eat_lit (rev s) (before c) with
      | Some _ => None
      | None => k c g
      end
  | NotBehindChr p =>
      match before c with
      | x :: _ => if p x then None else k c g
      | [] => k c g
      end
  end.

End Run.

(** A match: where it starts and ends, and its groups. *)
Record rmatch := Match { m_start : cursor; m_end : cursor; m_groups : groups }.

Definition m_group (n : nat) (m : rmatch) : str :=
  default [] (group n (m_groups m)).

(** The match of [r] that starts at [c], if one does. *)
Definition match_at (r : regex) (c : cursor) : option rmatch :=
  run r c [] (fun c' g => Some (Match c c' g)).

(** The truth value of what [match] and [search] return. *)
Definition found (m : option rmatch) : bool :=
  match m with
  | Some _ => true
  | None => false
  end.

(** [pattern.match(text)] *)
Definition re_match (r : regex) (text : str) : option rmatch :=
  match_at r (Cursor [] text).

(** The leftmost match at or after the cursor [(b, a)]. *)
Fixpoint search_from (r : regex) (b a : str) : option rmatch :=
  match match_at r (Cursor b a) with
  | Some m => Some m
  | None =>
      match a with
      | x :: a' => search_from r (x :: b) a'
      | [] => None
      end
  end.

(** [pattern.search(text)] *)
Definition re_search (r : regex) (text : str) : option rmatch :=
  search_from r [] text.

(** The cursor one character further, for a scan that met an empty match. *)
Definition step_over (c : cursor) : option cursor :=
  match after c with
  | x :: a' => Some (Cursor (x :: before c) a')
  | [] => None
  end.

(** The successive non-overlapping matches from a cursor on.  Each round
    consumes a character, so [S (length (after c))] rounds reach the end. *)
Fixpoint finditer_from (fuel : nat) (r : regex) (c : cursor) : list rmatch :=
  match fuel with
  | O => []
  | S fuel' =>
      match search_from r (before c) (after c) with
      | None => []
      | Some m =>
          if (length (after (m_end m)) <? length (after (m_start m)))%nat
          then m :: finditer_from fuel' r (m_end m)
          else
            match step_over (m_end m) with
            | Some c' => m :: finditer_from fuel' r c'
            | None => [m]
            end
      end
  end.

(** [pattern.finditer(text)] *)
Definition re_finditer (r : regex) (text : str) : list rmatch :=
  finditer_from (S (length text)) r (Cursor [] text).

(** [re.sub(pattern, repl, text)]: the text with every match replaced. *)
Fixpoint sub_from (fuel : nat) (r : regex) (repl : str) (c : cursor) : str :=
  match fuel with
  | O => after c
  | S fuel' =>
      match search_from r (before c) (after c) with
      | None => after c
      | Some m =>
          span c (m_start m) ++ repl ++
          (if (length (after (m_end m)) <? length (after (m_start m)))%nat
           then sub_from fuel' r repl (m_end m)
           else
             match step_over (m_end m) with
             | Some c' => take 1 (after (m_end m)) ++ sub_from fuel' r repl c'
             | None => []
             end)
      end
  end.

Definition re_sub (r : regex) (repl text : str) : str :=
  sub_from (S (length text)) r repl (Cursor [] text).

(** ** const.py *)

(** Available fire districts (slug -> display name). *)
Definition DISTRICTS : list (str * str) :=
  [ (codes "north-central", codes "North Central");
    (codes "south-west", codes "South West");
    (codes "northern-country", codes "Northern Country");
    (codes "north-east", codes "North East");
    (codes "central", codes "Central");
    (codes "mallee", codes "Mallee");
    (codes "wimmera", codes "Wimmera");
    (codes "east-gippsland", codes "East Gippsland");
    (codes "west-and-south-gippsland", codes "West & South Gippsland") ].

(** Canonical district names as they appear in the CFA feed text. *)
Definition DISTRICT_FEED_NAMES : list (str * str) :=
  [ (codes "north-central", codes "North Central");
    (codes "south-west", codes "South West");
    (codes "northern-country", codes "Northern Country");
    (codes "north-east", codes "North East");
    (codes "central", codes "Central");
    (codes "mallee", codes "Mallee");
    (codes "wimmera", codes "Wimmera");
    (codes "east-gippsland", codes "East Gippsland");
    (codes "west-and-south-gippsland", codes "West and South Gippsland") ].

(** Fire danger ratings in ascending order of severity. *)
Definition FIRE_DANGER_RATINGS : list str :=
  [ codes "NO RATING"; codes "LOW-MODERATE"; codes "MODERATE";
    codes "HIGH"; codes "EXTREME"; codes "CATASTROPHIC" ].

(** Rating severity level. *)
Definition RATING_SEVERITY : list (str * Z) :=
  [ (codes "NO RATING", 0%Z); (codes "LOW-MODERATE", 1%Z);
    (codes "MODERATE", 2%Z); (codes "HIGH", 3%Z);
    (codes "EXTREME", 4%Z); (codes "CATASTROPHIC", 5%Z) ].

(** [d.get(key)] on a dict written as its items in insertion order. *)
Fixpoint dict_lookup {V : Type} (d : list (str * V)) (key : str) : option V :=
  match d with
  | [] => None
  | (k, v) :: d' => if str_eqb k key then Some v else dict_lookup d' key
  end.

(** [d.get(key, dflt)] *)
Definition dict_get {V : Type} (d : list (str * V)) (key : str) (dflt : V) : V :=
  default dflt (dict_lookup d key).

(** [d.values()] *)
Definition dict_values {V : Type} (d : list (str * V)) : list V :=
  List.map snd d.

Definition UNKNOWN : str := codes "UNKNOWN".

(** ** The patterns of coordinator.py *)

(** [a|b|...] over escaped literals. *)
Fixpoint alts (l : list str) : regex :=
  match l with
  | [] => Lit []
  | [x] => Lit x
  | x :: l' => Alt (Lit x) (alts l')
  end.

(** [w1\s+w2\s+...] *)
Fixpoint phrase (ws : list string) : regex :=
  match ws with
  | [] => Lit []
  | [w] => Lit (codes w)
  | w :: ws' => Seq (Lit (codes w)) (Seq (Plus is_space) (phrase ws'))
  end.

Definition any_char (c : char) : bool := true.
Definition not_newline (c : char) : bool := negb (c =? 10).
Definition not_gt (c : char) : bool := negb (c =? 62).

Definition RE_RATING : regex :=
  Seq (Alt Bol WordB)
    (Seq (Group 1 (alts (dict_values DISTRICT_FEED_NAMES)))
       (Seq (Lit (codes ":"))
          (Seq (Star is_space)
             (Group 2 (alts FIRE_DANGER_RATINGS))))).

Definition RE_TFB_NO : regex :=
  phrase ["is"; "not"; "currently"; "a"; "day"; "of"; "Total"; "Fire"; "Ban"]%string.

Definition RE_TFB_DECLARED : regex :=
  Seq (Opt (Seq (Lit (codes "has"))
              (Seq (Plus is_space) (Seq (Lit (codes "been")) (Plus is_space)))))
    (phrase ["declared"; "a"; "day"; "of"; "Total"; "Fire"; "Ban"]%string).

Definition RE_TFB_IS : regex :=
  Seq (Lit (codes "is"))
    (Seq (Plus is_space)
       (Seq (Opt (Seq (Lit (codes "currently")) (Plus is_space)))
          (phrase ["a"; "day"; "of"; "Total"; "Fire"; "Ban"]%string))).

Definition RE_TFB_STATEWIDE : regex :=
  Alt (phrase ["whole"; "State"; "of"; "Victoria"]%string)
      (Lit (codes "statewide")).

(** Compiled with [re.DOTALL]: the dot is any character. *)
Definition RE_TFB_DISTRICT_LIST : regex :=
  Seq (phrase ["Total"; "Fire"; "Ban"]%string)
    (Seq (Plus is_space)
       (Seq (Alt (Seq (phrase ["in"; "the"]%string) (Plus is_space))
                 (Seq (phrase ["for"; "the"]%string) (Plus is_space)))
          (Seq (Group 1 (LazyStar any_char))
             (Alt (Seq (Lit (codes "district"))
                     (Seq (Opt (Lit (codes "(")))
                        (Seq (Opt (Lit (codes "s"))) (Opt (Lit (codes ")"))))))
                  Eol)))).

Definition RE_ISSUED_AT : regex :=
  Seq (phrase ["Bureau"; "of"; "Meteorology"; "forecast"; "issued"; "at:"]%string)
    (Seq (Star is_space) (Group 1 (Plus not_newline))).

(** A regex that matches a district name in a TFB declaration list:
    "Central" must not match when preceded by "North "; any other name
    must not start in the middle of a word. *)
Definition _build_district_tfb_pattern (district_name : str) : regex :=
  if str_eqb district_name (codes "Central")
  then Seq (NotBehindLit (codes "North ")) (Lit district_name)
  else Seq (NotBehindChr is_word) (Lit district_name).

(** ** The text extractor *)

(** [html.unescape], of the standard library. *)
Variable unescape : str -> str.

(** Remove HTML tags and decode entities. *)
Definition _strip_html (text : str) : str :=
  let text := unescape text in
  let text := re_sub (Seq (Lit (codes "<")) (Seq (Plus not_gt) (Lit (codes ">"))))
                (codes " ") text in
  let text := re_sub (Plus is_space) (codes " ") text in
  strip text.

(** The record [_parse_item] returns; [date_label] is the key its callers
    add to it. *)
Record Forecast := {
  rating : str;
  total_fire_ban : bool;
  issued_at : option str;
  severity : Z;
  description_raw : str;
  date_label : option str
}.

(** The loop over [RE_RATING.finditer(text)]. *)
Fixpoint rating_of_district (district_name : str) (ms : list rmatch) : str :=
  match ms with
  | [] => UNKNOWN
  | m :: ms' =>
      let matched_district := strip (m_group 1 m) in
      if str_eqb (upper matched_district) (upper district_name)
      then upper (m_group 2 m)
      else rating_of_district district_name ms'
  end.

Definition extract_rating (text district_name : str) : str :=
  let rating := rating_of_district district_name (re_finditer RE_RATING text) in
  if str_eqb rating UNKNOWN then
    match re_search RE_RATING text with
    | Some m => upper (m_group 2 m)
    | None => rating
    end
  else rating.

Definition extract_total_fire_ban (text district_name : str) : bool :=
  if found (re_search RE_TFB_NO text) then false
  else if found (re_search RE_TFB_STATEWIDE text) then true
  else if found (re_search RE_TFB_DECLARED text)
          || found (re_search RE_TFB_IS text) then
    match re_search RE_TFB_DISTRICT_LIST text with
    | Some m =>
        let district_list_text := m_group 1 m in
        let district_re := _build_district_tfb_pattern district_name in
        found (re_search district_re district_list_text)
    | None => true
    end
  else false.

Definition extract_issued_at (text : str) : option str :=
  match re_search RE_ISSUED_AT text with
  | Some m => Some (strip (m_group 1 m))
  | None => None
  end.

(** The body of [_parse_item] on the stripped text. *)
Definition parse_text (text district_name : str) : Forecast :=
  let rating := extract_rating text district_name in
  {| rating := rating;
     total_fire_ban := extract_total_fire_ban text district_name;
     issued_at := extract_issued_at text;
     severity := dict_get RATING_SEVERITY rating 0%Z;
     description_raw := text;
     date_label := None |}.

(** Parse the HTML description from a single RSS item. *)
Definition _parse_item (description_html district_name : str) : Forecast :=
  parse_text (_strip_html description_html) district_name.

(** ** The feed parser *)

(** An [xml.etree.ElementTree] element: tag, text and child elements. *)
#[warnings="-register-all"]
Inductive element := Element (tag : str) (text : option str) (children : list element).

Definition el_tag (e : element) : str := let 'Element t _ _ := e in t.
Definition el_text (e : element) : option str := let 'Element _ x _ := e in x.
Definition el_children (e : element) : list element := let 'Element _ _ c := e in c.

(** [el.find(name)]: the first child with that tag. *)
Definition find (name : string) (e : element) : option element :=
  List.find (fun ch => str_eqb (el_tag ch) (codes name)) (el_children e).

(** [el.findall(name)]: the children with that tag, in document order. *)
Definition findall (name : string) (e : element) : list element :=
  List.filter (fun ch => str_eqb (el_tag ch) (codes name)) (el_children e).

(** What [ElementTree.fromstring] makes of a response body: a parse error
    with its message, or the root element. *)
Inductive xml :=
| Malformed (err : str)
| Document (root : element).

Inductive exn_class := UpdateFailed | ClientError | ParseError | ValueError.

(** An exception; [exn_msg] is its [str()]. *)
Record exn := Exn { exn_cls : exn_class; exn_msg : str }.

Inductive outcome (A : Type) :=
| Returns (a : A)
| Raises (e : exn).
#[global] Arguments Returns {A} a.
#[global] Arguments Raises {A} e.

Definition RE_FORECAST_TITLE : regex :=
  Group 1 (alts (List.map codes
    ["Monday"; "Tuesday"; "Wednesday"; "Thursday"; "Friday"; "Saturday";
     "Sunday"; "Today"; "Tomorrow"]%string)).

(** The loop of [_parse_rss_xml] over the items of the channel. *)
Fixpoint forecast_items_of (items : list element) : list (str * str) :=
  match items with
  | [] => []
  | item :: rest =>
      match find "title" item, find "description" item with
      | Some title_el, Some desc_el =>
          let title_text := strip (default [] (el_text title_el)) in
          let desc_text := default [] (el_text desc_el) in
          if found (re_match RE_FORECAST_TITLE title_text)
          then (title_text, desc_text) :: forecast_items_of rest
          else forecast_items_of rest
      | _, _ => forecast_items_of rest
      end
  end.

Definition NO_CHANNEL : str :=
  codes "Invalid RSS structure " ++ [8212] ++ codes " no <channel> element".

(** Parse an RSS document into (pub_date, [(title, description), ...]). *)
Definition _parse_rss_xml (raw : xml) : outcome (option str * list (str * str)) :=
  match raw with
  | Malformed err => Raises (Exn ParseError err)
  | Document root =>
      match find "channel" root with
      | None => Raises (Exn ValueError NO_CHANNEL)
      | Some channel =>
          let pub_date :=
            match find "pubDate" channel with
            | Some pub_el =>
                match el_text pub_el with
                | Some (x :: t) => Some (strip (x :: t))
                | _ => None
                end
            | None => None
            end in
          Returns (pub_date, forecast_items_of (findall "item" channel))
      end
  end.

(** ** Feed fetching strategies *)

Definition CFA_COMBINED_RSS_URL : str :=
  codes "https://www.cfa.vic.gov.au/cfa/rssfeed/tfbfdrforecast_rss.xml".

(** [CFA_RSS_URL.format(slug=slug)] *)
Definition CFA_RSS_URL (slug : str) : str :=
  codes "https://www.cfa.vic.gov.au/cfa/rssfeed/" ++ slug
  ++ codes "-firedistrict_rss.xml".

(** What a GET does: the request or the read of the body raises, or a
    status and a body come back. *)
Inductive response :=
| Fails (e : exn)
| Http (status : Z) (raw : xml).

(** The network during one cycle: the response to a GET of each URL. *)
Definition session := str -> response.

Record Snapshot := {
  district_slug : str;
  district_name : str;
  pub_date : option str;
  forecasts : list Forecast
}.

Definition with_date_label (parsed : Forecast) (title_text : str) : Forecast :=
  {| rating := rating parsed;
     total_fire_ban := total_fire_ban parsed;
     issued_at := issued_at parsed;
     severity := severity parsed;
     description_raw := description_raw parsed;
     date_label := Some title_text |}.

(** [data["forecasts"].append(parsed)] *)
Definition append_forecast (parsed : Forecast) (data : Snapshot) : Snapshot :=
  {| district_slug := district_slug data;
     district_name := district_name data;
     pub_date := pub_date data;
     forecasts := forecasts data ++ [parsed] |}.

Definition feed_name_of (slug : str) : str :=
  dict_get DISTRICT_FEED_NAMES slug (dict_get DISTRICTS slug slug).

Definition decimal (n : Z) : str := codes (pretty n).

(** The part of [_fetch_combined_feed] after the document is parsed. *)
Definition combined_result (pub_date : option str)
    (forecast_items : list (str * str)) (district_slugs : gset str)
  : outcome (gmap str Snapshot) :=
  match forecast_items with
  | [] => Raises (Exn UpdateFailed (codes "Combined feed returned no forecast items"))
  | _ :: _ =>
      let result : gmap str Snapshot :=
        foldl (fun result slug =>
                 <[slug := {| district_slug := slug;
                              district_name := dict_get DISTRICTS slug slug;
                              pub_date := pub_date;
                              forecasts := [] |}]> result)
              ∅ (elements district_slugs) in
      let result :=
        foldl (fun result '(title_text, desc_text) =>
                 foldl (fun result slug =>
                          let parsed := _parse_item desc_text (feed_name_of slug) in
                          let parsed := with_date_label parsed title_text in
                          alter (append_forecast parsed) slug result)
                       result (elements district_slugs))
              result forecast_items in
      let all_unknown :=
        forallb (fun data =>
                   forallb (fun f => str_eqb (rating f) UNKNOWN) (forecasts data))
                (List.filter (fun data => negb (Nat.eqb (length (forecasts data)) 0))
                   (List.map snd (map_to_list result))) in
      if all_unknown && bool_decide (district_slugs ≠ ∅)
      then Raises (Exn UpdateFailed
             (codes "Combined feed returned data but all ratings are UNKNOWN "
              ++ [8212] ++ codes " feed structure may have changed"))
      else Returns result
  end.

(** Fetch the combined CFA RSS feed and parse for all tracked districts. *)
Definition _fetch_combined_feed (net : session) (district_slugs : gset str)
  : outcome (gmap str Snapshot) :=
  match net CFA_COMBINED_RSS_URL with
  | Fails e => Raises e
  | Http status raw =>
      if negb (status =? 200)%Z
      then Raises (Exn UpdateFailed
             (codes "Combined feed returned HTTP " ++ decimal status))
      else
        match _parse_rss_xml raw with
        | Raises err =>
            Raises (Exn UpdateFailed
              (codes "Error parsing combined feed XML: " ++ exn_msg err))
        | Returns (pub_date, forecast_items) =>
            combined_result pub_date forecast_items district_slugs
        end
  end.

(** Fetch and parse the per-district CFA RSS feed for a single district. *)
Definition _fetch_individual_feed (net : session) (district_slug : str)
  : outcome Snapshot :=
  let url := CFA_RSS_URL district_slug in
  let district_name := dict_get DISTRICTS district_slug district_slug in
  let feed_name := dict_get DISTRICT_FEED_NAMES district_slug district_name in
  match net url with
  | Fails e => Raises e
  | Http status raw =>
      if negb (status =? 200)%Z
      then Raises (Exn UpdateFailed
             (codes "Error fetching CFA data for " ++ district_name
              ++ codes ": HTTP " ++ decimal status))
      else
        match _parse_rss_xml raw with
        | Raises err =>
            Raises (Exn UpdateFailed
              (codes "Error parsing CFA RSS XML for " ++ district_name
               ++ codes ": " ++ exn_msg err))
        | Returns (pub_date, forecast_items) =>
            Returns
              {| district_slug := district_slug;
                 district_name := district_name;
                 pub_date := pub_date;
                 forecasts :=
                   List.map (fun '(title_text, desc_text) =>
                               with_date_label (_parse_item desc_text feed_name)
                                 title_text)
                            forecast_items |}
        end
  end.

(** The loop of [_fetch_individual_feeds] over the gathered results. *)
Fixpoint collect (results : list (str * outcome Snapshot))
    (result : gmap str Snapshot) (errors : list str)
  : gmap str Snapshot * list str :=
  match results with
  | [] => (result, errors)
  | (slug, Raises _) :: rest => collect rest result (errors ++ [slug])
  | (slug, Returns res) :: rest => collect rest (<[slug := res]> result) errors
  end.

(** Fetch all tracked districts using individual per-district feeds. *)
Definition _fetch_individual_feeds (net : session) (district_slugs : gset str)
  : outcome (gmap str Snapshot * list str) :=
  let tasks :=
    List.map (fun slug => (slug, _fetch_individual_feed net slug))
             (elements district_slugs) in
  let '(result, errors) := collect tasks ∅ [] in
  if bool_decide (result = ∅)
  then Raises (Exn UpdateFailed
         (codes "All individual district feeds failed: "
          ++ join (codes ", ") errors))
  else Returns (result, errors).

(** ** The coordinator *)

Definition _COMBINED_FAIL_THRESHOLD : Z := 3.
Definition _COMBINED_RETRY_INTERVAL : Z := 10.

Record Coordinator := {
  _district_slugs : gset str;
  _combined_fail_count : Z;
  _cycle_count : Z;
  _last_source : str;
  _last_error : option str;
  _failed_districts : list str;
  _fallback_active : bool
}.

(** The state [__init__] sets up. *)
Definition init : Coordinator :=
  {| _district_slugs := ∅;
     _combined_fail_count := 0;
     _cycle_count := 0;
     _last_source := codes "none";
     _last_error := None;
     _failed_districts := [];
     _fallback_active := false |}.

Definition set_slugs (s : gset str) (self : Coordinator) : Coordinator :=
  {| _district_slugs := s;
     _combined_fail_count := _combined_fail_count self;
     _cycle_count := _cycle_count self;
     _last_source := _last_source self;
     _last_error := _last_error self;
     _failed_districts := _failed_districts self;
     _fallback_active := _fallback_active self |}.

Definition add_district (slug : str) (self : Coordinator) : Coordinator :=
  set_slugs ({[slug]} ∪ _district_slugs self) self.

Definition remove_district (slug : str) (self : Coordinator) : Coordinator :=
  set_slugs (_district_slugs self ∖ {[slug]}) self.

(** The start of a cycle: count it and decide whether to attempt the
    combined feed. *)
Definition begin_cycle (self : Coordinator) : Coordinator * bool :=
  let cycle_count := (_cycle_count self + 1)%Z in
  let in_fallback :=
    (_COMBINED_FAIL_THRESHOLD <=? _combined_fail_count self)%Z in
  let try_combined :=
    if in_fallback
    then if negb (cycle_count mod _COMBINED_RETRY_INTERVAL =? 0)%Z
         then false else true
    else true in
  ({| _district_slugs := _district_slugs self;
      _combined_fail_count := _combined_fail_count self;
      _cycle_count := cycle_count;
      _last_source := _last_source self;
      _last_error := _last_error self;
      _failed_districts := _failed_districts self;
      _fallback_active := in_fallback |},
   try_combined).

(** Attempt 2: individual per-district feeds. *)
Definition attempt_individual (self : Coordinator) (net : session)
  : Coordinator * outcome (gmap str Snapshot) :=
  match _fetch_individual_feeds net (_district_slugs self) with
  | Returns (result, failed_slugs) =>
      ({| _district_slugs := _district_slugs self;
          _combined_fail_count := _combined_fail_count self;
          _cycle_count := _cycle_count self;
          _last_source := codes "individual";
          _last_error :=
            match failed_slugs with
            | [] => None
            | _ :: _ =>
                Some (codes "Individual feeds failed for: "
                      ++ join (codes ", ") failed_slugs)
            end;
          _failed_districts := failed_slugs;
          _fallback_active := _fallback_active self |},
       Returns result)
  | Raises err =>
      let self' :=
        {| _district_slugs := _district_slugs self;
           _combined_fail_count := _combined_fail_count self;
           _cycle_count := _cycle_count self;
           _last_source := _last_source self;
           _last_error := Some (exn_msg err);
           _failed_districts := elements (_district_slugs self);
           _fallback_active := _fallback_active self |} in
      match exn_cls err with
      | UpdateFailed => (self', Raises err)
      | _ =>
          (self', Raises (Exn UpdateFailed
             (codes "Both combined and individual feeds failed: "
              ++ exn_msg err)))
      end
  end.

(** What a cycle did besides changing the state: what it returned or
    raised, and the URLs it requested. *)
Record Cycle := {
  returned : outcome (gmap str Snapshot);
  requested : list str
}.

Definition individual_urls (self : Coordinator) : list str :=
  List.map CFA_RSS_URL (elements (_district_slugs self)).

(** Fetch data from CFA RSS feeds: the combined feed first, on failure the
    individual feeds; after repeated combined failures, straight to the
    individual feeds, with a periodic retry of the combined feed. *)
Definition _async_update_data (self : Coordinator) (net : session)
  : Coordinator * Cycle :=
  if bool_decide (_district_slugs self = ∅)
  then (self, {| returned := Returns ∅; requested := [] |})
  else
    let '(self, try_combined) := begin_cycle self in
    if try_combined then
      match _fetch_combined_feed net (_district_slugs self) with
      | Returns result =>
          ({| _district_slugs := _district_slugs self;
              _combined_fail_count := 0;
              _cycle_count := _cycle_count self;
              _last_source := codes "combined";
              _last_error := None;
              _failed_districts := [];
              _fallback_active := false |},
           {| returned := Returns result;
              requested := [CFA_COMBINED_RSS_URL] |})
      | Raises err =>
          let self :=
            {| _district_slugs := _district_slugs self;
               _combined_fail_count := (_combined_fail_count self + 1)%Z;
               _cycle_count := _cycle_count self;
               _last_source := _last_source self;
               _last_error := _last_error self;
               _failed_districts := _failed_districts self;
               _fallback_active := _fallback_active self |} in
          let '(self', res) := attempt_individual self net in
          (self', {| returned := res;
                     requested := CFA_COMBINED_RSS_URL :: individual_urls self |})
      end
    else
      let '(self', res) := attempt_individual self net in
      (self', {| returned := res; requested := individual_urls self |}).

(** Successive cycles, each with the network of its time. *)
Fixpoint run_cycles (self : Coordinator) (nets : list session)
  : Coordinator * list Cycle :=
  match nets with
  | [] => (self, [])
  | net :: rest =>
      let '(self', c) := _async_update_data self net in
      let '(self'', cs) := run_cycles self' rest in
      (self'', c :: cs)
  end.

(** ** Worked inputs *)

Definition TIMEOUT : exn := Exn ClientError (codes "timeout").

Definition item_of (title description : string) : element :=
  Element (codes "item") None
    [ Element (codes "title") (Some (codes title)) [];
      Element (codes "description") (Some (codes description)) [] ].

(** A feed of two forecast entries and a notice. *)
Definition FEED : xml :=
  Document
    (Element (codes "rss") None
       [ Element (codes "channel") None
           [ Element (codes "pubDate") (Some (codes "Wed, 04 Nov 2026")) [];
             item_of "Today, Wed 04 Nov" "Central: HIGH Mallee: EXTREME";
             item_of "Fire restrictions by municipality" "See the site";
             item_of "Tomorrow, Thu 05 Nov" "Central: MODERATE Mallee: HIGH" ] ]).

Definition FEED_PUB_DATE : option str := Some (codes "Wed, 04 Nov 2026").

(** The forecast entries of [FEED]. *)
Definition FEED_ITEMS : list (str * str) :=
  [ (codes "Today, Wed 04 Nov", codes "Central: HIGH Mallee: EXTREME");
    (codes "Tomorrow, Thu 05 Nov", codes "Central: MODERATE Mallee: HIGH") ].

(** Every feed answers. *)
Definition all_up : session := fun _ => Http 200 FEED.

(** The combined feed times out; the individual feeds answer. *)
Definition combined_down : session :=
  fun url => if str_eqb url CFA_COMBINED_RSS_URL then Fails TIMEOUT
             else Http 200 FEED.

(** The feed of Mallee is unavailable; every other feed answers. *)
Definition mallee_down : session :=
  fun url => if str_eqb url (CFA_RSS_URL (codes "mallee"))
             then Http 503 (Malformed [])
             else Http 200 FEED.

Definition THREE_REGIONS : gset str :=
  {[codes "central"; codes "mallee"; codes "wimmera"]}.

(** A coordinator at its start that tracks Central. *)
Definition tracking_central : Coordinator := add_district (codes "central") init.

(** * Properties *)

(** ** Text and tables *)

Lemma str_eqb_eq (s t : str) : str_eqb s t = true <-> s = t.
Proof.
  revert t; induction s as [|x s IH]; intros [|y t]; simpl; split;
    try congruence; try reflexivity.
  - intros H. apply andb_prop in H as [Hx Hs].
    apply N.eqb_eq in Hx. apply IH in Hs. congruence.
  - intros H. injection H as -> ->.
    rewrite N.eqb_refl. simpl. apply IH. reflexivity.
Qed.

Lemma str_eqb_refl (s : str) : str_eqb s s = true.
Proof. apply str_eqb_eq. reflexivity. Qed.

Lemma str_eqb_neq (s t : str) : str_eqb s t = false <-> s <> t.
Proof.
  rewrite <- str_eqb_eq. destruct (str_eqb s t); split; congruence.
Qed.

Definition is_raises {A : Type} (o : outcome A) : bool :=
  match o with
  | Raises _ => true
  | Returns _ => false
  end.

(** ** Severity table *)

Definition severity_of (rating : str) : Z := dict_get RATING_SEVERITY rating 0%Z.

(** C6 (as amended): along [FIRE_DANGER_RATINGS], in its ascending order,
    the severity is strictly increasing, from 0 to 5, and every one of the
    six ratings has an entry of the table.  "UNKNOWN" has no entry and
    gets severity 0 by the default of the lookup: it differs from
    "NO RATING" as a rating, but not in severity, which is 0 for both. *)
Theorem C6_severity_strictly_increasing :
  StronglySorted Z.lt (List.map severity_of FIRE_DANGER_RATINGS)
  /\ Forall (fun r => is_Some (dict_lookup RATING_SEVERITY r)) FIRE_DANGER_RATINGS
  /\ dict_lookup RATING_SEVERITY UNKNOWN = None
  /\ severity_of UNKNOWN = 0%Z
  /\ severity_of (codes "NO RATING") = 0%Z
  /\ UNKNOWN <> codes "NO RATING"
  /\ List.map severity_of FIRE_DANGER_RATINGS = [0; 1; 2; 3; 4; 5]%Z.
Proof.
  split; [|split; [|split; [|split; [|split; [|split]]]]]; try reflexivity.
  - simpl. repeat (constructor; [|repeat constructor; reflexivity]).
    constructor.
  - repeat constructor; eexists; reflexivity.
  - discriminate.
Qed.

(** C6, as stated, fails: the severity of "UNKNOWN" is not distinct from
    the severity "NO RATING" maps to. *)
Lemma C6_unknown_severity_not_distinct :
  ~ (severity_of UNKNOWN <> severity_of (codes "NO RATING")).
Proof. intros H. apply H. reflexivity. Qed.

(** ** Individual fetch strategy *)

Section Individual.
Variable net : session.

Definition fetched (slug : str) : outcome Snapshot :=
  _fetch_individual_feed net slug.

Definition keep (result : gmap str Snapshot) (slug : str) : gmap str Snapshot :=
  match fetched slug with
  | Returns res => <[slug := res]> result
  | Raises _ => result
  end.

Lemma collect_tasks (l : list str) (result : gmap str Snapshot) (errors : list str) :
  collect (List.map (fun slug => (slug, fetched slug)) l) result errors
  = (foldl keep result l,
     errors ++ List.filter (fun slug => is_raises (fetched slug)) l).
Proof.
  revert result errors; induction l as [|slug l IH]; intros result errors.
  - simpl. rewrite app_nil_r. reflexivity.
  - simpl. unfold keep at 2. destruct (fetched slug) as [res|e]; simpl.
    + apply IH.
    + rewrite IH, <- app_assoc. reflexivity.
Qed.

Lemma lookup_foldl_keep (l : list str) (result : gmap str Snapshot) (slug : str) :
  foldl keep result l !! slug
  = if bool_decide (slug ∈ l)
    then match fetched slug with
         | Returns res => Some res
         | Raises _ => result !! slug
         end
    else result !! slug.
Proof.
  revert result; induction l as [|x l IH]; intros result.
  - simpl. destruct (fetched slug); reflexivity.
  - simpl. rewrite IH. unfold keep.
    destruct (decide (slug = x)) as [->|Hne].
    + rewrite (bool_decide_eq_true_2 (x ∈ x :: l)) by (left).
      destruct (fetched x) as [res|e]; simpl.
      * rewrite lookup_insert_eq. case_bool_decide; reflexivity.
      * case_bool_decide; reflexivity.
    + assert (Hmem : bool_decide (slug ∈ x :: l) = bool_decide (slug ∈ l)).
      { apply bool_decide_ext. rewrite elem_of_cons.
        split; [intros [?|?]; [congruence|assumption]|intros ?; right; assumption]. }
      rewrite Hmem.
      destruct (fetched x) as [res|e]; simpl;
        rewrite ?lookup_insert_ne by congruence; reflexivity.
Qed.

(** C5: the individual strategy either returns, and then some tracked
    region succeeded, the result holds exactly the snapshots of the regions
    that succeeded and the list is exactly the regions that failed; or it
    raises, and then every tracked region failed and the message names
    every one of them.  So it raises if and only if all regions failed. *)
Theorem C5_individual_partial_success (district_slugs : gset str) :
  let failed :=
    List.filter (fun slug => is_raises (fetched slug)) (elements district_slugs) in
  match _fetch_individual_feeds net district_slugs with
  | Returns (result, errors) =>
      (exists slug, slug ∈ district_slugs /\ is_raises (fetched slug) = false)
      /\ (forall slug res,
            result !! slug = Some res
            <-> slug ∈ district_slugs /\ fetched slug = Returns res)
      /\ errors = failed
      /\ (forall slug,
            slug ∈ errors
            <-> slug ∈ district_slugs /\ is_raises (fetched slug) = true)
  | Raises e =>
      (forall slug, slug ∈ district_slugs -> is_raises (fetched slug) = true)
      /\ failed = elements district_slugs
      /\ e = Exn UpdateFailed
               (codes "All individual district feeds failed: "
                ++ join (codes ", ") failed)
  end.
Proof.
  intros failed. unfold _fetch_individual_feeds.
  change (fun slug : str => (slug, _fetch_individual_feed net slug))
    with (fun slug : str => (slug, fetched slug)).
  rewrite collect_tasks. simpl app. fold failed.
  assert (Hlook : forall slug,
            foldl keep ∅ (elements district_slugs) !! slug
            = if bool_decide (slug ∈ district_slugs)
              then match fetched slug with
                   | Returns res => Some res
                   | Raises _ => None
                   end
              else None).
  { intros slug. rewrite lookup_foldl_keep, lookup_empty.
    rewrite (bool_decide_ext _ (slug ∈ district_slugs)) by apply elem_of_elements.
    destruct (bool_decide _); [|reflexivity].
    destruct (fetched slug); reflexivity. }
  assert (Hfailed : forall slug,
            slug ∈ failed
            <-> slug ∈ district_slugs /\ is_raises (fetched slug) = true).
  { intros slug. unfold failed. rewrite list_elem_of_In, filter_In.
    rewrite <- list_elem_of_In, elem_of_elements. reflexivity. }
  case_bool_decide as Hempty.
  - assert (Hall : forall slug,
              slug ∈ district_slugs -> is_raises (fetched slug) = true).
    { intros slug Hin. pose proof (Hlook slug) as H.
      rewrite Hempty, lookup_empty, bool_decide_eq_true_2 in H by assumption.
      destruct (fetched slug); [discriminate|reflexivity]. }
    split; [exact Hall|]. split; [|reflexivity].
    unfold failed. apply forallb_filter_id. apply forallb_forall.
    intros slug Hin. apply Hall, elem_of_elements, list_elem_of_In, Hin.
  - split; [|split; [|split; [reflexivity|exact Hfailed]]].
    + apply map_choose in Hempty as (slug & res & Hs).
      rewrite Hlook in Hs. exists slug.
      case_bool_decide; [|discriminate].
      destruct (fetched slug); [split; [assumption|reflexivity]|discriminate].
    + intros slug res. rewrite Hlook. case_bool_decide as Hin.
      * destruct (fetched slug) as [res'|e]; split.
        -- intros [= ->]. split; [assumption|reflexivity].
        -- intros [_ [= ->]]. reflexivity.
        -- discriminate.
        -- intros [_ ?]. discriminate.
      * split; [discriminate|]. intros [? _]. contradiction.
Qed.

End Individual.

(** ** The coordinator *)

Lemma combined_url_not_individual (slug : str) :
  CFA_RSS_URL slug <> CFA_COMBINED_RSS_URL.
Proof.
  unfold CFA_RSS_URL.
  change CFA_COMBINED_RSS_URL
    with (codes "https://www.cfa.vic.gov.au/cfa/rssfeed/"
          ++ codes "tfbfdrforecast_rss.xml").
  intros H. apply app_inv_head in H.
  destruct slug as [|x [|y slug]].
  - discriminate H.
  - discriminate H.
  - apply (f_equal length) in H. rewrite length_app in H.
    cbn in H. lia.
Qed.

Lemma combined_url_not_requested (self : Coordinator) :
  CFA_COMBINED_RSS_URL ∉ individual_urls self.
Proof.
  unfold individual_urls. rewrite list_elem_of_In, in_map_iff.
  intros (slug & H & _). exact (combined_url_not_individual slug H).
Qed.

(** Whether a cycle requested the combined feed. *)
Definition attempted_combined (c : Cycle) : bool :=
  bool_decide (CFA_COMBINED_RSS_URL ∈ requested c).

Lemma attempted_individual_only (self : Coordinator) (res : outcome (gmap str Snapshot)) :
  attempted_combined {| returned := res; requested := individual_urls self |} = false.
Proof. apply bool_decide_eq_false_2, combined_url_not_requested. Qed.

Lemma attempted_cons (res : outcome (gmap str Snapshot)) (l : list str) :
  attempted_combined {| returned := res; requested := CFA_COMBINED_RSS_URL :: l |} = true.
Proof. apply bool_decide_eq_true_2. left. Qed.

(** The combined feed is attempted in normal operation, and in fallback on
    the cycles whose count is a multiple of the retry interval. *)
Definition combined_due (self : Coordinator) : bool :=
  if (_COMBINED_FAIL_THRESHOLD <=? _combined_fail_count self)%Z
  then ((_cycle_count self + 1) mod _COMBINED_RETRY_INTERVAL =? 0)%Z
  else true.

Lemma begin_cycle_due (self : Coordinator) :
  (begin_cycle self).2 = combined_due self.
Proof.
  unfold begin_cycle, combined_due. simpl.
  destruct (_COMBINED_FAIL_THRESHOLD <=? _combined_fail_count self)%Z;
    [|reflexivity].
  destruct (_ =? 0)%Z; reflexivity.
Qed.

(** One cycle of a coordinator that tracks a region, by cases. *)
Lemma update_cases (self : Coordinator) (net : session) :
  _district_slugs self <> ∅ ->
  let self1 := (begin_cycle self).1 in
  let failed1 :=
    {| _district_slugs := _district_slugs self1;
       _combined_fail_count := (_combined_fail_count self1 + 1)%Z;
       _cycle_count := _cycle_count self1;
       _last_source := _last_source self1;
       _last_error := _last_error self1;
       _failed_districts := _failed_districts self1;
       _fallback_active := _fallback_active self1 |} in
  _async_update_data self net =
    if combined_due self then
      match _fetch_combined_feed net (_district_slugs self) with
      | Returns result =>
          ({| _district_slugs := _district_slugs self;
              _combined_fail_count := 0;
              _cycle_count := (_cycle_count self + 1)%Z;
              _last_source := codes "combined";
              _last_error := None;
              _failed_districts := [];
              _fallback_active := false |},
           {| returned := Returns result; requested := [CFA_COMBINED_RSS_URL] |})
      | Raises _ =>
          ((attempt_individual failed1 net).1,
           {| returned := (attempt_individual failed1 net).2;
              requested := CFA_COMBINED_RSS_URL :: individual_urls self |})
      end
    else
      ((attempt_individual self1 net).1,
       {| returned := (attempt_individual self1 net).2;
          requested := individual_urls self |}).
Proof.
  intros Hne self1 failed1. unfold _async_update_data.
  rewrite bool_decide_eq_false_2 by assumption.
  rewrite (surjective_pairing (begin_cycle self)). cbv beta iota.
  rewrite begin_cycle_due.
  change (_district_slugs (begin_cycle self).1) with (_district_slugs self).
  destruct (combined_due self).
  - destruct (_fetch_combined_feed net (_district_slugs self)) as [result|err].
    + reflexivity.
    + rewrite (surjective_pairing (attempt_individual _ net)). reflexivity.
  - rewrite (surjective_pairing (attempt_individual _ net)). reflexivity.
Qed.

Lemma attempt_individual_keeps (self : Coordinator) (net : session) :
  let self' := (attempt_individual self net).1 in
  _district_slugs self' = _district_slugs self
  /\ _combined_fail_count self' = _combined_fail_count self
  /\ _cycle_count self' = _cycle_count self
  /\ _fallback_active self' = _fallback_active self.
Proof.
  unfold attempt_individual.
  destruct (_fetch_individual_feeds net (_district_slugs self)) as [[result failed]|err].
  - simpl. auto.
  - destruct (exn_cls err); simpl; auto.
Qed.

Lemma individual_raises_update_failed (net : session) (slugs : gset str) (err : exn) :
  _fetch_individual_feeds net slugs = Raises err -> exn_cls err = UpdateFailed.
Proof.
  unfold _fetch_individual_feeds.
  destruct (collect _ _ _) as [result errors].
  case_bool_decide; [|discriminate]. intros [= <-]. reflexivity.
Qed.

(** What the individual strategy leaves in the state. *)
Lemma attempt_individual_records (self : Coordinator) (net : session) :
  match _fetch_individual_feeds net (_district_slugs self) with
  | Returns (result, failed) =>
      (attempt_individual self net).2 = Returns result
      /\ _failed_districts (attempt_individual self net).1 = failed
      /\ _last_error (attempt_individual self net).1
         = match failed with
           | [] => None
           | _ :: _ =>
               Some (codes "Individual feeds failed for: "
                     ++ join (codes ", ") failed)
           end
  | Raises err =>
      (attempt_individual self net).2 = Raises err
      /\ _last_error (attempt_individual self net).1 = Some (exn_msg err)
      /\ _failed_districts (attempt_individual self net).1
         = elements (_district_slugs self)
  end.
Proof.
  unfold attempt_individual.
  destruct (_fetch_individual_feeds net (_district_slugs self))
    as [[result failed]|err] eqn:Hf.
  - simpl. auto.
  - rewrite (individual_raises_update_failed _ _ _ Hf). simpl. auto.
Qed.

(** C10: on an empty set of tracked regions the individual strategy raises
    the all-regions-failed failure, naming no region; the coordinator
    never gets there, since with no region tracked it returns the empty
    result at once, requests nothing and leaves its state as it was. *)
Theorem C10_empty_region_set (self : Coordinator) (net : session) :
  _district_slugs self = ∅ ->
  _fetch_individual_feeds net (_district_slugs self)
  = Raises (Exn UpdateFailed
              (codes "All individual district feeds failed: "
               ++ join (codes ", ") []))
  /\ _async_update_data self net
     = (self, {| returned := Returns ∅; requested := [] |}).
Proof.
  intros Hempty. split.
  - rewrite Hempty. unfold _fetch_individual_feeds.
    rewrite elements_empty. simpl.
    rewrite bool_decide_eq_true_2 by reflexivity. reflexivity.
  - unfold _async_update_data.
    rewrite bool_decide_eq_true_2 by assumption. reflexivity.
Qed.

(** C8 (as amended): in a cycle of a coordinator that tracks a region, a
    combined attempt that fails is counted in the failure counter; when
    the cycle comes to the individual strategy and that returns, the
    failed list is the strategy's and the last error is the summary of the
    failed regions, or absent when none failed; when it raises, the last
    error is its message and every tracked region is listed as failed. *)
Theorem C8_failures_recorded (self : Coordinator) (net : session) :
  _district_slugs self <> ∅ ->
  let self' := (_async_update_data self net).1 in
  let c := (_async_update_data self net).2 in
  let slugs := _district_slugs self in
  (attempted_combined c = true ->
   is_raises (_fetch_combined_feed net slugs) = true ->
   _combined_fail_count self' = (_combined_fail_count self + 1)%Z)
  /\ (attempted_combined c = false
      \/ is_raises (_fetch_combined_feed net slugs) = true ->
      match _fetch_individual_feeds net slugs with
      | Returns (result, failed) =>
          returned c = Returns result
          /\ _failed_districts self' = failed
          /\ _last_error self'
             = match failed with
               | [] => None
               | _ :: _ =>
                   Some (codes "Individual feeds failed for: "
                         ++ join (codes ", ") failed)
               end
      | Raises err =>
          returned c = Raises err
          /\ _last_error self' = Some (exn_msg err)
          /\ _failed_districts self' = elements slugs
      end).
Proof.
  intros Hne self' c slugs. subst self' c slugs.
  rewrite (update_cases self net Hne). cbv zeta.
  destruct (combined_due self).
  - destruct (_fetch_combined_feed net (_district_slugs self)) as [result|err];
      simpl fst; simpl snd.
    + split; [intros _ H; simpl in H; discriminate H|].
      intros [H|H]; [|simpl in H; discriminate H].
      rewrite attempted_cons in H. discriminate H.
    + split.
      * intros _ _.
        match goal with
        | |- context [attempt_individual ?s net] =>
            destruct (attempt_individual_keeps s net) as (_ & -> & _)
        end.
        reflexivity.
      * intros _.
        match goal with
        | |- context [attempt_individual ?s net] =>
            exact (attempt_individual_records s net)
        end.
  - simpl fst; simpl snd. split.
    + rewrite attempted_individual_only. intros H. discriminate H.
    + intros _. exact (attempt_individual_records (begin_cycle self).1 net).
Qed.

(** Whether the combined feed is attempted in each of [n] successive
    cycles throughout which it stays down, from a failure count and a
    cycle count. *)
Fixpoint due_trace (count cycle : Z) (n : nat) : list bool :=
  match n with
  | O => []
  | S n' =>
      let due :=
        if (_COMBINED_FAIL_THRESHOLD <=? count)%Z
        then ((cycle + 1) mod _COMBINED_RETRY_INTERVAL =? 0)%Z
        else true in
      due :: due_trace (if due then count + 1 else count)%Z (cycle + 1)%Z n'
  end.

(** One cycle, in what the state machine is about. *)
Lemma update_step (self : Coordinator) (net : session) :
  _district_slugs self <> ∅ ->
  let self' := (_async_update_data self net).1 in
  let c := (_async_update_data self net).2 in
  let combined := _fetch_combined_feed net (_district_slugs self) in
  _district_slugs self' = _district_slugs self
  /\ _cycle_count self' = (_cycle_count self + 1)%Z
  /\ attempted_combined c = combined_due self
  /\ _combined_fail_count self'
     = (if combined_due self
        then if is_raises combined then _combined_fail_count self + 1 else 0
        else _combined_fail_count self)%Z
  /\ _fallback_active self'
     = (if combined_due self && negb (is_raises combined)
        then false
        else (_COMBINED_FAIL_THRESHOLD <=? _combined_fail_count self)%Z)
  /\ (combined_due self = true ->
      forall result, combined = Returns result -> returned c = Returns result).
Proof.
  intros Hne self' c combined. subst self' c combined.
  rewrite (update_cases self net Hne). cbv zeta.
  destruct (combined_due self).
  - destruct (_fetch_combined_feed net (_district_slugs self)) as [result|err];
      cbn [fst snd].
    + rewrite attempted_cons. simpl.
      repeat split. intros _ r [= ->]. reflexivity.
    + rewrite attempted_cons.
      match goal with
      | |- context [attempt_individual ?s net] =>
          destruct (attempt_individual_keeps s net) as (-> & -> & -> & ->)
      end.
      simpl. repeat split. intros _ r H. discriminate H.
  - cbn [fst snd]. rewrite attempted_individual_only.
    destruct (attempt_individual_keeps (begin_cycle self).1 net)
      as (-> & -> & -> & ->).
    simpl. repeat split. intros H. discriminate H.
Qed.

Lemma run_cycles_cons (self : Coordinator) (net : session) (nets : list session) :
  run_cycles self (net :: nets)
  = ((run_cycles (_async_update_data self net).1 nets).1,
     (_async_update_data self net).2
     :: (run_cycles (_async_update_data self net).1 nets).2).
Proof.
  simpl. destruct (_async_update_data self net) as [self1 c]. cbn [fst snd].
  destruct (run_cycles self1 nets). reflexivity.
Qed.

Lemma run_cycles_down (nets : list session) (self : Coordinator) :
  _district_slugs self <> ∅ ->
  Forall (fun net =>
            is_raises (_fetch_combined_feed net (_district_slugs self)) = true)
         nets ->
  List.map attempted_combined (run_cycles self nets).2
  = due_trace (_combined_fail_count self) (_cycle_count self) (length nets).
Proof.
  revert self. induction nets as [|net nets IH]; intros self Hne Hdown.
  - reflexivity.
  - apply Forall_cons in Hdown as [Hnet Hdown].
    rewrite run_cycles_cons. simpl snd. simpl List.map. simpl length.
    destruct (update_step self net Hne) as (Hs & Hc & Ha & Hn & _).
    rewrite IH.
    + rewrite Ha, Hn, Hc, Hnet. reflexivity.
    + rewrite Hs. assumption.
    + rewrite Hs. assumption.
Qed.

(** C1 (as amended): in every cycle of a coordinator that tracks a
    region, the cycle is counted and the combined feed is attempted
    exactly when it is due: always while fewer than 3 consecutive combined
    failures are on record, and otherwise only when the coordinator's own
    cycle count, counted from its start and not from the entry into
    fallback, is a multiple of 10.  A cycle that skips the attempt is in
    fallback and leaves the failure count alone; an attempt that succeeds
    resets the count to 0 and clears the fallback flag; an attempt that
    fails adds one to the count.  So, with the combined feed down from
    cycle 1 on, cycles 1 to 3 attempt it, cycles 4 to 9 go straight to the
    individual feeds, cycle 10 is the first retry and cycles 11 to 13 skip
    again. *)
Theorem C1_fallback_state_machine
    (self : Coordinator) (net : session) (nets : list session) :
  _district_slugs self <> ∅ ->
  let self' := (_async_update_data self net).1 in
  let c := (_async_update_data self net).2 in
  let slugs := _district_slugs self in
  let count := _combined_fail_count self in
  let cycle := (_cycle_count self + 1)%Z in
  _cycle_count self' = cycle
  /\ ((count < 3)%Z -> attempted_combined c = true)
  /\ ((3 <= count)%Z -> attempted_combined c = (cycle mod 10 =? 0)%Z)
  /\ (attempted_combined c = false ->
      _fallback_active self' = true /\ _combined_fail_count self' = count
      /\ requested c = individual_urls self)
  /\ (attempted_combined c = true ->
      forall result, _fetch_combined_feed net slugs = Returns result ->
      _combined_fail_count self' = 0%Z /\ _fallback_active self' = false
      /\ returned c = Returns result)
  /\ (attempted_combined c = true ->
      is_raises (_fetch_combined_feed net slugs) = true ->
      _combined_fail_count self' = (count + 1)%Z)
  /\ (Forall (fun net => is_raises (_fetch_combined_feed net slugs) = true) nets ->
      List.map attempted_combined (run_cycles self nets).2
      = due_trace count (_cycle_count self) (length nets))
  /\ due_trace 0 0 13
     = [true; true; true; false; false; false; false; false; false; true;
        false; false; false].
Proof.
  intros Hne self' c slugs count cycle.
  destruct (update_step self net Hne) as (Hs & Hc & Ha & Hn & Hf & Hr).
  fold self' c in Hs, Hc, Ha, Hn, Hf, Hr.
  fold slugs count in Hn, Hf, Hr.
  assert (Hdue : combined_due self
                 = if (3 <=? count)%Z then (cycle mod 10 =? 0)%Z else true)
    by reflexivity.
  split; [exact Hc|].
  split; [intros Hlt; rewrite Ha, Hdue;
          destruct (Z.leb_spec 3 count); [lia|reflexivity]|].
  split; [intros Hge; rewrite Ha, Hdue;
          destruct (Z.leb_spec 3 count); [reflexivity|lia]|].
  split.
  { rewrite Ha. intros Hskip. rewrite Hskip in Hn, Hf. simpl in Hf.
    split; [|split; [exact Hn|]].
    - rewrite Hf. rewrite Hdue in Hskip.
      change _COMBINED_FAIL_THRESHOLD with 3%Z.
      destruct (3 <=? count)%Z; [reflexivity|discriminate Hskip].
    - subst c. rewrite (update_cases self net Hne). cbv zeta.
      rewrite Hskip. reflexivity. }
  split.
  { rewrite Ha. intros Hdo result Hret. rewrite Hdo in Hn, Hf.
    rewrite Hret in Hn, Hf. simpl in Hn, Hf.
    split; [exact Hn|split; [exact Hf|]]. exact (Hr Hdo result Hret). }
  split.
  { rewrite Ha. intros Hdo Hdown. rewrite Hdo, Hdown in Hn. exact Hn. }
  split; [|reflexivity].
  intros Hdown. apply run_cycles_down; assumption.
Qed.

(** ** Combined fetch strategy *)

Section Combined.
Variable pub : option str.
Variable district_slugs : gset str.

(** The forecast of one entry for one region. *)
Definition forecast_for (slug : str) (item : str * str) : Forecast :=
  with_date_label (_parse_item item.2 (feed_name_of slug)) item.1.

(** The snapshot of a region over the entries [items]. *)
Definition snapshot_of (items : list (str * str)) (slug : str) : Snapshot :=
  {| district_slug := slug;
     district_name := dict_get DISTRICTS slug slug;
     pub_date := pub;
     forecasts := List.map (forecast_for slug) items |}.

(** Every tracked region is UNKNOWN on every entry. *)
Definition all_days_unknown (items : list (str * str)) : bool :=
  forallb (fun slug =>
             forallb (fun item =>
                        str_eqb (rating (_parse_item item.2 (feed_name_of slug)))
                                UNKNOWN)
                     items)
          (elements district_slugs).

Definition covers (result : gmap str Snapshot) (items : list (str * str)) : Prop :=
  forall slug,
    result !! slug
    = if bool_decide (slug ∈ district_slugs)
      then Some (snapshot_of items slug) else None.

Definition init_result (l : list str) : gmap str Snapshot :=
  foldl (fun result slug =>
           <[slug := {| district_slug := slug;
                        district_name := dict_get DISTRICTS slug slug;
                        pub_date := pub;
                        forecasts := [] |}]> result)
        ∅ l.

Definition add_item (l : list str) (result : gmap str Snapshot)
    (item : str * str) : gmap str Snapshot :=
  foldl (fun result slug =>
           let parsed := _parse_item item.2 (feed_name_of slug) in
           let parsed := with_date_label parsed item.1 in
           alter (append_forecast parsed) slug result)
        result l.

Lemma lookup_init_result (l : list str) (slug : str) :
  init_result l !! slug
  = if bool_decide (slug ∈ l) then Some (snapshot_of [] slug) else None.
Proof.
  unfold init_result.
  assert (H : forall (m : gmap str Snapshot),
            foldl (fun result slug =>
                     <[slug := {| district_slug := slug;
                                  district_name := dict_get DISTRICTS slug slug;
                                  pub_date := pub;
                                  forecasts := [] |}]> result) m l !! slug
            = if bool_decide (slug ∈ l) then Some (snapshot_of [] slug)
              else m !! slug).
  { induction l as [|x l IH]; intros m.
    - reflexivity.
    - simpl. rewrite IH. destruct (decide (slug = x)) as [->|Hne].
      + rewrite (bool_decide_eq_true_2 (x ∈ x :: l)) by left.
        rewrite lookup_insert_eq. case_bool_decide; reflexivity.
      + rewrite lookup_insert_ne by congruence.
        apply (f_equal (fun b : bool =>
                 if b then Some (snapshot_of [] slug) else m !! slug)).
        apply bool_decide_ext. rewrite elem_of_cons.
        split; [intros ?; right; assumption
               |intros [?|?]; [congruence|assumption]]. }
  rewrite H, lookup_empty. reflexivity.
Qed.

Lemma lookup_add_item (l : list str) (result : gmap str Snapshot)
    (item : str * str) (slug : str) :
  NoDup l ->
  add_item l result item !! slug
  = if bool_decide (slug ∈ l)
    then append_forecast (forecast_for slug item) <$> result !! slug
    else result !! slug.
Proof.
  unfold add_item. revert result.
  induction l as [|x l IH]; intros result Hnd.
  - reflexivity.
  - apply NoDup_cons in Hnd as [Hx Hnd]. simpl. rewrite (IH _ Hnd).
    destruct (decide (slug = x)) as [->|Hne].
    + rewrite (bool_decide_eq_true_2 (x ∈ x :: l)) by left.
      rewrite (bool_decide_eq_false_2 (x ∈ l)) by assumption.
      rewrite lookup_alter_eq. reflexivity.
    + rewrite lookup_alter_ne by congruence.
      apply (f_equal (fun b : bool =>
               if b then append_forecast (forecast_for slug item) <$> result !! slug
               else result !! slug)).
      apply bool_decide_ext. rewrite elem_of_cons.
      split; [intros ?; right; assumption
             |intros [?|?]; [congruence|assumption]].
Qed.

Lemma covers_add_items (items done : list (str * str)) (result : gmap str Snapshot) :
  covers result done ->
  covers (foldl (add_item (elements district_slugs)) result items) (done ++ items).
Proof.
  revert done result. induction items as [|item items IH]; intros done result Hc.
  - rewrite app_nil_r. exact Hc.
  - simpl. replace (done ++ item :: items) with ((done ++ [item]) ++ items)
      by (rewrite <- app_assoc; reflexivity).
    apply IH. intros slug.
    rewrite lookup_add_item by apply NoDup_elements.
    rewrite (bool_decide_ext _ (slug ∈ district_slugs)) by apply elem_of_elements.
    rewrite (Hc slug). case_bool_decide; [|reflexivity].
    simpl. unfold append_forecast, snapshot_of. simpl.
    rewrite List.map_app. reflexivity.
Qed.

(** The check of [_fetch_combined_feed] on the result it built. *)
Definition unknown_in (result : gmap str Snapshot) : bool :=
  forallb (fun data =>
             forallb (fun f => str_eqb (rating f) UNKNOWN) (forecasts data))
          (List.filter (fun data => negb (Nat.eqb (length (forecasts data)) 0))
             (List.map snd (map_to_list result))).

Lemma forecasts_unknown (items : list (str * str)) (slug : str) :
  forallb (fun f => str_eqb (rating f) UNKNOWN)
          (forecasts (snapshot_of items slug))
  = forallb (fun item =>
               str_eqb (rating (_parse_item item.2 (feed_name_of slug))) UNKNOWN)
            items.
Proof.
  simpl. induction items as [|item items IH]; simpl; [reflexivity|].
  rewrite IH. reflexivity.
Qed.

Lemma unknown_in_covers (result : gmap str Snapshot) (items : list (str * str)) :
  covers result items -> items <> [] ->
  unknown_in result = all_days_unknown items.
Proof.
  intros Hc Hitems. apply eq_true_iff_eq.
  unfold unknown_in, all_days_unknown. rewrite !forallb_forall. split.
  - intros H slug Hin. rewrite <- forecasts_unknown. apply H.
    apply filter_In. split.
    + apply in_map_iff. exists (slug, snapshot_of items slug). split; [reflexivity|].
      apply list_elem_of_In, elem_of_map_to_list. rewrite (Hc slug).
      rewrite bool_decide_eq_true_2; [reflexivity|].
      apply elem_of_elements, list_elem_of_In, Hin.
    + simpl. rewrite length_map. destruct items; [congruence|reflexivity].
  - intros H data Hin. apply filter_In in Hin as [Hin _].
    apply in_map_iff in Hin as ([slug data'] & Heq & Hin). simpl in Heq. subst data'.
    apply list_elem_of_In, elem_of_map_to_list in Hin. rewrite (Hc slug) in Hin.
    case_bool_decide as Hs; [|discriminate Hin].
    injection Hin as <-. rewrite forecasts_unknown. apply H.
    apply list_elem_of_In, elem_of_elements, Hs.
Qed.

Lemma foldl_pointwise {S T : Type} (f g : S -> T -> S) (l : list T) (s0 : S) :
  (forall s x, f s x = g s x) -> foldl f s0 l = foldl g s0 l.
Proof.
  intros H. revert s0. induction l as [|x l IH]; intros s0; simpl.
  - reflexivity.
  - rewrite H. apply IH.
Qed.

Definition NO_ITEMS : exn :=
  Exn UpdateFailed (codes "Combined feed returned no forecast items").
Definition ALL_UNKNOWN : exn :=
  Exn UpdateFailed
    (codes "Combined feed returned data but all ratings are UNKNOWN "
     ++ [8212] ++ codes " feed structure may have changed").

Lemma combined_result_cases (items : list (str * str)) :
  combined_result pub items district_slugs
  = match items with
    | [] => Raises NO_ITEMS
    | _ :: _ =>
        let result :=
          foldl (add_item (elements district_slugs))
                (init_result (elements district_slugs)) items in
        if unknown_in result && bool_decide (district_slugs <> ∅)
        then Raises ALL_UNKNOWN
        else Returns result
    end.
Proof.
  destruct items as [|item items]; [reflexivity|].
  unfold combined_result.
  set (step := fun (result : gmap str Snapshot) '(title_text, desc_text) => _).
  assert (Hstep : forall l, foldl step (init_result (elements district_slugs)) l
                            = foldl (add_item (elements district_slugs))
                                    (init_result (elements district_slugs)) l).
  { intros l. apply foldl_pointwise. intros r [t d]. reflexivity. }
  fold (init_result (elements district_slugs)).
  rewrite Hstep. reflexivity.
Qed.

(** What the combined strategy does with the entries of a parsed feed. *)
Lemma combined_result_spec (items : list (str * str)) :
  match combined_result pub items district_slugs with
  | Raises e =>
      (items = [] /\ e = NO_ITEMS)
      \/ (items <> [] /\ district_slugs <> ∅
          /\ all_days_unknown items = true /\ e = ALL_UNKNOWN)
  | Returns result =>
      items <> []
      /\ (district_slugs = ∅ \/ all_days_unknown items = false)
      /\ covers result items
  end.
Proof.
  rewrite combined_result_cases.
  destruct items as [|item items]; [left; split; reflexivity|].
  set (all := item :: items).
  assert (Hall : all <> []) by discriminate.
  assert (Hc : covers (foldl (add_item (elements district_slugs))
                         (init_result (elements district_slugs)) all) all).
  { apply (covers_add_items all []). intros slug.
    rewrite lookup_init_result.
    apply (f_equal (fun b : bool => if b then Some (snapshot_of [] slug) else None)).
    apply bool_decide_ext, elem_of_elements. }
  cbv zeta. rewrite (unknown_in_covers _ _ Hc Hall).
  destruct (all_days_unknown all) eqn:Hu; simpl.
  - case_bool_decide as Hs.
    + right. auto.
    + split; [assumption|]. split; [|assumption].
      left. destruct (decide (district_slugs = ∅)); [assumption|contradiction].
  - split; [assumption|]. split; [right; reflexivity|assumption].
Qed.

End Combined.

(** ** Literals *)

(** [t] spells [w], character by character, as [re.IGNORECASE] compares. *)
Definition spells (w t : str) : Prop :=
  Forall2 (fun p c => ci_char p c = true) w t.

(** [t] begins with a spelling of [w]. *)
Definition begins_with (w t : str) : Prop :=
  exists pre rest, t = pre ++ rest /\ spells w pre.

Lemma eat_lit_spec (w t rest : str) :
  eat_lit w t = Some rest <-> exists pre, t = pre ++ rest /\ spells w pre.
Proof.
  revert t. induction w as [|x w IH]; intros t; simpl.
  - split.
    + intros [= ->]. exists []. split; [reflexivity|constructor].
    + intros (pre & -> & H). inversion H. reflexivity.
  - destruct t as [|y t].
    + split; [discriminate|]. intros (pre & Heq & H). inversion H; subst.
      discriminate Heq.
    + destruct (ci_char x y) eqn:Hxy.
      * rewrite IH. split.
        -- intros (pre & -> & H). exists (y :: pre).
           split; [reflexivity|constructor; assumption].
        -- intros (pre & Heq & H). inversion H; subst.
           injection Heq as <- ->. eexists. split; [reflexivity|assumption].
      * split; [discriminate|]. intros (pre & Heq & H). inversion H; subst.
        injection Heq as <- ->. congruence.
Qed.

Lemma eat_lit_begins (w t : str) :
  is_Some (eat_lit w t) <-> begins_with w t.
Proof.
  unfold begins_with. split.
  - intros [rest H]. apply eat_lit_spec in H as (pre & -> & H). eauto.
  - intros (pre & rest & -> & H). exists rest. apply eat_lit_spec. eauto.
Qed.

Lemma spells_length (w t : str) : spells w t -> length t = length w.
Proof. intros H. symmetry. exact (Forall2_length _ _ _ H). Qed.

Lemma eat_lit_take (w t rest : str) :
  eat_lit w t = Some rest -> t = take (length w) t ++ rest /\ spells w (take (length w) t).
Proof.
  intros H. apply eat_lit_spec in H as (pre & -> & H).
  rewrite <- (spells_length _ _ H), take_app_length. split; [reflexivity|assumption].
Qed.

(** ** What a match is

    [matches r c g c' g']: from the cursor [c] with the groups [g], the
    pattern [r] can match up to the cursor [c'], leaving the groups [g']. *)

Fixpoint matches (r : regex) (c : cursor) (g : groups) (c' : cursor)
    (g' : groups) : Prop :=
  match r with
  | Lit s =>
      eat_lit s (after c) = Some (after c')
      /\ before c' = rev (take (length s) (after c)) ++ before c /\ g' = g
  | Chr p =>
      (exists x, after c = x :: after c' /\ p x = true
                 /\ before c' = x :: before c) /\ g' = g
  | Seq r1 r2 =>
      exists c1 g1, matches r1 c g c1 g1 /\ matches r2 c1 g1 c' g'
  | Alt r1 r2 => matches r1 c g c' g' \/ matches r2 c g c' g'
  | Star p | LazyStar p =>
      (exists xs, after c = xs ++ after c' /\ forallb p xs = true
                  /\ before c' = rev xs ++ before c) /\ g' = g
  | Opt r1 => matches r1 c g c' g' \/ (c' = c /\ g' = g)
  | Group n r1 => exists g1, matches r1 c g c' g1 /\ g' = (n, span c c') :: g1
  | Bol => before c = [] /\ c' = c /\ g' = g
  | Eol => (after c = [] \/ after c = [10]) /\ c' = c /\ g' = g
  | WordB =>
      xorb (word_at (before c)) (word_at (after c)) = true /\ c' = c /\ g' = g
  | NotBehindLit s => eat_lit (rev s) (before c) = None /\ c' = c /\ g' = g
  | NotBehindChr p =>
      match before c with
      | x :: _ => p x = false
      | [] => True
      end /\ c' = c /\ g' = g
  end.

Section Sound.
Context {A : Type}.

Lemma star_sound (p : char -> bool) (a b : str) (k : cursor -> option A) (v : A) :
  star p b a k = Some v ->
  exists xs a', a = xs ++ a' /\ forallb p xs = true
                /\ k (Cursor (rev xs ++ b) a') = Some v.
Proof.
  revert b. induction a as [|x a IH]; intros b; simpl.
  - intros H. exists [], []. auto.
  - destruct (p x) eqn:Hp.
    + destruct (star p (x :: b) a k) as [w|] eqn:Hs.
      * intros [= ->]. apply IH in Hs as (xs & a' & -> & Hxs & Hk).
        exists (x :: xs), a'. simpl. rewrite Hp, Hxs.
        rewrite <- app_assoc. auto.
      * intros H. exists [], (x :: a). auto.
    + intros H. exists [], (x :: a). auto.
Qed.

Lemma lazy_star_sound (p : char -> bool) (a b : str) (k : cursor -> option A) (v : A) :
  lazy_star p b a k = Some v ->
  exists xs a', a = xs ++ a' /\ forallb p xs = true
                /\ k (Cursor (rev xs ++ b) a') = Some v.
Proof.
  revert b. induction a as [|x a IH]; intros b; simpl.
  - destruct (k (Cursor b [])) eqn:Hk; [|discriminate].
    intros [= ->]. exists [], []. auto.
  - destruct (k (Cursor b (x :: a))) eqn:Hk.
    + intros [= ->]. exists [], (x :: a). auto.
    + destruct (p x) eqn:Hp; [|discriminate].
      intros Hs. apply IH in Hs as (xs & a' & -> & Hxs & Hk').
      exists (x :: xs), a'. simpl. rewrite Hp, Hxs.
      rewrite <- app_assoc. auto.
Qed.

(** Whatever the matcher hands to its continuation is a match. *)
Lemma run_sound (r : regex) (c : cursor) (g : groups)
    (k : cursor -> groups -> option A) (v : A) :
  run r c g k = Some v ->
  exists c' g', matches r c g c' g' /\ k c' g' = Some v.
Proof.
  revert c g k.
  induction r as [s|p|r1 IH1 r2 IH2|r1 IH1 r2 IH2|p|p|r1 IH1|n r1 IH1| | | |s|p];
    intros c g k; simpl.
  - destruct (eat_lit s (after c)) as [a'|] eqn:He; [|discriminate].
    intros Hk. eexists _, g. split; [|exact Hk]. simpl. auto.
  - destruct (after c) as [|x a'] eqn:Ha; [discriminate|].
    destruct (p x) eqn:Hp; [|discriminate].
    intros Hk. eexists _, g. split; [|exact Hk]. simpl. split; [|reflexivity].
    exists x. auto.
  - intros H. apply IH1 in H as (c1 & g1 & H1 & H).
    apply IH2 in H as (c2 & g2 & H2 & H). eauto 8.
  - destruct (run r1 c g k) as [w|] eqn:H1.
    + intros [= ->]. apply IH1 in H1 as (c1 & g1 & H1 & H). eauto 8.
    + intros H. apply IH2 in H as (c2 & g2 & H2 & H). eauto 8.
  - intros H. apply star_sound in H as (xs & a' & Ha & Hxs & H).
    eexists _, g. split; [|exact H]. simpl. split; [|reflexivity].
    exists xs. auto.
  - intros H. apply lazy_star_sound in H as (xs & a' & Ha & Hxs & H).
    eexists _, g. split; [|exact H]. simpl. split; [|reflexivity].
    exists xs. auto.
  - destruct (run r1 c g k) as [w|] eqn:H1.
    + intros [= ->]. apply IH1 in H1 as (c1 & g1 & H1 & H). eauto 8.
    + intros H. exists c, g. auto.
  - intros H. apply IH1 in H as (c1 & g1 & H1 & H). eauto 8.
  - destruct (before c) eqn:Hb; [|discriminate]. intros H. exists c, g. auto.
  - destruct (after c) as [|x [|y a']] eqn:Ha; try discriminate.
    + intros H. exists c, g. auto.
    + destruct (N.eqb_spec x 10) as [->|]; [|discriminate].
      intros H. exists c, g. auto.
  - destruct (xorb _ _) eqn:Hx; [|discriminate]. intros H. exists c, g. auto.
  - destruct (eat_lit (rev s) (before c)) eqn:He; [discriminate|].
    intros H. exists c, g. auto.
  - destruct (before c) as [|x b'] eqn:Hb.
    + intros H. exists c, g. auto.
    + destruct (p x) eqn:Hp; [discriminate|]. intros H. exists c, g. auto.
Qed.

End Sound.

(** ** Searching *)

Lemma match_at_sound (r : regex) (c : cursor) (m : rmatch) :
  match_at r c = Some m ->
  m_start m = c /\ matches r c [] (m_end m) (m_groups m).
Proof.
  unfold match_at. intros H.
  apply run_sound in H as (c' & g' & Hm & [= <-]). simpl. auto.
Qed.

Lemma search_from_found (r : regex) (a b : str) (m : rmatch) :
  search_from r b a = Some m -> exists c, match_at r c = Some m.
Proof.
  revert b. induction a as [|x a IH]; intros b; simpl.
  - destruct (match_at r (Cursor b [])) eqn:Hm; [|discriminate].
    intros [= ->]. eauto.
  - destruct (match_at r (Cursor b (x :: a))) eqn:Hm.
    + intros [= ->]. eauto.
    + apply IH.
Qed.

Lemma finditer_from_found (r : regex) (fuel : nat) (c : cursor) (m : rmatch) :
  In m (finditer_from fuel r c) -> exists c', match_at r c' = Some m.
Proof.
  revert c. induction fuel as [|fuel IH]; intros c; simpl; [contradiction|].
  destruct (search_from r (before c) (after c)) as [m0|] eqn:Hs;
    [|contradiction].
  assert (H0 : exists c', match_at r c' = Some m0)
    by exact (search_from_found _ _ _ _ Hs).
  destruct (_ <? _)%nat.
  - intros [<-|Hin]; [assumption|]. exact (IH _ Hin).
  - destruct (step_over (m_end m0)) as [c'|].
    + intros [<-|Hin]; [assumption|]. exact (IH _ Hin).
    + intros [<-|[]]. assumption.
Qed.

(** [search] finds the first of the matches [finditer] yields. *)
Lemma re_search_first (r : regex) (text : str) :
  re_search r text = head (re_finditer r text).
Proof.
  unfold re_search, re_finditer. simpl.
  destruct (search_from r [] text) as [m|]; [|reflexivity].
  destruct (_ <? _)%nat; [reflexivity|].
  destruct (step_over (m_end m)); reflexivity.
Qed.

Lemma matches_alts (l : list str) (c : cursor) (g : groups) (c' : cursor)
    (g' : groups) :
  l <> [] -> matches (alts l) c g c' g' ->
  g' = g /\ exists w, In w l /\ eat_lit w (after c) = Some (after c')
                      /\ before c' = rev (take (length w) (after c)) ++ before c.
Proof.
  induction l as [|x l IH]; [congruence|]. intros _.
  destruct l as [|y l].
  - simpl. intros (He & Hb & ->). split; [reflexivity|].
    exists x. auto.
  - change (alts (x :: y :: l)) with (Alt (Lit x) (alts (y :: l))).
    simpl matches. intros [(He & Hb & ->)|H].
    + split; [reflexivity|]. exists x. simpl. auto.
    + apply IH in H as (-> & w & Hw & H); [|discriminate].
      split; [reflexivity|]. exists w. split; [right; assumption|assumption].
Qed.

(** The text a literal matched spells the literal. *)
Lemma span_spells (w : str) (c c' : cursor) :
  eat_lit w (after c) = Some (after c') ->
  before c' = rev (take (length w) (after c)) ++ before c ->
  spells w (span c c').
Proof.
  intros He Hb. apply eat_lit_take in He as [_ Hs].
  unfold span, pos. rewrite Hb, length_app, length_rev.
  rewrite (spells_length _ _ Hs).
  replace (length w + length (before c) - length (before c))%nat
    with (length w) by lia.
  exact Hs.
Qed.

(** ** Rating extraction *)

(** In a match of [RE_RATING], group 1 spells a district name of the feed
    and group 2 spells a rating of the vocabulary. *)
Lemma rating_match_groups (c : cursor) (m : rmatch) :
  match_at RE_RATING c = Some m ->
  (exists d, In d (dict_values DISTRICT_FEED_NAMES) /\ spells d (m_group 1 m))
  /\ (exists w, In w FIRE_DANGER_RATINGS /\ spells w (m_group 2 m)).
Proof.
  intros H. apply match_at_sound in H as [_ H].
  unfold RE_RATING in H. cbn [matches] in H.
  destruct H as (c1 & g1 & _ & c2 & g2 & (g1' & Hd & ->) & c3 & g3
                 & (_ & _ & ->) & c4 & g4 & (_ & ->) & g5 & Hw & Hg).
  apply matches_alts in Hd as (-> & d & Hd & Hde & Hdb); [|discriminate].
  apply matches_alts in Hw as (-> & w & Hw & Hwe & Hwb); [|discriminate].
  unfold m_group. rewrite Hg. simpl. split.
  - exists d. split; [assumption|]. exact (span_spells _ _ _ Hde Hdb).
  - exists w. split; [assumption|]. exact (span_spells _ _ _ Hwe Hwb).
Qed.

Ltac split_compare :=
  repeat match goal with
         | |- context [(?a <=? ?b)] => destruct (N.leb_spec a b)
         | |- context [(?a <? ?b)] => destruct (N.ltb_spec a b)
         | |- context [(?a =? ?b)] => destruct (N.eqb_spec a b)
         end.

(** An ASCII capital other than I, S and K matches itself and its small
    letter only, and both are that capital in upper case. *)
Lemma ci_char_upper (p x : char) :
  is_ascii_upper p = true -> p <> 73 -> p <> 83 -> p <> 75 ->
  ci_char p x = true -> upper_char x = [p].
Proof.
  unfold ci_char, upper_char, ascii_lower, ascii_upper, is_ascii_upper,
    is_ascii_lower, between.
  intros Hp H1 H2 H3.
  assert (Hlo : 65 <= p <= 90).
  { revert Hp. split_compare; simpl; intros; try discriminate; lia. }
  clear Hp.
  destruct (N.ltb_spec p 128); [|lia].
  destruct (N.leb_spec 65 p); [|lia].
  destruct (N.leb_spec p 90); [|lia]. simpl.
  destruct (N.leb_spec 97 (p + 32)); [|lia].
  destruct (N.leb_spec (p + 32) 122); [|lia]. simpl.
  destruct (N.eqb_spec (p + 32) 105); [lia|].
  destruct (N.eqb_spec (p + 32) 115); [lia|].
  destruct (N.eqb_spec (p + 32) 107); [lia|]. simpl.
  rewrite !orb_false_r.
  destruct (N.leb_spec 65 x); destruct (N.leb_spec x 90); simpl;
    intros Hx; apply N.eqb_eq in Hx.
  - destruct (N.ltb_spec x 128); [|lia].
    destruct (N.leb_spec 97 x); [lia|]. simpl. f_equal. lia.
  - destruct (N.ltb_spec x 128); [|lia].
    destruct (N.leb_spec 97 x); [|lia].
    destruct (N.leb_spec x 122); [|lia]. simpl. f_equal. lia.
  - lia.
  - lia.
Qed.

(** What spells a rating of the vocabulary is not "UNKNOWN" in upper case. *)
Lemma rating_not_unknown (w t : str) :
  In w FIRE_DANGER_RATINGS -> spells w t -> str_eqb (upper t) UNKNOWN = false.
Proof.
  intros Hw Hs.
  assert (H : exists p w' x t', w = p :: w' /\ t = x :: t'
                /\ ci_char p x = true /\ is_ascii_upper p = true
                /\ p <> 73 /\ p <> 83 /\ p <> 75 /\ p <> 85).
  { cbv in Hw.
    repeat (destruct Hw as [<-|Hw];
            [inversion Hs; subst; do 4 eexists;
             split; [reflexivity|]; split; [reflexivity|];
             split; [eassumption|];
             repeat split; (reflexivity || discriminate)|]).
    contradiction. }
  destruct H as (p & w' & x & t' & -> & -> & Hpx & Hup & H1 & H2 & H3 & H4).
  change UNKNOWN with (85 :: codes "NKNOWN").
  unfold upper. cbn [List.map concat].
  rewrite (ci_char_upper p x Hup H1 H2 H3 Hpx). cbn [app str_eqb].
  destruct (N.eqb_spec p 85); [contradiction|reflexivity].
Qed.

(** The occurrence names the target region, case-insensitively. *)
Definition same_region (district_name : str) (m : rmatch) : bool :=
  str_eqb (upper (strip (m_group 1 m))) (upper district_name).

Lemma rating_of_district_find (district_name : str) (ms : list rmatch) :
  rating_of_district district_name ms
  = match List.find (same_region district_name) ms with
    | Some m => upper (m_group 2 m)
    | None => UNKNOWN
    end.
Proof.
  induction ms as [|m ms IH]; simpl; [reflexivity|].
  unfold same_region at 1. destruct (str_eqb _ _); [reflexivity|exact IH].
Qed.

Lemma occurrence_not_unknown (text : str) (m : rmatch) :
  In m (re_finditer RE_RATING text) ->
  str_eqb (upper (m_group 2 m)) UNKNOWN = false.
Proof.
  intros Hin. apply finditer_from_found in Hin as [c Hc].
  apply rating_match_groups in Hc as [_ (w & Hw & Hs)].
  exact (rating_not_unknown w _ Hw Hs).
Qed.

(** The rating the extractor settles on, by the occurrences. *)
Lemma extract_rating_occurrence (text district_name : str) :
  extract_rating text district_name
  = match List.find (same_region district_name) (re_finditer RE_RATING text) with
    | Some m => upper (m_group 2 m)
    | None =>
        match re_finditer RE_RATING text with
        | m :: _ => upper (m_group 2 m)
        | [] => UNKNOWN
        end
    end.
Proof.
  unfold extract_rating.
  rewrite rating_of_district_find, re_search_first.
  destruct (List.find (same_region district_name) (re_finditer RE_RATING text))
    as [m|] eqn:Hf.
  - apply find_some in Hf as [Hin _].
    rewrite (occurrence_not_unknown text m Hin). reflexivity.
  - rewrite str_eqb_refl. destruct (re_finditer RE_RATING text); reflexivity.
Qed.

(** A rating is "UNKNOWN" or the upper case of a text that spells a rating
    of the vocabulary. *)
Lemma rating_shape (text district_name : str) :
  extract_rating text district_name = UNKNOWN
  \/ exists w t, In w FIRE_DANGER_RATINGS /\ spells w t
                 /\ extract_rating text district_name = upper t.
Proof.
  rewrite extract_rating_occurrence.
  assert (Hocc : forall m, In m (re_finditer RE_RATING text) ->
                 exists w t, In w FIRE_DANGER_RATINGS /\ spells w t
                             /\ upper (m_group 2 m) = upper t).
  { intros m Hin. apply finditer_from_found in Hin as [c Hc].
    apply rating_match_groups in Hc as [_ (w & Hw & Hs)].
    exists w, (m_group 2 m). auto. }
  destruct (List.find (same_region district_name) (re_finditer RE_RATING text))
    as [m|] eqn:Hf.
  - right. apply find_some in Hf as [Hin _]. exact (Hocc m Hin).
  - destruct (re_finditer RE_RATING text) as [|m ms]; [left; reflexivity|].
    right. apply Hocc. left. reflexivity.
Qed.

Definition BOTH_REGIONS : str :=
  codes "North Central: HIGH Central: LOW-MODERATE".
Definition BOTH_REGIONS_SWAPPED : str :=
  codes "Central: LOW-MODERATE North Central: HIGH".

(** C3: the occurrences of "<region>: <rating>" being the successive
    matches of [RE_RATING] in the text, as [finditer] yields them, the
    rating of a record is that of the first occurrence whose region is the
    target in any letter case;
    when no occurrence names the target, that of the first occurrence in
    the text; when there is no occurrence at all, "UNKNOWN", with severity
    0.  A fragment with both "North Central: HIGH" and
    "Central: LOW-MODERATE", in either order, gives LOW-MODERATE for
    Central and HIGH for North Central. *)
Theorem C3_rating_extraction (text district_name : str) :
  let occurrences := re_finditer RE_RATING text in
  let record := parse_text text district_name in
  rating record
  = match List.find (same_region district_name) occurrences with
    | Some m => upper (m_group 2 m)
    | None =>
        match occurrences with
        | m :: _ => upper (m_group 2 m)
        | [] => UNKNOWN
        end
    end
  /\ match occurrences with
     | [] => rating record = UNKNOWN /\ severity record = 0%Z
     | _ :: _ => True
     end
  /\ rating (parse_text BOTH_REGIONS (codes "Central")) = codes "LOW-MODERATE"
  /\ rating (parse_text BOTH_REGIONS (codes "North Central")) = codes "HIGH"
  /\ rating (parse_text BOTH_REGIONS_SWAPPED (codes "Central"))
     = codes "LOW-MODERATE"
  /\ rating (parse_text BOTH_REGIONS_SWAPPED (codes "North Central"))
     = codes "HIGH".
Proof.
  intros occurrences record.
  assert (Hr : rating record
               = match List.find (same_region district_name) occurrences with
                 | Some m => upper (m_group 2 m)
                 | None =>
                     match occurrences with
                     | m :: _ => upper (m_group 2 m)
                     | [] => UNKNOWN
                     end
                 end)
    by exact (extract_rating_occurrence text district_name).
  split; [exact Hr|]. split.
  - destruct occurrences eqn:Ho; [|exact I].
    assert (Hu : rating record = UNKNOWN) by (rewrite Hr; reflexivity).
    split; [exact Hu|].
    change (severity record) with (dict_get RATING_SEVERITY (rating record) 0%Z).
    rewrite Hu. reflexivity.
  - repeat split; vm_compute; reflexivity.
Qed.

(** ** Feed parser *)

Definition DAY_NAMES : list str :=
  List.map codes
    ["Monday"; "Tuesday"; "Wednesday"; "Thursday"; "Friday"; "Saturday";
     "Sunday"; "Today"; "Tomorrow"]%string.

(** The label begins, in any letter case, with a weekday name, "Today" or
    "Tomorrow". *)
Definition begins_with_day (label : str) : Prop :=
  exists day, In day DAY_NAMES /\ begins_with day label.

Definition starts_with (w t : str) : bool :=
  match eat_lit w t with
  | Some _ => true
  | None => false
  end.

Definition starts_with_day (label : str) : bool :=
  existsb (fun day => starts_with day label) DAY_NAMES.

(** The entry of the output an item of the channel stands for, if any:
    its label is the title without the white space around it. *)
Definition forecast_entry (item : element) : option (str * str) :=
  match find "title" item, find "description" item with
  | Some title_el, Some desc_el =>
      let label := strip (default [] (el_text title_el)) in
      if starts_with_day label
      then Some (label, default [] (el_text desc_el))
      else None
  | _, _ => None
  end.

Lemma starts_with_day_spec (label : str) :
  starts_with_day label = true <-> begins_with_day label.
Proof.
  unfold starts_with_day, begins_with_day. rewrite existsb_exists.
  split; intros (day & Hin & H); exists day; (split; [assumption|]).
  - apply eat_lit_begins. unfold starts_with in H.
    destruct (eat_lit day label); [eauto|discriminate].
  - apply eat_lit_begins in H as [rest H]. unfold starts_with. rewrite H.
    reflexivity.
Qed.

Lemma title_match (label : str) :
  found (re_match RE_FORECAST_TITLE label) = starts_with_day label.
Proof.
  unfold re_match, match_at, RE_FORECAST_TITLE, starts_with_day, DAY_NAMES,
    starts_with.
  cbn [run alts List.map existsb after].
  repeat (destruct (eat_lit _ label); [reflexivity|]). reflexivity.
Qed.

Lemma forecast_items_of_entries (items : list element) :
  forecast_items_of items = omap forecast_entry items.
Proof.
  induction items as [|item items IH]; [reflexivity|].
  simpl. unfold forecast_entry at 1.
  destruct (find "title" item) as [title_el|]; [|exact IH].
  destruct (find "description" item) as [desc_el|]; [|exact IH].
  cbv zeta. rewrite title_match.
  destruct (starts_with_day _); [rewrite IH; reflexivity|exact IH].
Qed.

(** C7: for a document with a channel, the parser returns exactly the
    items of the channel that have a title and a description and whose
    label begins, in any letter case, with a weekday name, "Today" or
    "Tomorrow", each as its label and description, in document order; the
    other items are skipped. *)
Theorem C7_feed_parser_filter (root : element) :
  match find "channel" root with
  | Some channel =>
      exists pub_date,
        _parse_rss_xml (Document root)
        = Returns (pub_date, omap forecast_entry (findall "item" channel))
  | None => _parse_rss_xml (Document root) = Raises (Exn ValueError NO_CHANNEL)
  end
  /\ forall item label desc,
       forecast_entry item = Some (label, desc)
       <-> exists title_el desc_el,
             find "title" item = Some title_el
             /\ find "description" item = Some desc_el
             /\ label = strip (default [] (el_text title_el))
             /\ desc = default [] (el_text desc_el)
             /\ begins_with_day label.
Proof.
  split.
  - unfold _parse_rss_xml. destruct (find "channel" root) as [channel|];
      [|reflexivity].
    eexists. rewrite forecast_items_of_entries. reflexivity.
  - intros item label desc. unfold forecast_entry.
    destruct (find "title" item) as [title_el|].
    + destruct (find "description" item) as [desc_el|].
      * cbv zeta.
        destruct (starts_with_day (strip (default [] (el_text title_el)))) eqn:Hd.
        -- split.
           ++ intros [= <- <-]. exists title_el, desc_el.
              repeat split. apply starts_with_day_spec, Hd.
           ++ intros (t & d & [= <-] & [= <-] & -> & -> & _). reflexivity.
        -- split; [discriminate|].
           intros (t & d & [= <-] & [= <-] & -> & _ & H).
           apply starts_with_day_spec in H. congruence.
      * split; [discriminate|]. intros (t & d & _ & H & _). discriminate H.
    + split; [discriminate|]. intros (t & d & H & _). discriminate H.
Qed.

(** ** Ban flag *)

(** [pre] ends with a spelling of [w]. *)
Definition ends_with (w pre : str) : Prop :=
  exists pre' suf, pre = pre' ++ suf /\ spells w suf.

(** What may stand on the left of a district name in the district list:
    for "Central", anything but "North "; for any other name, the start
    of the list or a character that is not of a word. *)
Definition left_boundary (district_name pre : str) : Prop :=
  if str_eqb district_name (codes "Central")
  then ~ ends_with (codes "North ") pre
  else match rev pre with
       | x :: _ => is_word x = false
       | [] => True
       end.

(** The district list names the district: it spells the name somewhere,
    with the boundary of the name on the left. *)
Definition listed (district_name district_list_text : str) : Prop :=
  exists pre mid post,
    district_list_text = pre ++ mid ++ post
    /\ spells district_name mid /\ left_boundary district_name pre.

Lemma spells_rev (w t : str) : spells w t -> spells (rev w) (rev t).
Proof.
  unfold spells. induction 1 as [|p c w t Hpc H IH]; simpl.
  - constructor.
  - apply Forall2_app; [exact IH|]. constructor; [exact Hpc|constructor].
Qed.

Lemma starts_with_rev (w pre : str) :
  starts_with (rev w) (rev pre) = true <-> ends_with w pre.
Proof.
  unfold starts_with, ends_with. split.
  - destruct (eat_lit (rev w) (rev pre)) as [rest|] eqn:He; [|discriminate].
    intros _. apply eat_lit_spec in He as (p & Hp & Hs).
    exists (rev rest), (rev p). split.
    + rewrite <- rev_app_distr, <- Hp, rev_involutive. reflexivity.
    + apply spells_rev in Hs. rewrite rev_involutive in Hs. exact Hs.
  - intros (pre' & suf & -> & Hs).
    assert (He : eat_lit (rev w) (rev (pre' ++ suf)) = Some (rev pre')).
    { apply eat_lit_spec. exists (rev suf). split.
      - apply rev_app_distr.
      - apply spells_rev, Hs. }
    rewrite He. reflexivity.
Qed.

Lemma search_from_iff (r : regex) (a b : str) :
  found (search_from r b a) = true
  <-> exists a1 a2, a = a1 ++ a2
                    /\ found (match_at r (Cursor (rev a1 ++ b) a2)) = true.
Proof.
  revert b. induction a as [|x a IH]; intros b; simpl.
  - destruct (match_at r (Cursor b [])) eqn:Hm; simpl.
    + split; [intros _|reflexivity]. exists [], []. simpl. rewrite Hm. auto.
    + split; [discriminate|]. intros (a1 & a2 & Ha & H).
      symmetry in Ha. apply app_eq_nil in Ha as [-> ->].
      simpl in H. rewrite Hm in H. exact H.
  - destruct (match_at r (Cursor b (x :: a))) eqn:Hm.
    + split; [intros _|reflexivity]. exists [], (x :: a). simpl.
      rewrite Hm. auto.
    + rewrite IH. split.
      * intros (a1 & a2 & -> & H). exists (x :: a1), a2. simpl.
        rewrite <- app_assoc. auto.
      * intros (a1 & a2 & Ha & H). destruct a1 as [|y a1].
        -- simpl in Ha, H. subst a2. rewrite Hm in H. discriminate H.
        -- injection Ha as <- ->. exists a1, a2. simpl in H.
           rewrite <- app_assoc in H. auto.
Qed.

Lemma district_match (district_name : str) (c : cursor) :
  found (match_at (_build_district_tfb_pattern district_name) c)
  = (if str_eqb district_name (codes "Central")
     then negb (starts_with (rev (codes "North ")) (before c))
     else match before c with
          | x :: _ => negb (is_word x)
          | [] => true
          end)
    && starts_with district_name (after c).
Proof.
  unfold _build_district_tfb_pattern, match_at, starts_with.
  destruct (str_eqb district_name (codes "Central")); cbn [run].
  - destruct (eat_lit (rev (codes "North ")) (before c)); [reflexivity|].
    destruct (eat_lit district_name (after c)); reflexivity.
  - destruct (before c) as [|x b'].
    + destruct (eat_lit district_name (after c)); reflexivity.
    + destruct (is_word x); [reflexivity|].
      destruct (eat_lit district_name (after c)); reflexivity.
Qed.

(** The search for a district in the district list finds it exactly when
    the list names it. *)
Lemma district_search (district_name district_list_text : str) :
  found (re_search (_build_district_tfb_pattern district_name)
           district_list_text) = true
  <-> listed district_name district_list_text.
Proof.
  unfold re_search, listed. rewrite search_from_iff. split.
  - intros (pre & a2 & -> & H). rewrite district_match in H.
    apply andb_prop in H as [Hb Hs]. cbn [before after] in Hb, Hs.
    rewrite app_nil_r in Hb. unfold starts_with in Hs.
    destruct (eat_lit district_name a2) as [post|] eqn:He; [|discriminate].
    apply eat_lit_spec in He as (mid & -> & Hmid).
    exists pre, mid, post. split; [reflexivity|]. split; [exact Hmid|].
    unfold left_boundary.
    destruct (str_eqb district_name (codes "Central")).
    + intros He. apply starts_with_rev in He. rewrite He in Hb. discriminate Hb.
    + destruct (rev pre) as [|x b']; [exact I|].
      destruct (is_word x); [discriminate Hb|reflexivity].
  - intros (pre & mid & post & -> & Hmid & Hb).
    exists pre, (mid ++ post). split; [reflexivity|].
    rewrite district_match. cbn [before after]. rewrite app_nil_r.
    apply andb_true_intro. split.
    + unfold left_boundary in Hb.
      destruct (str_eqb district_name (codes "Central")).
      * destruct (starts_with (rev (codes "North ")) (rev pre)) eqn:He;
          [|reflexivity].
        apply starts_with_rev in He. contradiction.
      * destruct (rev pre) as [|x b']; [reflexivity|]. rewrite Hb. reflexivity.
    + unfold starts_with.
      assert (He : eat_lit district_name (mid ++ post) = Some post)
        by (apply eat_lit_spec; eauto).
      rewrite He. reflexivity.
Qed.

(** A Total Fire Ban declaration is in the text. *)
Definition declaration_present (text : str) : bool :=
  found (re_search RE_TFB_DECLARED text) || found (re_search RE_TFB_IS text).

(** The district-list substring of the text, when it can be located. *)
Definition district_list (text : str) : option str :=
  match re_search RE_TFB_DISTRICT_LIST text with
  | Some m => Some (m_group 1 m)
  | None => None
  end.

Definition BAN_NOTICE : str :=
  codes "Today has been declared a day of Total Fire Ban in the North Central and Mallee district(s) of Victoria.".

(* The theorem on the ban flag comes with the account of the district
   list, in the section of that name. *)

(** ** Record consistency *)

Definition DOTTED_HIGH : str := codes "Central: H" ++ [DOTTED_I] ++ codes "GH".

(** C9, at the failing input: in every record the severity is the entry
    of the table for the rating of the record, 0 when there is none, and
    the rating is "UNKNOWN" or the upper case of a text that spells one of
    the six ratings; but that upper case need not be one of the six.  On
    "Central: HIGH" written with U+0130, the capital I with a dot, which
    [re.IGNORECASE] takes for an I and [upper] leaves as it is, the rating
    is that spelling of HIGH, which is no rating of the vocabulary, and
    the severity is 0. *)
Theorem C9_rating_outside_vocabulary (text district_name : str) :
  severity (parse_text text district_name)
  = dict_get RATING_SEVERITY (rating (parse_text text district_name)) 0%Z
  /\ (rating (parse_text text district_name) = UNKNOWN
      \/ exists w t, In w FIRE_DANGER_RATINGS /\ spells w t
                     /\ rating (parse_text text district_name) = upper t)
  /\ rating (parse_text DOTTED_HIGH (codes "Central"))
     = [72; DOTTED_I; 71; 72]
  /\ rating (parse_text DOTTED_HIGH (codes "Central")) <> UNKNOWN
  /\ ~ In (rating (parse_text DOTTED_HIGH (codes "Central"))) FIRE_DANGER_RATINGS
  /\ severity (parse_text DOTTED_HIGH (codes "Central")) = 0%Z.
Proof.
  split; [reflexivity|].
  split; [exact (rating_shape text district_name)|].
  assert (H : rating (parse_text DOTTED_HIGH (codes "Central"))
              = [72; DOTTED_I; 71; 72]) by (vm_compute; reflexivity).
  split; [exact H|]. split; [|split].
  - rewrite H. discriminate.
  - rewrite H. cbv. intuition discriminate.
  - change (severity (parse_text DOTTED_HIGH (codes "Central")))
      with (dict_get RATING_SEVERITY
              (rating (parse_text DOTTED_HIGH (codes "Central"))) 0%Z).
    rewrite H. reflexivity.
Qed.

(** ** The combined strategy on a fetched feed *)

(** C4 (as amended): on a feed that was fetched and parsed, the combined
    strategy raises when the entry list is empty, and raises when at least
    one region is tracked and every tracked region is UNKNOWN on every
    entry; otherwise it returns a result that covers exactly the tracked
    regions, each with one forecast per entry, in entry order.  With no
    region tracked it returns the empty result. *)
Theorem C4_combined_validation (net : session) (district_slugs : gset str)
    (raw : xml) (pub_date : option str) (forecast_items : list (str * str)) :
  net CFA_COMBINED_RSS_URL = Http 200 raw ->
  _parse_rss_xml raw = Returns (pub_date, forecast_items) ->
  match _fetch_combined_feed net district_slugs with
  | Raises e =>
      (forecast_items = [] /\ e = NO_ITEMS)
      \/ (forecast_items <> [] /\ district_slugs <> ∅
          /\ all_days_unknown district_slugs forecast_items = true
          /\ e = ALL_UNKNOWN)
  | Returns result =>
      forecast_items <> []
      /\ (district_slugs = ∅
          \/ all_days_unknown district_slugs forecast_items = false)
      /\ covers pub_date district_slugs result forecast_items
  end.
Proof.
  intros Hnet Hparse. unfold _fetch_combined_feed.
  rewrite Hnet. simpl negb. cbv iota. rewrite Hparse.
  apply combined_result_spec.
Qed.

(** ** The worked inputs, whatever the tables *)

Lemma no_region_returns_empty :
  _fetch_combined_feed all_up ∅ = Returns ∅.
Proof. vm_compute. reflexivity. Qed.

Lemma combined_down_cycle :
  let step := _async_update_data tracking_central combined_down in
  attempted_combined step.2 = true
  /\ is_raises (_fetch_combined_feed combined_down
                  (_district_slugs tracking_central)) = true
  /\ is_raises (returned step.2) = false
  /\ _last_error step.1 = None
  /\ _failed_districts step.1 = [].
Proof. vm_compute. repeat split; reflexivity. Qed.

Lemma combined_down_13_cycles :
  List.map attempted_combined
    (run_cycles tracking_central (repeat combined_down 13)).2
  = [true; true; true; false; false; false; false; false; false; true;
     false; false; false].
Proof. vm_compute. reflexivity. Qed.

(** Three regions of which one fails: the two snapshots and the failed id. *)
Lemma three_regions_one_down :
  match _fetch_individual_feeds mallee_down THREE_REGIONS with
  | Returns (result, errors) =>
      dom result = {[codes "central"; codes "wimmera"]}
      /\ errors = [codes "mallee"]
  | Raises _ => False
  end.
Proof. vm_compute. split; reflexivity. Qed.

Definition NOT_TODAY_BUT_TOMORROW : str :=
  codes "Today is not currently a day of Total Fire Ban. Tomorrow has been declared a day of Total Fire Ban in the Mallee district.".
Definition STATEWIDE_AND_LIST : str :=
  codes "A statewide ban applies. Today has been declared a day of Total Fire Ban in the Mallee district.".

Lemma ban_precedence :
  (declaration_present NOT_TODAY_BUT_TOMORROW = true
   /\ district_list NOT_TODAY_BUT_TOMORROW = Some (codes "Mallee ")
   /\ found (re_search (_build_district_tfb_pattern (codes "Mallee"))
               (codes "Mallee ")) = true
   /\ total_fire_ban (parse_text NOT_TODAY_BUT_TOMORROW (codes "Mallee")) = false)
  /\ (declaration_present STATEWIDE_AND_LIST = true
      /\ district_list STATEWIDE_AND_LIST = Some (codes "Mallee ")
      /\ found (re_search (_build_district_tfb_pattern (codes "Central"))
                  (codes "Mallee ")) = false
      /\ total_fire_ban (parse_text STATEWIDE_AND_LIST (codes "Central")) = true).
Proof. vm_compute. repeat split; reflexivity. Qed.

(** * Further properties *)

(** ** The coordinator over its lifetime *)

(** What happens to a coordinator: a district is registered or
    unregistered, or a refresh runs against the network of its time. *)
Inductive event :=
| Add (slug : str)
| Remove (slug : str)
| Refresh (net : session).

Definition handle (self : Coordinator) (e : event) : Coordinator :=
  match e with
  | Add slug => add_district slug self
  | Remove slug => remove_district slug self
  | Refresh net => (_async_update_data self net).1
  end.

(** The coordinator after a history of events, from its construction. *)
Definition state_after (events : list event) : Coordinator :=
  foldl handle init events.

Definition KNOWN_SOURCES : list str :=
  [codes "none"; codes "combined"; codes "individual"].

Definition consistent (self : Coordinator) : Prop :=
  (_last_error self = None <-> _failed_districts self = [])
  /\ (_fallback_active self = true -> (3 <= _combined_fail_count self)%Z)
  /\ (0 <= _combined_fail_count self <= _cycle_count self)%Z
  /\ In (_last_source self) KNOWN_SOURCES.

Lemma last_source_after (self : Coordinator) (net : session) :
  In (_last_source self) KNOWN_SOURCES ->
  In (_last_source (_async_update_data self net).1) KNOWN_SOURCES.
Proof.
  intros Hs. destruct (decide (_district_slugs self = ∅)) as [He|Hne].
  { unfold _async_update_data. rewrite bool_decide_eq_true_2 by assumption.
    exact Hs. }
  rewrite (update_cases self net Hne). cbv zeta.
  assert (Hind : forall s, In (_last_source s) KNOWN_SOURCES ->
                 In (_last_source (attempt_individual s net).1) KNOWN_SOURCES).
  { intros s H. unfold attempt_individual.
    destruct (_fetch_individual_feeds net (_district_slugs s)) as [[r f]|err].
    - simpl. auto.
    - destruct (exn_cls err); exact H. }
  destruct (combined_due self).
  - destruct (_fetch_combined_feed net (_district_slugs self)).
    + simpl. auto.
    + cbn [fst]. apply Hind. exact Hs.
  - cbn [fst]. apply Hind. exact Hs.
Qed.

Lemma error_iff_failed_after (self : Coordinator) (net : session) :
  _district_slugs self <> ∅ ->
  _last_error (_async_update_data self net).1 = None
  <-> _failed_districts (_async_update_data self net).1 = [].
Proof.
  intros Hne.
  assert (Hind : forall s, _district_slugs s = _district_slugs self ->
                 _last_error (attempt_individual s net).1 = None
                 <-> _failed_districts (attempt_individual s net).1 = []).
  { intros s Hs. pose proof (attempt_individual_records s net) as H.
    destruct (_fetch_individual_feeds net (_district_slugs s)) as [[r f]|err].
    - destruct H as (_ & -> & ->). destruct f; split; congruence.
    - destruct H as (_ & -> & ->). rewrite Hs. split; [discriminate|].
      intros H. apply elements_empty_inv in H.
      apply leibniz_equiv in H. contradiction. }
  rewrite (update_cases self net Hne). cbv zeta.
  destruct (combined_due self).
  - destruct (_fetch_combined_feed net (_district_slugs self)).
    + simpl. split; reflexivity.
    + cbn [fst]. apply Hind. reflexivity.
  - cbn [fst]. apply Hind. reflexivity.
Qed.

Lemma consistent_refresh (self : Coordinator) (net : session) :
  consistent self -> consistent (_async_update_data self net).1.
Proof.
  intros (He & Hf & Hc & Hs).
  destruct (decide (_district_slugs self = ∅)) as [Hn|Hne].
  { unfold _async_update_data. rewrite bool_decide_eq_true_2 by assumption.
    repeat split; try assumption; apply He || apply Hc. }
  destruct (update_step self net Hne) as (_ & Hcy & _ & Hn & Hfb & _).
  split; [exact (error_iff_failed_after self net Hne)|].
  split; [|split; [|exact (last_source_after self net Hs)]].
  - rewrite Hfb, Hn. change _COMBINED_FAIL_THRESHOLD with 3%Z.
    destruct (combined_due self);
      destruct (is_raises (_fetch_combined_feed net (_district_slugs self)));
      simpl; try discriminate;
      destruct (Z.leb_spec 3 (_combined_fail_count self)); intros; try discriminate; lia.
  - rewrite Hn, Hcy.
    destruct (combined_due self);
      [destruct (is_raises (_fetch_combined_feed net (_district_slugs self)))|];
      lia.
Qed.

(** X1: whatever the history of a coordinator, a last error is on record
    exactly when some district is listed as failed; the fallback flag is
    up only with 3 or more consecutive combined failures on record; the
    failure count is between 0 and the cycle count; and the last source is
    "none", "combined" or "individual". *)
Theorem coordinator_consistent (events : list event) :
  consistent (state_after events).
Proof.
  unfold state_after.
  induction events as [|e events IH] using rev_ind.
  - repeat split; simpl; auto; try discriminate; lia.
  - rewrite foldl_app. simpl.
    destruct e as [slug|slug|net]; [exact IH|exact IH|].
    apply consistent_refresh, IH.
Qed.

(** ** What a cycle returns *)

(** What the individual strategy returns, by the fetch of each region. *)
Lemma individual_feeds_cases (net : session) (district_slugs : gset str) :
  match _fetch_individual_feeds net district_slugs with
  | Returns (result, errors) =>
      (forall slug,
         result !! slug
         = if bool_decide (slug ∈ district_slugs)
           then match _fetch_individual_feed net slug with
                | Returns res => Some res
                | Raises _ => None
                end
           else None)
      /\ errors = List.filter (fun slug => is_raises (_fetch_individual_feed net slug))
                    (elements district_slugs)
      /\ result <> ∅
  | Raises e =>
      (forall slug, slug ∈ district_slugs ->
                    is_raises (_fetch_individual_feed net slug) = true)
      /\ e = Exn UpdateFailed
               (codes "All individual district feeds failed: "
                ++ join (codes ", ") (elements district_slugs))
  end.
Proof.
  unfold _fetch_individual_feeds.
  change (fun slug : str => (slug, _fetch_individual_feed net slug))
    with (fun slug : str => (slug, fetched net slug)).
  rewrite collect_tasks. simpl app.
  assert (Hlook : forall slug,
            foldl (keep net) ∅ (elements district_slugs) !! slug
            = if bool_decide (slug ∈ district_slugs)
              then match _fetch_individual_feed net slug with
                   | Returns res => Some res
                   | Raises _ => None
                   end
              else None).
  { intros slug. rewrite lookup_foldl_keep, lookup_empty.
    rewrite (bool_decide_ext _ (slug ∈ district_slugs)) by apply elem_of_elements.
    unfold fetched. destruct (bool_decide _); [|reflexivity].
    destruct (_fetch_individual_feed net slug); reflexivity. }
  case_bool_decide as Hempty.
  - assert (Hall : forall slug, slug ∈ district_slugs ->
                     is_raises (_fetch_individual_feed net slug) = true).
    { intros slug Hin. pose proof (Hlook slug) as H.
      rewrite Hempty, lookup_empty, bool_decide_eq_true_2 in H by assumption.
      destruct (_fetch_individual_feed net slug); [discriminate|reflexivity]. }
    split; [exact Hall|].
    assert (Hf : List.filter (fun slug => is_raises (fetched net slug))
                   (elements district_slugs) = elements district_slugs).
    { apply forallb_filter_id, forallb_forall.
      intros slug Hin. apply Hall, elem_of_elements, list_elem_of_In, Hin. }
    rewrite Hf. reflexivity.
  - split; [exact Hlook|]. split; [reflexivity|exact Hempty].
Qed.

(** What the combined strategy went through when it returns. *)
Lemma combined_returns (net : session) (district_slugs : gset str)
    (result : gmap str Snapshot) :
  _fetch_combined_feed net district_slugs = Returns result ->
  exists raw pub items,
    net CFA_COMBINED_RSS_URL = Http 200 raw
    /\ _parse_rss_xml raw = Returns (pub, items)
    /\ items <> []
    /\ (district_slugs = ∅ \/ all_days_unknown district_slugs items = false)
    /\ covers pub district_slugs result items.
Proof.
  unfold _fetch_combined_feed.
  destruct (net CFA_COMBINED_RSS_URL) as [e|status raw] eqn:Hnet; [discriminate|].
  destruct (Z.eqb_spec status 200) as [->|Hs]; simpl negb; cbv iota;
    [|discriminate].
  destruct (_parse_rss_xml raw) as [[pub items]|err] eqn:Hp; [|discriminate].
  intros Hr. pose proof (combined_result_spec pub district_slugs items) as H.
  rewrite Hr in H. destruct H as (H1 & H2 & H3).
  exists raw, pub, items. auto.
Qed.

Lemma covers_nonempty (pub : option str) (district_slugs : gset str)
    (result : gmap str Snapshot) (items : list (str * str)) :
  covers pub district_slugs result items -> district_slugs <> ∅ -> result <> ∅.
Proof.
  intros Hc Hne Hr. apply set_choose_L in Hne as [slug Hin].
  pose proof (Hc slug) as H. rewrite Hr, lookup_empty in H.
  rewrite bool_decide_eq_true_2 in H by assumption. discriminate H.
Qed.

(** X2: a cycle that tracks a region raises exactly when the individual fetch
    of every tracked region fails and the combined feed was not attempted
    or failed too.  What it raises is the [UpdateFailed] of the individual
    strategy, which names every tracked region; its message is the last
    error, every tracked region is listed as failed, and the last source
    stays what it was. *)
Theorem cycle_raises_iff_all_fail (self : Coordinator) (net : session) :
  _district_slugs self <> ∅ ->
  let self' := (_async_update_data self net).1 in
  let c := (_async_update_data self net).2 in
  let slugs := _district_slugs self in
  (is_raises (returned c) = true
   <-> (combined_due self = false
        \/ is_raises (_fetch_combined_feed net slugs) = true)
       /\ forall slug, slug ∈ slugs ->
                       is_raises (_fetch_individual_feed net slug) = true)
  /\ forall e, returned c = Raises e ->
       e = Exn UpdateFailed
             (codes "All individual district feeds failed: "
              ++ join (codes ", ") (elements slugs))
       /\ _last_error self' = Some (exn_msg e)
       /\ _failed_districts self' = elements slugs
       /\ _last_source self' = _last_source self.
Proof.
  intros Hne self' c slugs. subst self' c slugs.
  assert (Hind : forall s, _district_slugs s = _district_slugs self ->
            (is_raises (attempt_individual s net).2 = true
             <-> forall slug, slug ∈ _district_slugs self ->
                   is_raises (_fetch_individual_feed net slug) = true)
            /\ forall e, (attempt_individual s net).2 = Raises e ->
                 e = Exn UpdateFailed
                       (codes "All individual district feeds failed: "
                        ++ join (codes ", ") (elements (_district_slugs self)))
                 /\ _last_error (attempt_individual s net).1 = Some (exn_msg e)
                 /\ _failed_districts (attempt_individual s net).1
                    = elements (_district_slugs self)
                 /\ _last_source (attempt_individual s net).1 = _last_source s).
  { intros s Hs. unfold attempt_individual. rewrite Hs.
    pose proof (individual_feeds_cases net (_district_slugs self)) as H.
    destruct (_fetch_individual_feeds net (_district_slugs self))
      as [[r f]|err].
    - destruct H as (Hl & _ & Hr). simpl. split; [split|].
      + discriminate.
      + intros Hall. exfalso. apply Hr. apply map_eq. intros slug.
        rewrite Hl, lookup_empty. case_bool_decide as Hin; [|reflexivity].
        specialize (Hall slug Hin).
        destruct (_fetch_individual_feed net slug); [discriminate|reflexivity].
      + intros e He. discriminate He.
    - destruct H as (Hall & ->). simpl. split; [split; auto|].
      intros e [= <-]. simpl. auto. }
  rewrite (update_cases self net Hne). cbv zeta.
  destruct (combined_due self).
  - destruct (_fetch_combined_feed net (_district_slugs self)) as [r|err];
      cbn [fst snd returned].
    + split.
      * split; [discriminate|]. intros [[H|H] _]; discriminate H.
      * intros e He. discriminate He.
    + match goal with
      | |- context [attempt_individual ?s net] =>
          destruct (Hind s eq_refl) as [Hiff Hexn]
      end.
      split; [|exact Hexn].
      rewrite Hiff. split; [intros H; split; [right; reflexivity|exact H]|].
      intros [_ H]. exact H.
  - cbn [fst snd returned].
    destruct (Hind (begin_cycle self).1 eq_refl) as [Hiff Hexn].
    split; [|exact Hexn].
    rewrite Hiff. split; [intros H; split; [left; reflexivity|exact H]|].
    intros [_ H]. exact H.
Qed.

(** X3: when a cycle that tracks a region returns, the result is not empty
    and every tracked region is either in the result or in the list of
    failed districts, never in both; nothing else is in either. *)
Theorem cycle_result_partition (self : Coordinator) (net : session)
    (result : gmap str Snapshot) :
  _district_slugs self <> ∅ ->
  returned (_async_update_data self net).2 = Returns result ->
  let failed := _failed_districts (_async_update_data self net).1 in
  result <> ∅
  /\ forall slug,
       (slug ∈ _district_slugs self <-> is_Some (result !! slug) \/ slug ∈ failed)
       /\ ~ (is_Some (result !! slug) /\ slug ∈ failed).
Proof.
  intros Hne. rewrite (update_cases self net Hne). cbv zeta.
  assert (Hind : forall s, _district_slugs s = _district_slugs self ->
            (attempt_individual s net).2 = Returns result ->
            result <> ∅
            /\ forall slug,
                 (slug ∈ _district_slugs self
                  <-> is_Some (result !! slug)
                      \/ slug ∈ _failed_districts (attempt_individual s net).1)
                 /\ ~ (is_Some (result !! slug)
                       /\ slug ∈ _failed_districts (attempt_individual s net).1)).
  { intros s Hs. unfold attempt_individual. rewrite Hs.
    pose proof (individual_feeds_cases net (_district_slugs self)) as H.
    destruct (_fetch_individual_feeds net (_district_slugs self))
      as [[r f]|err].
    - destruct H as (Hl & -> & Hr). simpl. intros [= ->].
      split; [exact Hr|]. intros slug. rewrite Hl.
      rewrite list_elem_of_In, filter_In, <- list_elem_of_In, elem_of_elements.
      case_bool_decide as Hin.
      + destruct (_fetch_individual_feed net slug) as [res|e]; simpl; split.
        * split; [intros _; left; eauto|auto].
        * intros [_ [_ H]]. discriminate H.
        * split; [auto|intros _; assumption].
        * intros [[x H] _]. discriminate H.
      + split.
        * split; [contradiction|]. intros [[x H]|[H _]];
            [discriminate H|contradiction].
        * intros [[x H] _]. discriminate H.
    - destruct (exn_cls err); simpl; discriminate. }
  destruct (combined_due self).
  - destruct (_fetch_combined_feed net (_district_slugs self)) as [r|err] eqn:Hc;
      cbn [fst snd returned _failed_districts].
    + intros [= ->].
      apply combined_returns in Hc as (raw & pub & items & _ & _ & _ & _ & Hcov).
      split; [exact (covers_nonempty _ _ _ _ Hcov Hne)|].
      intros slug. rewrite (Hcov slug). case_bool_decide as Hin; split.
      * split; [intros _; left; eauto|auto].
      * intros [_ H]. apply elem_of_nil in H. exact H.
      * split; [contradiction|]. intros [[x H]|H]; [discriminate H|].
        apply elem_of_nil in H. contradiction.
      * intros [[x H] _]. discriminate H.
    + match goal with
      | |- context [attempt_individual ?s net] => exact (Hind s eq_refl)
      end.
  - cbn [fst snd returned]. exact (Hind (begin_cycle self).1 eq_refl).
Qed.

(** ** The requests of a cycle *)

Lemma CFA_RSS_URL_inj (a b : str) : CFA_RSS_URL a = CFA_RSS_URL b -> a = b.
Proof.
  unfold CFA_RSS_URL. intros H.
  apply app_inv_head in H. apply app_inv_tail in H. exact H.
Qed.

Lemma individual_urls_NoDup (self : Coordinator) : NoDup (individual_urls self).
Proof.
  unfold individual_urls.
  pose proof (NoDup_elements (_district_slugs self)) as Hnd.
  induction Hnd as [|slug l Hnin Hnd IH]; simpl.
  - constructor.
  - constructor; [|exact IH].
    rewrite list_elem_of_In, in_map_iff. intros (x & Hx & Hin).
    apply CFA_RSS_URL_inj in Hx. subst x.
    apply Hnin, list_elem_of_In, Hin.
Qed.

Lemma individual_urls_length (self : Coordinator) :
  length (individual_urls self) = size (_district_slugs self).
Proof. unfold individual_urls. rewrite length_map. reflexivity. Qed.

(** What a fetch reads of the network: the response to its own URL. *)
Lemma combined_feed_reads (net net' : session) (district_slugs : gset str) :
  net' CFA_COMBINED_RSS_URL = net CFA_COMBINED_RSS_URL ->
  _fetch_combined_feed net' district_slugs
  = _fetch_combined_feed net district_slugs.
Proof. unfold _fetch_combined_feed. intros ->. reflexivity. Qed.

Lemma individual_feed_reads (net net' : session) (slug : str) :
  net' (CFA_RSS_URL slug) = net (CFA_RSS_URL slug) ->
  _fetch_individual_feed net' slug = _fetch_individual_feed net slug.
Proof. unfold _fetch_individual_feed. cbv zeta. intros ->. reflexivity. Qed.

Lemma individual_feeds_read (net net' : session) (district_slugs : gset str) :
  (forall slug, slug ∈ district_slugs ->
                net' (CFA_RSS_URL slug) = net (CFA_RSS_URL slug)) ->
  _fetch_individual_feeds net' district_slugs
  = _fetch_individual_feeds net district_slugs.
Proof.
  intros H. unfold _fetch_individual_feeds.
  assert (Ht : List.map (fun slug => (slug, _fetch_individual_feed net' slug))
                 (elements district_slugs)
               = List.map (fun slug => (slug, _fetch_individual_feed net slug))
                   (elements district_slugs)).
  { apply map_ext_in. intros slug Hin. f_equal. apply individual_feed_reads.
    apply H, elem_of_elements, list_elem_of_In, Hin. }
  rewrite Ht. reflexivity.
Qed.

Lemma attempt_individual_reads (self : Coordinator) (net net' : session) :
  (forall url, url ∈ individual_urls self -> net' url = net url) ->
  attempt_individual self net' = attempt_individual self net.
Proof.
  intros H. unfold attempt_individual.
  rewrite (individual_feeds_read net net' (_district_slugs self));
    [reflexivity|].
  intros slug Hin. apply H. unfold individual_urls.
  apply list_elem_of_In, in_map, list_elem_of_In, elem_of_elements. exact Hin.
Qed.

(** X4: a cycle reads the network at no URL outside its list of requests:
    on a network that answers these URLs alike, the cycle is the same,
    state, result or error, and list.  The list has no URL twice and
    nothing but the combined feed and the feeds of the tracked districts,
    so that at most one response more than there are districts bears on
    a cycle: one response alone when the combined feed is attempted and
    answers, and none when no district is tracked. *)
Theorem cycle_requests (self : Coordinator) (net net' : session) :
  let c := (_async_update_data self net).2 in
  let slugs := _district_slugs self in
  ((forall url, url ∈ requested c -> net' url = net url) ->
   _async_update_data self net' = _async_update_data self net)
  /\ NoDup (requested c)
  /\ (length (requested c) <= 1 + size slugs)%nat
  /\ (forall url, url ∈ requested c ->
        url = CFA_COMBINED_RSS_URL
        \/ exists slug, slug ∈ slugs /\ url = CFA_RSS_URL slug)
  /\ (slugs = ∅ -> requested c = [])
  /\ (slugs <> ∅ -> combined_due self = true ->
      is_raises (_fetch_combined_feed net slugs) = false ->
      requested c = [CFA_COMBINED_RSS_URL]).
Proof.
  intros c slugs. subst c slugs.
  assert (Hurl : forall url, url ∈ individual_urls self ->
            exists slug, slug ∈ _district_slugs self /\ url = CFA_RSS_URL slug).
  { intros url. unfold individual_urls. rewrite list_elem_of_In, in_map_iff.
    intros (slug & <- & Hin). exists slug. split; [|reflexivity].
    apply elem_of_elements, list_elem_of_In, Hin. }
  destruct (decide (_district_slugs self = ∅)) as [He|Hne].
  { unfold _async_update_data. rewrite bool_decide_eq_true_2 by assumption.
    simpl. split; [reflexivity|]. split; [constructor|]. split; [lia|]. split.
    - intros url H. apply elem_of_nil in H. contradiction.
    - split; [reflexivity|contradiction]. }
  rewrite (update_cases self net Hne), (update_cases self net' Hne). cbv zeta.
  destruct (combined_due self).
  - destruct (_fetch_combined_feed net (_district_slugs self)) as [r|err] eqn:Ec;
      cbn [snd requested].
    + split.
      { intros H.
        rewrite (combined_feed_reads net net'), Ec; [reflexivity|].
        apply H. left. }
      split; [repeat constructor; apply not_elem_of_nil|].
      split; [simpl; lia|]. split.
      * intros url H. apply list_elem_of_singleton in H. auto.
      * split; [contradiction|reflexivity].
    + split.
      { intros H.
        rewrite (combined_feed_reads net net'), Ec by (apply H; left).
        rewrite (attempt_individual_reads _ net net'); [reflexivity|].
        intros url Hin. apply H. right. exact Hin. }
      split; [constructor;
              [apply combined_url_not_requested|apply individual_urls_NoDup]|].
      split; [simpl; rewrite individual_urls_length; lia|]. split.
      * intros url H. apply elem_of_cons in H as [->|H]; [auto|right; auto].
      * split; [contradiction|]. intros _ _ H. discriminate H.
  - cbn [snd requested]. split.
    { intros H. rewrite (attempt_individual_reads _ net net'); [reflexivity|].
      intros url Hin. apply H. exact Hin. }
    split; [apply individual_urls_NoDup|].
    split; [rewrite individual_urls_length; lia|]. split.
    + intros url H. right. auto.
    + split; [contradiction|]. intros _ H. discriminate H.
Qed.

(** ** Recovery *)

(** The state a successful combined attempt leaves. *)
Definition recovered (self : Coordinator) : Prop :=
  _combined_fail_count self = 0%Z /\ _fallback_active self = false
  /\ _last_source self = codes "combined" /\ _last_error self = None
  /\ _failed_districts self = [].

Lemma up_step_recovers (self : Coordinator) (net : session) :
  _district_slugs self <> ∅ -> combined_due self = true ->
  is_raises (_fetch_combined_feed net (_district_slugs self)) = false ->
  recovered (_async_update_data self net).1.
Proof.
  intros Hne Hdue Hup. rewrite (update_cases self net Hne). cbv zeta.
  rewrite Hdue.
  destruct (_fetch_combined_feed net (_district_slugs self));
    [|discriminate Hup].
  repeat split.
Qed.

Lemma recovered_due (self : Coordinator) : recovered self -> combined_due self = true.
Proof. intros (H & _). unfold combined_due. rewrite H. reflexivity. Qed.

Lemma run_cycles_final (self : Coordinator) (net : session) (nets : list session) :
  (run_cycles self (net :: nets)).1
  = (run_cycles (_async_update_data self net).1 nets).1.
Proof. rewrite run_cycles_cons. reflexivity. Qed.

Lemma recovered_stays (nets : list session) (self : Coordinator) :
  _district_slugs self <> ∅ ->
  Forall (fun net =>
            is_raises (_fetch_combined_feed net (_district_slugs self)) = false)
         nets ->
  recovered self -> recovered (run_cycles self nets).1.
Proof.
  revert self. induction nets as [|net nets IH]; intros self Hne Hup Hr.
  - exact Hr.
  - apply Forall_cons in Hup as [Hnet Hup]. rewrite run_cycles_final.
    destruct (update_step self net Hne) as (Hs & _).
    apply IH.
    + rewrite Hs. exact Hne.
    + rewrite Hs. exact Hup.
    + apply up_step_recovers; [assumption|apply recovered_due, Hr|assumption].
Qed.

(** With the combined feed up, a run of cycles ends recovered unless no
    cycle of it was due. *)
Lemma up_run (nets : list session) (self : Coordinator) :
  _district_slugs self <> ∅ ->
  Forall (fun net =>
            is_raises (_fetch_combined_feed net (_district_slugs self)) = false)
         nets ->
  recovered (run_cycles self nets).1
  \/ forall j, (1 <= j <= Z.of_nat (length nets))%Z ->
               ((_cycle_count self + j) mod 10 <> 0)%Z.
Proof.
  revert self. induction nets as [|net nets IH]; intros self Hne Hup.
  - right. simpl. intros j Hj. lia.
  - apply Forall_cons in Hup as [Hnet Hup]. rewrite run_cycles_final.
    destruct (update_step self net Hne) as (Hs & Hc & _).
    destruct (combined_due self) eqn:Hdue.
    + left. apply recovered_stays.
      * rewrite Hs. exact Hne.
      * rewrite Hs. exact Hup.
      * apply up_step_recovers; assumption.
    + destruct (IH (_async_update_data self net).1) as [Hr|Hstuck].
      * rewrite Hs. exact Hne.
      * rewrite Hs. exact Hup.
      * left. exact Hr.
      * right. intros j Hj. rewrite Hc in Hstuck.
        destruct (Z.eq_dec j 1%Z) as [->|Hj1].
        -- unfold combined_due in Hdue.
           destruct (_COMBINED_FAIL_THRESHOLD <=? _combined_fail_count self)%Z;
             [|discriminate Hdue].
           apply Z.eqb_neq in Hdue. exact Hdue.
        -- replace (_cycle_count self + j)%Z
             with (_cycle_count self + 1 + (j - 1))%Z by lia.
           apply Hstuck. simpl length in Hj. lia.
Qed.

Lemma multiple_of_10_within (c : Z) :
  exists j, (1 <= j <= 10)%Z /\ ((c + j) mod 10 = 0)%Z.
Proof.
  exists (10 - c mod 10)%Z.
  pose proof (Z.mod_pos_bound c 10 ltac:(lia)) as Hb. split; [lia|].
  rewrite (Z.div_mod c 10) at 1 by lia.
  replace (10 * (c / 10) + c mod 10 + (10 - c mod 10))%Z
    with ((c / 10 + 1) * 10)%Z by lia.
  apply Z.mod_mul. lia.
Qed.

(** X5: however deep in fallback a coordinator that tracks a region is, ten
    cycles in a row during which the combined feed answers bring it back:
    the failure count is 0, the fallback flag is down, the last source is
    the combined feed and no error or failed district is on record. *)
Theorem recovery_within_10_cycles (self : Coordinator) (nets : list session) :
  _district_slugs self <> ∅ ->
  length nets = 10%nat ->
  Forall (fun net =>
            is_raises (_fetch_combined_feed net (_district_slugs self)) = false)
         nets ->
  recovered (run_cycles self nets).1.
Proof.
  intros Hne Hlen Hup.
  destruct (up_run nets self Hne Hup) as [Hr|Hstuck]; [exact Hr|].
  destruct (multiple_of_10_within (_cycle_count self)) as (j & Hj & Hmod).
  exfalso. apply (Hstuck j); [rewrite Hlen; lia|exact Hmod].
Qed.

(** ** The two strategies on one document *)

Lemma filter_none {T : Type} (f : T -> bool) (l : list T) :
  (forall x, f x = false) -> List.filter f l = [].
Proof.
  intros H. induction l as [|x l IH]; simpl; [reflexivity|].
  rewrite H. exact IH.
Qed.

Lemma individual_feed_returns (net : session) (slug : str) (raw : xml)
    (pub : option str) (items : list (str * str)) :
  net (CFA_RSS_URL slug) = Http 200 raw ->
  _parse_rss_xml raw = Returns (pub, items) ->
  _fetch_individual_feed net slug = Returns (snapshot_of pub items slug).
Proof.
  intros Hnet Hp. unfold _fetch_individual_feed. cbv zeta.
  rewrite Hnet. simpl negb. cbv iota. rewrite Hp.
  unfold snapshot_of. do 2 f_equal.
  apply map_ext. intros [t d]. reflexivity.
Qed.

(** X6: the combined strategy and the individual one make the same snapshot
    of a region from the same document: when the combined feed returns a
    result and the feed of a tracked region answers with that document,
    the individual fetch returns the snapshot the result holds for the
    region. *)
Theorem strategies_agree (net_c net_i : session) (district_slugs : gset str)
    (slug : str) (raw : xml) (result : gmap str Snapshot) :
  slug ∈ district_slugs ->
  net_c CFA_COMBINED_RSS_URL = Http 200 raw ->
  net_i (CFA_RSS_URL slug) = Http 200 raw ->
  _fetch_combined_feed net_c district_slugs = Returns result ->
  exists snap,
    result !! slug = Some snap
    /\ _fetch_individual_feed net_i slug = Returns snap.
Proof.
  intros Hin Hc Hi Hr.
  apply combined_returns in Hr as (raw' & pub & items & Hc' & Hp & _ & _ & Hcov).
  rewrite Hc in Hc'. injection Hc' as <-.
  exists (snapshot_of pub items slug). split.
  - rewrite (Hcov slug), bool_decide_eq_true_2 by assumption. reflexivity.
  - exact (individual_feed_returns net_i slug raw pub items Hi Hp).
Qed.

(** X7: what the combined strategy rejects as a feed whose structure changed,
    a parsed feed with no entry or with every tracked region UNKNOWN on
    every entry, the individual strategy takes: when every feed answers
    with such a document, the cycle returns a snapshot of it for every
    tracked region and records neither an error nor a failed district. *)
Theorem rejected_feed_returned_by_fallback (self : Coordinator) (net : session)
    (raw : xml) (pub : option str) (items : list (str * str)) :
  _district_slugs self <> ∅ ->
  (forall url, net url = Http 200 raw) ->
  _parse_rss_xml raw = Returns (pub, items) ->
  items = [] \/ all_days_unknown (_district_slugs self) items = true ->
  let self' := (_async_update_data self net).1 in
  let c := (_async_update_data self net).2 in
  (exists result,
     returned c = Returns result
     /\ covers pub (_district_slugs self) result items)
  /\ _last_error self' = None
  /\ _failed_districts self' = []
  /\ _last_source self' = codes "individual".
Proof.
  intros Hne Hnet Hp Hbad self' c. subst self' c.
  assert (Hcomb : is_raises (_fetch_combined_feed net (_district_slugs self)) = true).
  { destruct (_fetch_combined_feed net (_district_slugs self)) as [r|e] eqn:Hr;
      [|reflexivity].
    apply combined_returns in Hr as (raw' & pub' & items' & Hc' & Hp' & Hi & Hu & _).
    rewrite Hnet in Hc'. injection Hc' as <-. rewrite Hp in Hp'.
    injection Hp' as <- <-. destruct Hbad as [->|Hbad]; [congruence|].
    destruct Hu as [Hu|Hu]; [contradiction|congruence]. }
  assert (Hind : forall s, _district_slugs s = _district_slugs self ->
            (exists result,
               (attempt_individual s net).2 = Returns result
               /\ covers pub (_district_slugs self) result items)
            /\ _last_error (attempt_individual s net).1 = None
            /\ _failed_districts (attempt_individual s net).1 = []
            /\ _last_source (attempt_individual s net).1 = codes "individual").
  { intros s Hs. unfold attempt_individual. rewrite Hs.
    pose proof (individual_feeds_cases net (_district_slugs self)) as H.
    assert (Hok : forall slug,
              _fetch_individual_feed net slug = Returns (snapshot_of pub items slug))
      by (intros slug; apply (individual_feed_returns net slug raw); auto).
    destruct (_fetch_individual_feeds net (_district_slugs self))
      as [[r f]|err].
    - destruct H as (Hl & Hf & _).
      rewrite filter_none in Hf by (intros slug; rewrite Hok; reflexivity).
      subst f. simpl. split; [|auto]. exists r. split; [reflexivity|].
      intros slug. rewrite Hl, Hok. reflexivity.
    - destruct H as (Hall & _). exfalso.
      apply set_choose_L in Hne as [slug Hin].
      specialize (Hall slug Hin). rewrite Hok in Hall. discriminate Hall. }
  rewrite (update_cases self net Hne). cbv zeta.
  destruct (combined_due self).
  - destruct (_fetch_combined_feed net (_district_slugs self)) as [r|e];
      [discriminate Hcomb|].
    cbn [fst snd returned].
    match goal with
    | |- context [attempt_individual ?s net] => exact (Hind s eq_refl)
    end.
  - cbn [fst snd returned]. exact (Hind (begin_cycle self).1 eq_refl).
Qed.

(** * sensor.py *)

(** Colours matching the official AFDRS ([const.py]). *)
Definition RATING_COLOURS : list (str * str) :=
  [ (codes "NO RATING", codes "#ACACAC");
    (codes "LOW-MODERATE", codes "#8DC44D");
    (codes "MODERATE", codes "#4EA346");
    (codes "HIGH", codes "#F5C518");
    (codes "EXTREME", codes "#E55B25");
    (codes "CATASTROPHIC", codes "#CC2200") ].

(** Day labels used in entity naming and unique ids. *)
Definition DAY_LABELS : list str :=
  List.map codes ["today"; "tomorrow"; "day_3"; "day_4"]%string.

(** [coordinator.data], as the sensors read it: the result of the last
    refresh that returned, [None] before there is one. *)
Definition _get_district_data (data : option (gmap str Snapshot))
    (district_slug : str) : option Snapshot :=
  match data with
  | None => None
  | Some d => d !! district_slug
  end.

(** Safely retrieve a forecast day from coordinator data. *)
Definition _get_forecast (data : option (gmap str Snapshot))
    (district_slug : str) (index : nat) : option Forecast :=
  match _get_district_data data district_slug with
  | None => None
  | Some district_data =>
      if (index <? length (forecasts district_data))%nat
      then forecasts district_data !! index
      else None
  end.

(** [CfaFireDangerRatingSensor.native_value] *)
Definition rating_native_value (data : option (gmap str Snapshot))
    (district_slug : str) (day_index : nat) : option str :=
  match _get_forecast data district_slug day_index with
  | None => None
  | Some forecast => Some (rating forecast)
  end.

(** [CfaTotalFireBanSensor.native_value] *)
Definition tfb_native_value (data : option (gmap str Snapshot))
    (district_slug : str) (day_index : nat) : option str :=
  match _get_forecast data district_slug day_index with
  | None => None
  | Some forecast =>
      Some (if total_fire_ban forecast then codes "Yes" else codes "No")
  end.

(** [max(items, key=key)] on a non-empty sequence: the first item is
    replaced only by a later item with a greater key. *)
Fixpoint max_from {T : Type} (key : T -> Z) (best : T) (items : list T) : T :=
  match items with
  | [] => best
  | x :: rest => max_from key (if (key best <? key x)%Z then x else best) rest
  end.

(** The attributes of the max severity sensor; [None] is the empty dict. *)
Record MaxAttributes := {
  ma_severity : Z;
  ma_colour : str;
  ma_any_total_fire_ban : bool;
  ma_worst_day : option str;
  ma_forecast_days : nat;
  ma_feed_source : str
}.

(** [CfaMaxSeveritySensor.native_value] *)
Definition max_native_value (data : option (gmap str Snapshot))
    (district_slug : str) : option str :=
  match _get_district_data data district_slug with
  | None => None
  | Some district_data =>
      match forecasts district_data with
      | [] => None
      | f :: rest => Some (rating (max_from severity f rest))
      end
  end.

(** [CfaMaxSeveritySensor.extra_state_attributes] *)
Definition max_attributes (self : Coordinator)
    (data : option (gmap str Snapshot)) (district_slug : str)
  : option MaxAttributes :=
  match _get_district_data data district_slug with
  | None => None
  | Some district_data =>
      match forecasts district_data with
      | [] => None
      | f :: rest =>
          let max_forecast := max_from severity f rest in
          let any_tfb := existsb total_fire_ban (f :: rest) in
          let rating := rating max_forecast in
          Some {| ma_severity := severity max_forecast;
                  ma_colour := dict_get RATING_COLOURS rating (codes "#808080");
                  ma_any_total_fire_ban := any_tfb;
                  ma_worst_day := date_label max_forecast;
                  ma_forecast_days := length (f :: rest);
                  ma_feed_source := _last_source self |}
      end
  end.

(** [CfaFeedStatusSensor.native_value] *)
Definition feed_status (self : Coordinator) (data : option (gmap str Snapshot))
    (district_slug : str) : str :=
  match _get_district_data data district_slug with
  | None => codes "failed"
  | Some district_data =>
      match forecasts district_data with
      | [] => codes "failed"
      | _ :: _ =>
          if bool_decide (district_slug ∈ _failed_districts self)
          then codes "failed"
          else if _fallback_active self
                  || str_eqb (_last_source self) (codes "individual")
                  || negb (Nat.eqb (length (_failed_districts self)) 0)
          then codes "degraded"
          else codes "ok"
      end
  end.

(** ** The max severity sensor *)

Lemma max_from_first {T : Type} (key : T -> Z) (items : list T) (best : T) :
  exists pre post,
    best :: items = pre ++ max_from key best items :: post
    /\ (forall x, In x pre -> (key x < key (max_from key best items))%Z)
    /\ (forall x, In x post -> (key x <= key (max_from key best items))%Z).
Proof.
  revert best. induction items as [|x items IH]; intros best.
  - exists [], []. simpl. repeat split; contradiction.
  - simpl. destruct (Z.ltb_spec (key best) (key x)) as [Hlt|Hge].
    + destruct (IH x) as (pre & post & Heq & Hpre & Hpost).
      exists (best :: pre), post. rewrite Heq. split; [reflexivity|]. split.
      * intros y [<-|Hy]; [|exact (Hpre y Hy)].
        assert (Hx : (key x <= key (max_from key x items))%Z).
        { destruct pre as [|p pre].
          - injection Heq as Hx _. rewrite <- Hx. lia.
          - injection Heq as <- _. apply Z.lt_le_incl, Hpre. left. reflexivity. }
        lia.
      * exact Hpost.
    + destruct (IH best) as (pre & post & Heq & Hpre & Hpost).
      destruct pre as [|p pre].
      * simpl in Heq.
        assert (Hb : max_from key best items = best) by congruence.
        assert (Hi : items = post) by congruence.
        exists [], (x :: post). rewrite Hb, Hi. split; [reflexivity|]. split.
        -- contradiction.
        -- intros y [<-|Hy]; [lia|].
           rewrite <- Hb. exact (Hpost y Hy).
      * simpl in Heq.
        assert (Hb : best = p) by congruence.
        assert (Hi : items = pre ++ max_from key best items :: post)
          by congruence.
        subst p. exists (best :: x :: pre), post.
        rewrite Hi at 1. split; [reflexivity|]. split.
        -- intros y [<-|[<-|Hy]].
           ++ apply Hpre. left. reflexivity.
           ++ assert (H := Hpre best (or_introl eq_refl)). lia.
           ++ apply Hpre. right. exact Hy.
        -- exact Hpost.
Qed.

(** X8: the max severity sensor shows the first of the days with the highest
    severity: every earlier day is strictly less severe and no later day
    is more severe.  Its attributes are those of that day, the ban flag is
    up when any day has a ban, and the sensor has neither value nor
    attributes when the district has no data or no forecast. *)
Theorem max_sensor_first_worst_day (self : Coordinator)
    (data : option (gmap str Snapshot)) (district_slug : str) :
  match _get_district_data data district_slug with
  | Some district_data =>
      match forecasts district_data with
      | _ :: _ =>
          exists pre worst post attrs,
            forecasts district_data = pre ++ worst :: post
            /\ (forall f, In f pre -> (severity f < severity worst)%Z)
            /\ (forall f, In f post -> (severity f <= severity worst)%Z)
            /\ max_native_value data district_slug = Some (rating worst)
            /\ max_attributes self data district_slug = Some attrs
            /\ ma_severity attrs = severity worst
            /\ ma_worst_day attrs = date_label worst
            /\ ma_forecast_days attrs = length (forecasts district_data)
            /\ (ma_any_total_fire_ban attrs = true
                <-> exists f, In f (forecasts district_data)
                              /\ total_fire_ban f = true)
      | [] =>
          max_native_value data district_slug = None
          /\ max_attributes self data district_slug = None
      end
  | None =>
      max_native_value data district_slug = None
      /\ max_attributes self data district_slug = None
  end.
Proof.
  unfold max_native_value, max_attributes.
  destruct (_get_district_data data district_slug) as [dd|]; [|auto].
  destruct (forecasts dd) as [|f rest]; [auto|].
  destruct (max_from_first severity rest f) as (pre & post & Heq & Hpre & Hpost).
  eexists pre, (max_from severity f rest), post, _.
  split; [exact Heq|]. split; [exact Hpre|]. split; [exact Hpost|].
  split; [reflexivity|]. split; [reflexivity|]. cbv zeta. cbn [ma_severity
    ma_worst_day ma_forecast_days ma_any_total_fire_ban].
  repeat split; try reflexivity.
  - intros H. apply existsb_exists in H. exact H.
  - intros H. apply existsb_exists. exact H.
Qed.

(** ** The sensors after a cycle *)

(** How a cycle that returns came to its result. *)
Lemma cycle_returns (self : Coordinator) (net : session)
    (result : gmap str Snapshot) :
  returned (_async_update_data self net).2 = Returns result ->
  let self' := (_async_update_data self net).1 in
  let urls := requested (_async_update_data self net).2 in
  (_district_slugs self = ∅ /\ result = ∅)
  \/ (_district_slugs self <> ∅
      /\ _fetch_combined_feed net (_district_slugs self) = Returns result
      /\ _last_source self' = codes "combined"
      /\ _failed_districts self' = []
      /\ _fallback_active self' = false
      /\ In CFA_COMBINED_RSS_URL urls)
  \/ (_district_slugs self <> ∅
      /\ _fetch_individual_feeds net (_district_slugs self)
         = Returns (result, _failed_districts self')
      /\ _last_source self' = codes "individual"
      /\ forall url, In url (individual_urls self) -> In url urls).
Proof.
  destruct (decide (_district_slugs self = ∅)) as [He|Hne].
  { unfold _async_update_data. rewrite bool_decide_eq_true_2 by assumption.
    simpl. intros [= <-]. left. auto. }
  rewrite (update_cases self net Hne). cbv zeta.
  assert (Hind : forall s, _district_slugs s = _district_slugs self ->
            (attempt_individual s net).2 = Returns result ->
            _fetch_individual_feeds net (_district_slugs self)
            = Returns (result, _failed_districts (attempt_individual s net).1)
            /\ _last_source (attempt_individual s net).1 = codes "individual").
  { intros s Hs. unfold attempt_individual. rewrite Hs.
    destruct (_fetch_individual_feeds net (_district_slugs self))
      as [[r f]|err].
    - simpl. intros [= ->]. auto.
    - destruct (exn_cls err); simpl; discriminate. }
  destruct (combined_due self).
  - destruct (_fetch_combined_feed net (_district_slugs self)) as [r|err] eqn:Hc;
      cbn [fst snd returned requested _failed_districts _last_source
           _fallback_active].
    + intros [= ->]. right. left. repeat split; auto. left. reflexivity.
    + intros Hr. right. right.
      match goal with
      | |- context [attempt_individual ?s net] =>
          destruct (Hind s eq_refl Hr) as [H1 H2]
      end.
      repeat split; auto. intros url Hu. right. exact Hu.
  - cbn [fst snd returned requested]. intros Hr. right. right.
    destruct (Hind (begin_cycle self).1 eq_refl Hr) as [H1 H2].
    repeat split; auto.
Qed.

(** What an individual fetch that returns has read. *)
Lemma individual_feed_document (net : session) (slug : str) (snap : Snapshot) :
  _fetch_individual_feed net slug = Returns snap ->
  exists raw pub items,
    net (CFA_RSS_URL slug) = Http 200 raw
    /\ _parse_rss_xml raw = Returns (pub, items)
    /\ snap = snapshot_of pub items slug.
Proof.
  unfold _fetch_individual_feed. cbv zeta.
  destruct (net (CFA_RSS_URL slug)) as [e|status raw] eqn:Hn; [discriminate|].
  destruct (Z.eqb_spec status 200) as [->|Hs]; simpl negb; cbv iota;
    [|discriminate].
  destruct (_parse_rss_xml raw) as [[pub items]|err] eqn:Hp; [|discriminate].
  intros [= <-]. exists raw, pub, items.
  split; [reflexivity|]. split; [exact Hp|].
  unfold snapshot_of. f_equal.
  apply map_ext. intros [t d]. reflexivity.
Qed.

(** X9: on the data a cycle returned, the feed status sensor of a region
    reads "failed" when the region has no snapshot or no forecast,
    otherwise "ok" when the data came from the combined feed and
    "degraded" when it came from the individual feeds.  After a cycle
    that raised, the sensor of every tracked region reads "failed",
    whatever data is still cached. *)
Theorem feed_status_after_cycle (self : Coordinator) (net : session)
    (cached : option (gmap str Snapshot)) (slug : str) :
  let self' := (_async_update_data self net).1 in
  match returned (_async_update_data self net).2 with
  | Returns result =>
      feed_status self' (Some result) slug
      = match result !! slug with
        | None => codes "failed"
        | Some snap =>
            match forecasts snap with
            | [] => codes "failed"
            | _ :: _ =>
                if str_eqb (_last_source self') (codes "combined")
                then codes "ok" else codes "degraded"
            end
        end
  | Raises _ =>
      slug ∈ _district_slugs self -> feed_status self' cached slug = codes "failed"
  end.
Proof.
  cbv zeta.
  destruct (returned (_async_update_data self net).2) as [result|err] eqn:Hr.
  - apply cycle_returns in Hr. cbv zeta in Hr.
    unfold feed_status, _get_district_data.
    destruct Hr as [[_ ->]|[(_ & _ & -> & -> & -> & _)|(_ & Hf & -> & _)]].
    + rewrite lookup_empty. reflexivity.
    + destruct (result !! slug) as [snap|]; [|reflexivity].
      destruct (forecasts snap); reflexivity.
    + destruct (result !! slug) as [snap|] eqn:Hs; [|reflexivity].
      destruct (forecasts snap); [reflexivity|].
      pose proof (individual_feeds_cases net (_district_slugs self)) as H.
      rewrite Hf in H. destruct H as (Hl & He & _).
      rewrite Hl in Hs. rewrite bool_decide_eq_false_2.
      * rewrite orb_true_r. reflexivity.
      * rewrite He, list_elem_of_In, filter_In. intros [_ Hx].
        case_bool_decide; [|discriminate].
        destruct (_fetch_individual_feed net slug); discriminate.
  - intros Hin.
    assert (Hne : _district_slugs self <> ∅) by set_solver.
    revert Hr. rewrite (update_cases self net Hne). cbv zeta.
    assert (Hind : forall s, _district_slugs s = _district_slugs self ->
              (attempt_individual s net).2 = Raises err ->
              feed_status (attempt_individual s net).1 cached slug
              = codes "failed").
    { intros s Hs. unfold attempt_individual. rewrite Hs.
      destruct (_fetch_individual_feeds net (_district_slugs self))
        as [[r f]|e]; [discriminate|].
      intros _. cbv zeta.
      destruct (exn_cls e); cbn [fst]; unfold feed_status;
        (destruct (_get_district_data cached slug) as [snap|]; [|reflexivity]);
        (destruct (forecasts snap); [reflexivity|]);
        cbn [_failed_districts];
        (rewrite bool_decide_eq_true_2; [reflexivity|]);
        apply elem_of_elements; exact Hin. }
    destruct (combined_due self).
    + destruct (_fetch_combined_feed net (_district_slugs self)) as [r|e];
        cbn [fst snd returned]; [discriminate|].
      match goal with
      | |- context [attempt_individual ?s net] => exact (Hind s eq_refl)
      end.
    + cbn [fst snd returned]. exact (Hind (begin_cycle self).1 eq_refl).
Qed.

(** X10: the day sensors show the entries of the document the cycle read, in
    document order: for a region in the result, the document came from one
    of the requested URLs, and the rating and ban sensors of day [i] show
    the rating and the ban flag extracted from its [i]-th forecast entry,
    and have no value when the document has no such entry. *)
Theorem day_sensors_follow_document (self : Coordinator) (net : session)
    (result : gmap str Snapshot) (slug : str) :
  returned (_async_update_data self net).2 = Returns result ->
  is_Some (result !! slug) ->
  exists url raw pub items,
    In url (requested (_async_update_data self net).2)
    /\ net url = Http 200 raw
    /\ _parse_rss_xml raw = Returns (pub, items)
    /\ forall day_index : nat,
         rating_native_value (Some result) slug day_index
         = (fun item => rating (_parse_item item.2 (feed_name_of slug)))
             <$> items !! day_index
         /\ tfb_native_value (Some result) slug day_index
            = (fun item =>
                 if total_fire_ban (_parse_item item.2 (feed_name_of slug))
                 then codes "Yes" else codes "No")
                <$> items !! day_index.
Proof.
  intros Hr [snap Hs]. apply cycle_returns in Hr. cbv zeta in Hr.
  assert (Hday : forall pub items,
            snap = snapshot_of pub items slug ->
            forall day_index : nat,
              rating_native_value (Some result) slug day_index
              = (fun item => rating (_parse_item item.2 (feed_name_of slug)))
                  <$> items !! day_index
              /\ tfb_native_value (Some result) slug day_index
                 = (fun item =>
                      if total_fire_ban (_parse_item item.2 (feed_name_of slug))
                      then codes "Yes" else codes "No")
                     <$> items !! day_index).
  { intros pub items -> day_index.
    unfold rating_native_value, tfb_native_value, _get_forecast,
      _get_district_data.
    rewrite Hs. cbn [forecasts snapshot_of]. rewrite length_map.
    destruct (Nat.ltb_spec day_index (length items)) as [Hlt|Hge].
    - rewrite list_lookup_fmap.
      destruct (items !! day_index) as [item|]; [split; reflexivity|].
      split; reflexivity.
    - rewrite (lookup_ge_None_2 items day_index) by lia.
      split; reflexivity. }
  destruct Hr as [[_ ->]|[(_ & Hc & _ & _ & _ & Hu)|(_ & Hf & _ & Hu)]].
  - rewrite lookup_empty in Hs. discriminate.
  - apply combined_returns in Hc as (raw & pub & items & Hn & Hp & _ & _ & Hcov).
    exists CFA_COMBINED_RSS_URL, raw, pub, items.
    split; [exact Hu|]. split; [exact Hn|]. split; [exact Hp|].
    apply (Hday pub). rewrite (Hcov slug) in Hs.
    case_bool_decide; congruence.
  - pose proof (individual_feeds_cases net (_district_slugs self)) as H.
    rewrite Hf in H. destruct H as (Hl & _ & _).
    rewrite Hl in Hs. case_bool_decide as Hin; [|discriminate].
    destruct (_fetch_individual_feed net slug) as [res|e] eqn:Hi; [|discriminate].
    injection Hs as ->.
    apply individual_feed_document in Hi as (raw & pub & items & Hn & Hp & ->).
    exists (CFA_RSS_URL slug), raw, pub, items.
    split.
    { apply Hu. unfold individual_urls. apply in_map.
      apply list_elem_of_In, elem_of_elements. exact Hin. }
    split; [exact Hn|]. split; [exact Hp|].
    apply (Hday pub). reflexivity.
Qed.

(** ** The entities of an entry *)

(** The sensors [async_setup_entry] creates for a district. *)
Inductive sensor :=
| FireDangerRating (day_index : nat)
| TotalFireBan (day_index : nat)
| MaxSeverity
| FeedStatus.

(** [_attr_unique_id], as the constructors of the sensors set it; [None]
    is the [IndexError] of [DAY_LABELS[day_index]]. *)
Definition unique_id (district_slug : str) (s : sensor) : option str :=
  match s with
  | FireDangerRating day_index =>
      match DAY_LABELS !! day_index with
      | Some label =>
          Some (codes "cfa_" ++ district_slug ++ codes "_rating_" ++ label)
      | None => None
      end
  | TotalFireBan day_index =>
      match DAY_LABELS !! day_index with
      | Some label =>
          Some (codes "cfa_" ++ district_slug ++ codes "_tfb_" ++ label)
      | None => None
      end
  | MaxSeverity => Some (codes "cfa_" ++ district_slug ++ codes "_max_severity")
  | FeedStatus => Some (codes "cfa_" ++ district_slug ++ codes "_feed_status")
  end.

(** The sensors of [async_setup_entry], in the order it creates them:
    [range(forecast_days)] is empty for a count below one. *)
Definition entry_sensors (forecast_days : Z) : list sensor :=
  flat_map (fun day_index => [FireDangerRating day_index; TotalFireBan day_index])
           (seq 0 (Z.to_nat forecast_days))
  ++ [MaxSeverity; FeedStatus].

(** The unique ids of the entities [async_setup_entry] adds; [None] when
    a constructor raises. *)
Definition entry_unique_ids (district_slug : str) (forecast_days : Z)
  : option (list str) :=
  mapM (unique_id district_slug) (entry_sensors forecast_days).

(** What follows the slug in the unique id of a sensor. *)
Definition id_suffix (s : sensor) : option str :=
  match s with
  | FireDangerRating day_index => (app (codes "_rating_")) <$> DAY_LABELS !! day_index
  | TotalFireBan day_index => (app (codes "_tfb_")) <$> DAY_LABELS !! day_index
  | MaxSeverity => Some (codes "_max_severity")
  | FeedStatus => Some (codes "_feed_status")
  end.

Definition sensor_eqb (s1 s2 : sensor) : bool :=
  match s1, s2 with
  | FireDangerRating i, FireDangerRating j => Nat.eqb i j
  | TotalFireBan i, TotalFireBan j => Nat.eqb i j
  | MaxSeverity, MaxSeverity => true
  | FeedStatus, FeedStatus => true
  | _, _ => false
  end.

Lemma sensor_eqb_eq (s1 s2 : sensor) : sensor_eqb s1 s2 = true -> s1 = s2.
Proof.
  destruct s1, s2; simpl; try discriminate; try reflexivity;
    intros H; apply Nat.eqb_eq in H; congruence.
Qed.

Lemma unique_id_suffix (district_slug : str) (s : sensor) :
  unique_id district_slug s
  = (fun suffix => codes "cfa_" ++ district_slug ++ suffix) <$> id_suffix s.
Proof.
  destruct s as [i|i| |]; simpl; try reflexivity;
    destruct (DAY_LABELS !! i); reflexivity.
Qed.

(** The sensors that have a unique id. *)
Definition ALL_SENSORS : list sensor :=
  entry_sensors 4.

Lemma id_suffix_all (s : sensor) (suffix : str) :
  id_suffix s = Some suffix -> In s ALL_SENSORS.
Proof.
  destruct s as [i|i| |]; simpl.
  - do 4 (destruct i as [|i]; [intros _; vm_compute; tauto|]).
    discriminate.
  - do 4 (destruct i as [|i]; [intros _; vm_compute; tauto|]).
    discriminate.
  - intros _. vm_compute. tauto.
  - intros _. vm_compute. tauto.
Qed.

(** No suffix ends with another one. *)
Definition suffix_free : bool :=
  forallb (fun s1 =>
    forallb (fun s2 =>
      match id_suffix s1, id_suffix s2 with
      | Some x1, Some x2 =>
          implb (str_eqb (drop (length x2 - length x1) x2) x1) (sensor_eqb s1 s2)
      | _, _ => true
      end) ALL_SENSORS) ALL_SENSORS.

Lemma suffix_ends (s1 s2 : sensor) (x1 x2 l : str) :
  id_suffix s1 = Some x1 -> id_suffix s2 = Some x2 -> x2 = l ++ x1 -> s1 = s2.
Proof.
  intros H1 H2 Hl.
  assert (Hf : suffix_free = true) by (vm_compute; reflexivity).
  unfold suffix_free in Hf. rewrite forallb_forall in Hf.
  specialize (Hf s1 (id_suffix_all _ _ H1)). rewrite forallb_forall in Hf.
  specialize (Hf s2 (id_suffix_all _ _ H2)). rewrite H1, H2 in Hf.
  apply sensor_eqb_eq.
  destruct (sensor_eqb s1 s2); [reflexivity|].
  rewrite Hl in Hf. rewrite length_app in Hf.
  replace (length l + length x1 - length x1)%nat with (length l) in Hf by lia.
  rewrite drop_app_length in Hf. rewrite str_eqb_refl in Hf. discriminate.
Qed.

Lemma unique_id_inj (slug1 slug2 : str) (s1 s2 : sensor) (uid : str) :
  unique_id slug1 s1 = Some uid -> unique_id slug2 s2 = Some uid ->
  slug1 = slug2 /\ s1 = s2.
Proof.
  rewrite !unique_id_suffix.
  destruct (id_suffix s1) as [x1|] eqn:H1; [|discriminate].
  destruct (id_suffix s2) as [x2|] eqn:H2; [|discriminate].
  simpl. intros [= <-] [= H].
  apply app_eq_app in H as [l [[Ha Hb]|[Ha Hb]]].
  - assert (Hs : s2 = s1) by exact (suffix_ends s2 s1 x2 x1 l H2 H1 Hb).
    subst s2. split; [|reflexivity].
    assert (Hx : x2 = x1) by congruence. rewrite Hx in Hb.
    assert (Hl : l = []).
    { apply (f_equal (@length N)) in Hb. rewrite length_app in Hb.
      destruct l; [reflexivity|simpl in Hb; lia]. }
    subst l. rewrite app_nil_r in Ha. congruence.
  - assert (Hs : s1 = s2) by exact (suffix_ends s1 s2 x1 x2 l H1 H2 Hb).
    subst s2. split; [|reflexivity].
    assert (Hx : x2 = x1) by congruence. rewrite Hx in Hb.
    assert (Hl : l = []).
    { apply (f_equal (@length N)) in Hb. rewrite length_app in Hb.
      destruct l; [reflexivity|simpl in Hb; lia]. }
    subst l. rewrite app_nil_r in Ha. congruence.
Qed.

Lemma entry_sensors_NoDup (forecast_days : Z) : NoDup (entry_sensors forecast_days).
Proof.
  unfold entry_sensors. generalize (Z.to_nat forecast_days) as n. intros n.
  assert (Hin : forall s start len,
            In s (flat_map (fun i => [FireDangerRating i; TotalFireBan i])
                    (seq start len)) ->
            exists i, (start <= i)%nat /\ (s = FireDangerRating i \/ s = TotalFireBan i)).
  { intros s start len. revert start.
    induction len as [|len IH]; intros start; simpl; [contradiction|].
    intros [<-|[<-|H]].
    - exists start. auto.
    - exists start. auto.
    - destruct (IH _ H) as (i & Hi & Hs). exists i. split; [lia|exact Hs]. }
  apply NoDup_app. split; [|split].
  - generalize 0%nat as start.
    induction n as [|n IH]; intros start; simpl; [constructor|].
    constructor.
    + rewrite list_elem_of_In. intros [E|H]; [discriminate E|].
      destruct (Hin _ _ _ H) as (i & Hi & [E|E]); [|discriminate E].
      injection E as E. lia.
    + constructor; [|apply IH].
      rewrite list_elem_of_In. intros H.
      destruct (Hin _ _ _ H) as (i & Hi & [E|E]); [discriminate E|].
      injection E as E. lia.
  - intros s Hs. apply list_elem_of_In in Hs.
    destruct (Hin _ _ _ Hs) as (i & _ & [-> | ->]);
      rewrite list_elem_of_In; simpl; intuition discriminate.
  - repeat constructor; rewrite list_elem_of_In; simpl; intuition discriminate.
Qed.

(** X11: the entities of an entry can be set up exactly when at most four
    forecast days are asked for (a fifth day has no label); there are then
    two sensors per day and two more, and no two of them share a unique
    id.  Nor do sensors of different districts: a unique id determines the
    district and the sensor. *)
Theorem sensor_unique_ids (district_slug : str) (forecast_days : Z) :
  (entry_unique_ids district_slug forecast_days = None <-> (4 < forecast_days)%Z)
  /\ (forall ids,
        entry_unique_ids district_slug forecast_days = Some ids ->
        length ids = (2 * Z.to_nat forecast_days + 2)%nat /\ NoDup ids)
  /\ (forall slug1 slug2 s1 s2 uid,
        unique_id slug1 s1 = Some uid -> unique_id slug2 s2 = Some uid ->
        slug1 = slug2 /\ s1 = s2).
Proof.
  split; [|split].
  - unfold entry_unique_ids, entry_sensors.
    destruct (Z.ltb_spec 4 forecast_days) as [Hlt|Hge].
    + split; [intros _; exact Hlt|intros _].
      replace (Z.to_nat forecast_days) with (4 + (Z.to_nat forecast_days - 4))%nat
        by lia.
      rewrite seq_app, flat_map_app. simpl seq at 2.
      destruct (Z.to_nat forecast_days - 4)%nat as [|k] eqn:Hk; [lia|].
      cbn [seq flat_map Nat.add app].
      apply mapM_None, Exists_exists. exists (FireDangerRating 4).
      split; [|reflexivity].
      apply list_elem_of_In. simpl. tauto.
    + split; [|lia]. intros H. exfalso.
      assert (Hn : (Z.to_nat forecast_days <= 4)%nat) by lia.
      revert H. generalize (Z.to_nat forecast_days) Hn. intros n Hn'.
      do 5 (destruct n as [|n]; [vm_compute; discriminate|]). lia.
  - intros ids H. unfold entry_unique_ids in H. split.
    + apply length_mapM in H. rewrite <- H. unfold entry_sensors.
      rewrite length_app. simpl length at 2.
      assert (Hlen : forall n start,
                length (flat_map (fun i => [FireDangerRating i; TotalFireBan i])
                          (seq start n)) = (2 * n)%nat).
      { induction n as [|n IH]; intros start; [reflexivity|].
        simpl. rewrite (IH (S start)). lia. }
      rewrite Hlen. reflexivity.
    + pose proof (entry_sensors_NoDup forecast_days) as Hnd.
      revert ids H. induction Hnd as [|s l Hs Hnd IH]; intros ids H.
      * simpl in H. injection H as <-. constructor.
      * rewrite mapM_Some in H. apply Forall2_cons_inv_l in H
          as (uid & ids' & Hu & Hrest & ->).
        constructor.
        -- intros Hin.
           apply list_elem_of_lookup in Hin as [i Hi].
           destruct (Forall2_lookup_r _ _ _ _ _ Hrest Hi) as (s' & Hs' & Hu').
           destruct (unique_id_inj _ _ _ _ _ Hu Hu') as [_ ->].
           apply Hs. apply list_elem_of_lookup. eauto.
        -- apply IH. apply mapM_Some. exact Hrest.
  - exact unique_id_inj.
Qed.

(** ** The cleaned text *)

Fixpoint take_while (p : char -> bool) (s : str) : str :=
  match s with
  | x :: s' => if p x then x :: take_while p s' else []
  | [] => []
  end.

Lemma take_drop_while (p : char -> bool) (s : str) :
  s = take_while p s ++ drop_while p s.
Proof.
  induction s as [|x s IH]; [reflexivity|]. simpl.
  destruct (p x); [simpl; f_equal; exact IH|reflexivity].
Qed.

Lemma take_while_all (p : char -> bool) (s : str) :
  forallb p (take_while p s) = true.
Proof.
  induction s as [|x s IH]; [reflexivity|]. simpl.
  destruct (p x) eqn:Hp; [simpl; rewrite Hp; exact IH|reflexivity].
Qed.

Lemma drop_while_head (p : char -> bool) (s : str) (x : char) (s' : str) :
  drop_while p s = x :: s' -> p x = false.
Proof.
  induction s as [|y s IH]; [discriminate|]. simpl.
  destruct (p y) eqn:Hp; [exact IH|]. intros [= <- _]. exact Hp.
Qed.

Lemma drop_while_length (p : char -> bool) (s : str) :
  (length (drop_while p s) <= length s)%nat.
Proof.
  induction s as [|x s IH]; [reflexivity|]. simpl.
  destruct (p x); simpl; lia.
Qed.

(** A greedy repetition whose continuation accepts every end takes the
    longest run. *)
Lemma star_greedy {A : Type} (p : char -> bool) (k : cursor -> option A) :
  (forall c, k c <> None) ->
  forall a b,
    star p b a k = k (Cursor (rev (take_while p a) ++ b) (drop_while p a)).
Proof.
  intros Hk. induction a as [|x a IH]; intros b; [reflexivity|]. simpl.
  destruct (p x); [|reflexivity].
  rewrite IH. simpl. rewrite <- app_assoc. simpl.
  destruct (k _) eqn:E; [reflexivity|]. exfalso. exact (Hk _ E).
Qed.

Lemma match_at_plus (p : char -> bool) (b a : str) :
  match_at (Plus p) (Cursor b a)
  = match a with
    | x :: a' =>
        if p x
        then Some (Match (Cursor b a)
                     (Cursor (rev (take_while p a') ++ x :: b) (drop_while p a'))
                     [])
        else None
    | [] => None
    end.
Proof.
  unfold match_at, Plus. cbn [run after before].
  destruct a as [|x a']; [reflexivity|].
  destruct (p x); [|reflexivity].
  rewrite star_greedy by discriminate. reflexivity.
Qed.

(** The text with every run of [p] characters replaced by [repl];
    [in_run] tells that the character before was of a run. *)
Fixpoint squeeze (p : char -> bool) (repl : str) (in_run : bool) (s : str)
  : str :=
  match s with
  | [] => []
  | x :: s' =>
      if p x
      then (if in_run then [] else repl) ++ squeeze p repl true s'
      else x :: squeeze p repl false s'
  end.

Lemma squeeze_in_run (p : char -> bool) (repl s : str) :
  squeeze p repl true s = squeeze p repl false (drop_while p s).
Proof.
  induction s as [|x s IH]; [reflexivity|]. simpl.
  destruct (p x) eqn:Hp; [exact IH|]. simpl. rewrite Hp. reflexivity.
Qed.

Lemma search_from_start (r : regex) (a b : str) (m : rmatch) :
  search_from r b a = Some m ->
  exists a1 a2, a = a1 ++ a2 /\ m_start m = Cursor (rev a1 ++ b) a2.
Proof.
  revert b. induction a as [|x a IH]; intros b; simpl.
  - destruct (match_at r (Cursor b [])) eqn:Hm; [|discriminate].
    intros [= <-]. apply match_at_sound in Hm as [-> _].
    exists [], []. auto.
  - destruct (match_at r (Cursor b (x :: a))) eqn:Hm.
    + intros [= <-]. apply match_at_sound in Hm as [-> _].
      exists [], (x :: a). auto.
    + intros H. apply IH in H as (a1 & a2 & -> & H).
      exists (x :: a1), a2. simpl. rewrite <- app_assoc. auto.
Qed.

Lemma sub_plus (p : char -> bool) (repl : str) (n : nat) :
  forall a, (length a <= n)%nat ->
  forall fuel b, (length a < fuel)%nat ->
    sub_from fuel (Plus p) repl (Cursor b a) = squeeze p repl false a.
Proof.
  induction n as [|n IH]; intros a Hn fuel b Hf.
  - destruct a; [|simpl in Hn; lia].
    destruct fuel; [lia|]. cbn [sub_from before after search_from].
    rewrite match_at_plus. reflexivity.
  - destruct fuel as [|fuel]; [lia|].
    destruct a as [|x a].
    + cbn [sub_from before after search_from].
      rewrite match_at_plus. reflexivity.
    + simpl in Hn, Hf. cbn [sub_from before after search_from].
      rewrite match_at_plus. cbn [squeeze].
      destruct (p x) eqn:Hp.
      * cbn [m_start m_end after]. unfold span, pos. cbn [before after].
        rewrite Nat.sub_diag, take_0. cbn [app].
        pose proof (drop_while_length p a) as Hd.
        replace (length (drop_while p a) <? length (x :: a))%nat with true
          by (symmetry; apply Nat.ltb_lt; simpl; lia).
        rewrite IH by lia. rewrite squeeze_in_run. reflexivity.
      * specialize (IH a ltac:(lia) (S fuel) (x :: b) ltac:(lia)).
        cbn [sub_from before after] in IH. rewrite <- IH.
        destruct (search_from (Plus p) (x :: b) a) as [m|] eqn:Hs;
          [|reflexivity].
        apply search_from_start in Hs as (a1 & a2 & -> & Hm).
        rewrite Hm. unfold span, pos. cbn [before after].
        rewrite length_app, length_rev. cbn [length].
        replace (length a1 + S (length b) - length b)%nat
          with (S (length a1)) by lia.
        replace (length a1 + S (length b) - S (length b))%nat
          with (length a1) by lia.
        reflexivity.
Qed.

Lemma re_sub_plus (p : char -> bool) (repl text : str) :
  re_sub (Plus p) repl text = squeeze p repl false text.
Proof.
  unfold re_sub. apply (sub_plus p repl (length text)); lia.
Qed.

(** Every white space character of the text is one space: a space that
    has a character before it and one after it, neither of them white
    space. *)
Definition single_spaced (t : str) : Prop :=
  forall pre c post,
    t = pre ++ c :: post -> is_space c = true ->
    c = 32
    /\ (exists pre' x, pre = pre' ++ [x] /\ is_space x = false)
    /\ (exists y post', post = y :: post' /\ is_space y = false).

(** Every white space character is a space, and none follows it. *)
Definition spaced (t : str) : Prop :=
  forall pre c post,
    t = pre ++ c :: post -> is_space c = true ->
    c = 32 /\ forall y post', post = y :: post' -> is_space y = false.

Lemma spaced_cons (x : char) (t : str) :
  (is_space x = true ->
   x = 32 /\ forall y t', t = y :: t' -> is_space y = false) ->
  spaced t -> spaced (x :: t).
Proof.
  intros Hx Ht pre c post E Hc. destruct pre as [|z pre].
  - injection E as <- <-. exact (Hx Hc).
  - injection E as <- ->. exact (Ht pre c post eq_refl Hc).
Qed.

Lemma spaced_infix (l t r : str) : spaced (l ++ t ++ r) -> spaced t.
Proof.
  intros H pre c post -> Hc.
  destruct (H (l ++ pre) c (post ++ r)) as [H1 H2]; [|exact Hc|].
  - rewrite <- !app_assoc. reflexivity.
  - split; [exact H1|]. intros y post' ->. exact (H2 y (post' ++ r) eq_refl).
Qed.

Lemma squeeze_spaced (s : str) :
  spaced (squeeze is_space [32] false s)
  /\ spaced (squeeze is_space [32] true s)
  /\ forall y t', squeeze is_space [32] true s = y :: t' -> is_space y = false.
Proof.
  induction s as [|x s (IH1 & IH2 & IH3)].
  - assert (Hnil : spaced [])
      by (intros pre c post E; destruct pre; discriminate E).
    simpl. split; [exact Hnil|]. split; [exact Hnil|]. discriminate.
  - simpl. destruct (is_space x) eqn:Hx; simpl.
    + split; [|split; assumption].
      apply spaced_cons; [|exact IH2]. intros _. split; [reflexivity|exact IH3].
    + assert (Hs : spaced (x :: squeeze is_space [32] false s)).
      { apply spaced_cons; [|exact IH1]. rewrite Hx. discriminate. }
      split; [exact Hs|]. split; [exact Hs|].
      intros y t' [= <- _]. exact Hx.
Qed.

(** [strip] cuts white space off both ends, and nothing else. *)
Lemma strip_infix (s : str) :
  exists l r, s = l ++ strip s ++ r
              /\ forallb is_space l = true /\ forallb is_space r = true.
Proof.
  unfold strip.
  exists (take_while is_space s),
         (rev (take_while is_space (rev (drop_while is_space s)))).
  split; [|split].
  - rewrite <- rev_app_distr, <- take_drop_while, rev_involutive.
    apply take_drop_while.
  - apply take_while_all.
  - rewrite forallb_forall. intros x Hx. apply in_rev in Hx.
    pose proof (take_while_all is_space (rev (drop_while is_space s))) as H.
    rewrite forallb_forall in H. exact (H x Hx).
Qed.

Lemma strip_first (s : str) (x : char) (t : str) :
  strip s = x :: t -> is_space x = false.
Proof.
  unfold strip. intros H.
  destruct (drop_while is_space s) as [|y u] eqn:Hd; [discriminate H|].
  pose proof (drop_while_head _ _ _ _ Hd) as Hy.
  pose proof (take_drop_while is_space (rev (y :: u))) as Hsplit.
  apply (f_equal (@rev N)) in Hsplit.
  rewrite rev_involutive, rev_app_distr, H in Hsplit.
  injection Hsplit as <- _. exact Hy.
Qed.

Lemma strip_last (s t : str) (x : char) :
  strip s = t ++ [x] -> is_space x = false.
Proof.
  unfold strip. intros H.
  apply (f_equal (@rev N)) in H. rewrite rev_involutive, rev_app_distr in H.
  simpl in H. exact (drop_while_head _ _ _ _ H).
Qed.

Lemma strip_spaced (s : str) : spaced s -> single_spaced (strip s).
Proof.
  intros Hs. destruct (strip_infix s) as (l & r & E & _ & _).
  rewrite E in Hs. apply spaced_infix in Hs.
  intros pre c post Ht Hc.
  destruct (Hs pre c post Ht Hc) as [H32 Hnext].
  split; [exact H32|]. split.
  - destruct (rev pre) as [|x pre'] eqn:Hp.
    + apply (f_equal (@rev N)) in Hp. rewrite rev_involutive in Hp.
      subst pre. simpl in Ht. apply strip_first in Ht. congruence.
    + apply (f_equal (@rev N)) in Hp. rewrite rev_involutive in Hp.
      simpl in Hp. exists (rev pre'), x. split; [exact Hp|].
      destruct (is_space x) eqn:Hx; [|reflexivity]. exfalso.
      subst pre. rewrite <- app_assoc in Ht. simpl in Ht.
      destruct (Hs (rev pre') x (c :: post) Ht Hx) as [_ H].
      specialize (H c post eq_refl). congruence.
  - destruct post as [|y post'].
    + change (pre ++ [c]) with (pre ++ [c]) in Ht.
      apply strip_last in Ht. congruence.
    + exists y, post'. split; [reflexivity|]. exact (Hnext y post' eq_refl).
Qed.

Lemma cleaned_single_spaced (text : str) : single_spaced (_strip_html text).
Proof.
  unfold _strip_html. cbv zeta.
  change (codes " ") with [32]. rewrite re_sub_plus.
  apply strip_spaced. apply squeeze_spaced.
Qed.

(** X12: the cleaned text is single-spaced: whatever white space the
    description holds (line breaks, tabs, no-break spaces, runs of
    spaces), each white space character of the result is one space
    between two characters that are not white space.  In particular the
    result neither begins nor ends with white space and has no line
    break. *)
Theorem strip_html_single_spaced (text pre : str) (c : char) (post : str) :
  _strip_html text = pre ++ c :: post -> is_space c = true ->
  c = 32
  /\ (exists pre' x, pre = pre' ++ [x] /\ is_space x = false)
  /\ (exists y post', post = y :: post' /\ is_space y = false).
Proof. exact (cleaned_single_spaced text pre c post). Qed.

(** ** The issue time *)

(** The text a cursor is a position of. *)
Definition text_of (c : cursor) : str := rev (before c) ++ after c.

Lemma matches_text (r : regex) (c : cursor) (g : groups) (c' : cursor)
    (g' : groups) :
  matches r c g c' g' -> text_of c' = text_of c.
Proof.
  revert c g c' g'.
  induction r as [s|p|r1 IH1 r2 IH2|r1 IH1 r2 IH2|p|p|r1 IH1|n r1 IH1| | | |s|p];
    intros c g c' g'; simpl; unfold text_of.
  - intros (He & Hb & _). apply eat_lit_take in He as [He _].
    rewrite Hb, rev_app_distr, rev_involutive, <- app_assoc, <- He. reflexivity.
  - intros [(x & Ha & _ & Hb) _]. rewrite Hb, Ha. simpl.
    rewrite <- app_assoc. reflexivity.
  - intros (c1 & g1 & H1 & H2). apply IH1 in H1. apply IH2 in H2.
    unfold text_of in H1, H2. congruence.
  - intros [H|H]; [exact (IH1 _ _ _ _ H)|exact (IH2 _ _ _ _ H)].
  - intros [(xs & Ha & _ & Hb) _]. rewrite Hb, Ha, rev_app_distr, rev_involutive,
      <- app_assoc. reflexivity.
  - intros [(xs & Ha & _ & Hb) _]. rewrite Hb, Ha, rev_app_distr, rev_involutive,
      <- app_assoc. reflexivity.
  - intros [H|[-> _]]; [exact (IH1 _ _ _ _ H)|reflexivity].
  - intros (g1 & H & _). exact (IH1 _ _ _ _ H).
  - intros (_ & -> & _). reflexivity.
  - intros (_ & -> & _). reflexivity.
  - intros (_ & -> & _). reflexivity.
  - intros (_ & -> & _). reflexivity.
  - intros (_ & -> & _). reflexivity.
Qed.

(** A phrase ends where its last word does. *)
Lemma matches_phrase (ws : list string) (c : cursor) (g : groups)
    (c' : cursor) (g' : groups) :
  matches (phrase ws) c g c' g' ->
  g' = g
  /\ exists b suf, before c' = rev suf ++ b
                   /\ spells (codes (List.last ws ""%string)) suf.
Proof.
  revert c g. induction ws as [|w ws IH]; intros c g.
  - simpl. intros (He & Hb & ->). split; [reflexivity|].
    exists (before c'), []. split; [reflexivity|constructor].
  - destruct ws as [|w' ws].
    + simpl. intros (He & Hb & ->). split; [reflexivity|].
      apply eat_lit_take in He as [_ Hs].
      exists (before c), (take (length (codes w)) (after c)). auto.
    + change (phrase (w :: w' :: ws))
        with (Seq (Lit (codes w)) (Seq (Plus is_space) (phrase (w' :: ws)))).
      change (List.last (w :: w' :: ws) ""%string)
        with (List.last (w' :: ws) ""%string).
      unfold Plus. cbn [matches].
      intros (c1 & g1 & (_ & _ & ->) & c2 & g2
              & (c3 & g3 & (_ & ->) & (_ & ->)) & H).
      exact (IH _ _ H).
Qed.

Lemma take_while_id (p : char -> bool) (s : str) :
  (forall x, In x s -> p x = true) -> take_while p s = s.
Proof.
  induction s as [|x s IH]; [reflexivity|]. intros H. simpl.
  rewrite (H x (or_introl eq_refl)). f_equal. apply IH.
  intros y Hy. apply H. right. exact Hy.
Qed.

Lemma drop_while_snoc (p : char -> bool) (s : str) (z : char) :
  p z = false -> drop_while p (s ++ [z]) = drop_while p s ++ [z].
Proof.
  intros Hz. induction s as [|x s IH]; simpl.
  - rewrite Hz. reflexivity.
  - destruct (p x); [exact IH|reflexivity].
Qed.

(** A text that ends with a character that is not white space is only
    cut at its start. *)
Lemma strip_snoc (s : str) (z : char) :
  is_space z = false ->
  strip (s ++ [z]) = drop_while is_space s ++ [z].
Proof.
  intros Hz. unfold strip. rewrite drop_while_snoc by exact Hz.
  rewrite rev_app_distr. simpl. rewrite Hz. simpl.
  rewrite rev_involutive. reflexivity.
Qed.

(** On a single-spaced text, the issue time is everything after the label
    and at most one space. *)
Lemma issued_at_suffix (text s : str) :
  single_spaced text ->
  extract_issued_at text = Some s ->
  s <> []
  /\ exists pre gap,
       text = pre ++ gap ++ s
       /\ ends_with (codes "at:") pre
       /\ (gap = [] \/ gap = [32]).
Proof.
  intros Hnf. unfold extract_issued_at.
  destruct (re_search RE_ISSUED_AT text) as [m|] eqn:Hs; [|discriminate].
  intros [= <-]. unfold re_search in Hs.
  pose proof (search_from_start _ _ _ _ Hs) as (a1 & a2 & Ht & Hstart).
  rewrite app_nil_r in Hstart.
  apply search_from_found in Hs as [c Hm].
  pose proof (match_at_sound _ _ _ Hm) as [Hc _]. rewrite Hstart in Hc. subst c.
  unfold match_at, RE_ISSUED_AT in Hm.
  change (run (phrase ["Bureau"; "of"; "Meteorology"; "forecast"; "issued"; "at:"]%string)
            (Cursor (rev a1) a2) []
            (fun c1 g1 =>
               run (Seq (Star is_space) (Group 1 (Plus not_newline))) c1 g1
                 (fun c' g => Some (Match (Cursor (rev a1) a2) c' g)))
          = Some m) in Hm.
  apply run_sound in Hm as (c1 & g1 & Hp & Hm).
  pose proof (matches_text _ _ _ _ _ Hp) as Hz.
  apply matches_phrase in Hp as (-> & b & suf & Hb & Hsuf).
  unfold text_of in Hz. cbn [before after] in Hz.
  rewrite rev_involutive, <- Ht in Hz.
  unfold Plus in Hm. cbn [run] in Hm.
  apply star_sound in Hm as (xs & a' & Ha & Hxs & Hm).
  cbn [before after] in Hm.
  destruct a' as [|x a'']; [discriminate|].
  destruct (not_newline x) eqn:Hx; [|discriminate].
  rewrite star_greedy in Hm by discriminate. injection Hm as <-.
  (* the text down to the group *)
  assert (Htext : text = (rev b ++ suf) ++ xs ++ x :: a'').
  { rewrite <- Hz, Hb, Ha, rev_app_distr, rev_involutive, <- !app_assoc.
    reflexivity. }
  (* no line break is left *)
  assert (Hnl : forall y, In y a'' -> not_newline y = true).
  { intros y Hy. apply in_split in Hy as (l1 & l2 & ->).
    destruct (N.eqb_spec y 10) as [->|Hne].
    - exfalso.
      destruct (Hnf (rev b ++ suf ++ xs ++ x :: l1) 10 l2) as [H10 _];
        [|reflexivity|discriminate H10].
      rewrite Htext. repeat (rewrite <- app_assoc; cbn [app]). reflexivity.
    - unfold not_newline. apply N.eqb_neq in Hne. rewrite Hne. reflexivity. }
  unfold m_group. cbn [m_groups group Nat.eqb default].
  unfold span, pos. cbn [before after].
  rewrite take_while_id by exact Hnl.
  rewrite length_app, length_rev. cbn [length].
  replace (length a'' + S (length (rev xs ++ before c1))
           - length (rev xs ++ before c1))%nat
    with (S (length a'')) by lia.
  cbn [take]. rewrite firstn_all.
  (* the group ends with a character that is not white space *)
  destruct (rev (x :: a'')) as [|z u] eqn:Hrev.
  { apply (f_equal (@length N)) in Hrev. rewrite length_rev in Hrev.
    discriminate Hrev. }
  apply (f_equal (@rev N)) in Hrev. rewrite rev_involutive in Hrev.
  cbn [rev] in Hrev. rewrite Hrev in *.
  assert (Hzs : is_space z = false).
  { destruct (is_space z) eqn:E; [|reflexivity]. exfalso.
    destruct (Hnf ((rev b ++ suf) ++ xs ++ rev u) z []) as (_ & _ & y & post' & H & _);
      [|exact E|discriminate H].
    rewrite Htext, <- !app_assoc. reflexivity. }
  unfold id. rewrite strip_snoc by exact Hzs.
  split; [intros H; apply app_eq_nil in H as [_ H]; discriminate H|].
  exists (rev b ++ suf), (xs ++ take_while is_space (rev u)).
  split; [|split].
  - rewrite Htext, <- !app_assoc. do 3 f_equal.
    rewrite (take_drop_while is_space (rev u)) at 1.
    rewrite <- app_assoc. reflexivity.
  - exists (rev b), suf. auto.
  - assert (Hgap : forallb is_space (xs ++ take_while is_space (rev u)) = true)
      by (rewrite forallb_app; apply andb_true_intro;
          split; [exact Hxs|apply take_while_all]).
    assert (Hrest : text = (rev b ++ suf)
                           ++ (xs ++ take_while is_space (rev u))
                           ++ drop_while is_space (rev u) ++ [z]).
    { rewrite Htext, <- !app_assoc. do 3 f_equal.
      rewrite (take_drop_while is_space (rev u)) at 1.
      rewrite <- app_assoc. reflexivity. }
    destruct (xs ++ take_while is_space (rev u)) as [|g0 gap]; [left; reflexivity|].
    right. simpl in Hgap. apply andb_prop in Hgap as [Hg0 Hgap].
    destruct (Hnf (rev b ++ suf) g0 (gap ++ drop_while is_space (rev u) ++ [z]))
      as (-> & _ & y & post' & Hy & Hys); [exact Hrest|exact Hg0|].
    destruct gap as [|g1 gap]; [reflexivity|]. exfalso.
    simpl in Hgap. apply andb_prop in Hgap as [Hg1 _].
    injection Hy as <- _. congruence.
Qed.

(** X14: the issue time the extractor reports is never empty and runs to the
    end of the cleaned text: it is everything that follows a spelling of
    "at:" and at most one space.  The line break the pattern would stop
    at is no longer there, the cleaning having replaced it by a space. *)
Theorem issued_at_runs_to_end (description_html district_name s : str) :
  issued_at (_parse_item description_html district_name) = Some s ->
  s <> []
  /\ exists pre gap,
       _strip_html description_html = pre ++ gap ++ s
       /\ ends_with (codes "at:") pre
       /\ (gap = [] \/ gap = [32]).
Proof.
  unfold _parse_item, parse_text. cbn [issued_at].
  apply issued_at_suffix. apply cleaned_single_spaced.
Qed.

(** ** The forecasts of a result *)

Lemma severity_range (rating : str) :
  (0 <= severity_of rating <= 5)%Z
  /\ ((0 < severity_of rating)%Z -> In rating FIRE_DANGER_RATINGS).
Proof.
  unfold severity_of, dict_get, RATING_SEVERITY, FIRE_DANGER_RATINGS.
  cbn [dict_lookup List.map In].
  repeat match goal with
         | |- context [str_eqb ?a ?b] =>
             let E := fresh "E" in
             destruct (str_eqb a b) eqn:E;
             [apply str_eqb_eq in E; cbv beta iota delta [from_option id];
              split; [lia|intros _; auto 10]|]
         end.
  cbv beta iota delta [from_option id]. split; lia.
Qed.

Lemma snapshot_forecasts (pub : option str) (items : list (str * str))
    (slug : str) (raw : xml) (f : Forecast) :
  _parse_rss_xml raw = Returns (pub, items) ->
  In f (forecasts (snapshot_of pub items slug)) ->
  exists label desc,
    f = with_date_label (_parse_item desc (feed_name_of slug)) label
    /\ begins_with_day label.
Proof.
  intros Hp Hin. cbn [forecasts snapshot_of] in Hin.
  apply in_map_iff in Hin as ([label desc] & <- & Hin).
  exists label, desc. split; [reflexivity|].
  unfold _parse_rss_xml in Hp.
  destruct raw as [err|root]; [discriminate|].
  destruct (find "channel" root) as [channel|]; [|discriminate].
  injection Hp as _ <-. rewrite forecast_items_of_entries in Hin.
  apply list_elem_of_In, list_elem_of_omap in Hin as (item & _ & Hitem).
  unfold forecast_entry in Hitem.
  destruct (find "title" item) as [title_el|]; [|discriminate].
  destruct (find "description" item) as [desc_el|]; [|discriminate].
  cbv zeta in Hitem.
  destruct (starts_with_day _) eqn:Hd; [|discriminate].
  injection Hitem as <- _. apply starts_with_day_spec. exact Hd.
Qed.

(** X15: every forecast of every snapshot a cycle returns is well formed: the
    snapshot is filed under the slug it names; the label of the forecast
    begins with a day name; its severity is the severity of its rating in
    the table, from 0 to 5, and positive only for a rating of the
    vocabulary; its text is single-spaced; and its issue time, when it has
    one, is not empty. *)
Theorem returned_forecasts_well_formed (self : Coordinator) (net : session)
    (result : gmap str Snapshot) (slug : str) (snap : Snapshot) (f : Forecast) :
  returned (_async_update_data self net).2 = Returns result ->
  result !! slug = Some snap ->
  In f (forecasts snap) ->
  district_slug snap = slug
  /\ district_name snap = dict_get DISTRICTS slug slug
  /\ (exists label, date_label f = Some label /\ begins_with_day label)
  /\ severity f = severity_of (rating f)
  /\ (0 <= severity f <= 5)%Z
  /\ ((0 < severity f)%Z -> In (rating f) FIRE_DANGER_RATINGS)
  /\ single_spaced (description_raw f)
  /\ issued_at f <> Some [].
Proof.
  intros Hr Hs Hin.
  assert (Hsnap : exists raw pub items,
            _parse_rss_xml raw = Returns (pub, items)
            /\ snap = snapshot_of pub items slug).
  { apply cycle_returns in Hr. cbv zeta in Hr.
    destruct Hr as [[_ ->]|[(_ & Hc & _)|(_ & Hf & _)]].
    - rewrite lookup_empty in Hs. discriminate.
    - apply combined_returns in Hc as (raw & pub & items & _ & Hp & _ & _ & Hcov).
      exists raw, pub, items. split; [exact Hp|].
      rewrite (Hcov slug) in Hs. case_bool_decide; congruence.
    - pose proof (individual_feeds_cases net (_district_slugs self)) as H.
      rewrite Hf in H. destruct H as (Hl & _ & _).
      rewrite Hl in Hs. case_bool_decide; [|discriminate].
      destruct (_fetch_individual_feed net slug) as [res|e] eqn:Hi;
        [|discriminate].
      injection Hs as ->.
      apply individual_feed_document in Hi as (raw & pub & items & _ & Hp & ->).
      eauto. }
  destruct Hsnap as (raw & pub & items & Hp & ->).
  split; [reflexivity|]. split; [reflexivity|].
  destruct (snapshot_forecasts _ _ _ _ _ Hp Hin) as (label & desc & -> & Hday).
  split; [exists label; auto|].
  cbn [severity rating description_raw issued_at with_date_label].
  unfold _parse_item at 1 2 3 4 5 6. unfold parse_text.
  cbn [severity rating description_raw].
  change (dict_get RATING_SEVERITY ?r 0%Z) with (severity_of r).
  split; [reflexivity|].
  split; [apply severity_range|]. split; [apply severity_range|].
  split.
  - apply cleaned_single_spaced.
  - intros H. apply issued_at_suffix in H as [H _];
      [apply H; reflexivity|apply cleaned_single_spaced].
Qed.

(** ** Tags *)

(** The pattern of the tags [_strip_html] removes. *)
Definition RE_TAG : regex :=
  Seq (Lit (codes "<")) (Seq (Plus not_gt) (Lit (codes ">"))).

(** The text holds a [>]. *)
Definition has_gt (s : str) : bool := existsb (N.eqb 62) s.

(** The text begins with a tag: a [<], a character that is not [>], and a
    [>] somewhere after it. *)
Definition tag_at (s : str) : bool :=
  match s with
  | c :: x :: s' => (c =? 60) && not_gt x && has_gt s'
  | _ => false
  end.

Fixpoint has_tag (s : str) : bool :=
  tag_at s || match s with
              | _ :: s' => has_tag s'
              | [] => false
              end.

Lemma has_tag_cons (x : char) (s : str) :
  has_tag (x :: s) = tag_at (x :: s) || has_tag s.
Proof. reflexivity. Qed.

(** A greedy repetition followed by something that can only begin with a
    character outside the class ends at the longest run, or nowhere. *)
Lemma star_disjoint {A : Type} (p : char -> bool) (k : cursor -> option A) :
  (forall b a, k (Cursor b a) <> None ->
               match a with
               | y :: _ => p y = false
               | [] => False
               end) ->
  forall a b,
    star p b a k = k (Cursor (rev (take_while p a) ++ b) (drop_while p a)).
Proof.
  intros Hk. induction a as [|x a IH]; intros b; [reflexivity|]. simpl.
  destruct (p x) eqn:Hp; [|reflexivity].
  rewrite IH. simpl. rewrite <- app_assoc. simpl.
  destruct (k (Cursor (rev (take_while p a) ++ x :: b) (drop_while p a)));
    [reflexivity|].
  destruct (k (Cursor b (x :: a))) eqn:E; [|reflexivity].
  exfalso. assert (H : k (Cursor b (x :: a)) <> None) by congruence.
  apply Hk in H. congruence.
Qed.

Lemma drop_while_not_gt (s : str) :
  match drop_while not_gt s with
  | y :: _ => y = 62 /\ has_gt s = true
  | [] => has_gt s = false
  end.
Proof.
  induction s as [|x s IH]; [reflexivity|].
  cbn [drop_while has_gt existsb].
  change (existsb (N.eqb 62) s) with (has_gt s).
  unfold not_gt at 1. rewrite (N.eqb_sym 62 x).
  destruct (N.eqb_spec x 62) as [->|Hx]; cbn [negb orb].
  - auto.
  - destruct (drop_while not_gt s) as [|y r]; exact IH.
Qed.

(** Where the tag pattern matches. *)
Lemma match_at_tag (b a : str) :
  match match_at RE_TAG (Cursor b a) with
  | Some m =>
      tag_at a = true /\ m_start m = Cursor b a
      /\ (length (after (m_end m)) < length a)%nat
  | None => tag_at a = false
  end.
Proof.
  unfold match_at, RE_TAG, Plus. cbn [run after before].
  destruct a as [|c a1]; [reflexivity|].
  change (eat_lit (codes "<") (c :: a1))
    with (if c =? 60 then Some a1 else None).
  destruct (N.eqb_spec c 60) as [->|Hc];
    [|apply N.eqb_neq in Hc; destruct a1; cbn [tag_at]; rewrite ?Hc;
      reflexivity].
  cbn [after before].
  destruct a1 as [|x a2]; [reflexivity|].
  cbn [tag_at]. rewrite N.eqb_refl. cbn [andb].
  destruct (not_gt x) eqn:Hx; [|reflexivity]. cbn [andb].
  rewrite star_disjoint.
  - cbn [after before].
    pose proof (drop_while_not_gt a2) as Hd.
    pose proof (drop_while_length not_gt a2) as Hl.
    destruct (drop_while not_gt a2) as [|y r].
    + rewrite Hd. reflexivity.
    + destruct Hd as [-> Hd]. rewrite Hd.
      change (eat_lit (codes ">") (62 :: r)) with (Some r).
      cbn [m_start m_end after]. split; [reflexivity|]. split; [reflexivity|].
      simpl in Hl |- *. lia.
  - intros b' a'. cbn [after].
    destruct a' as [|y r]; [intros H; apply H; reflexivity|].
    change (eat_lit (codes ">") (y :: r))
      with (if y =? 62 then Some r else None).
    unfold not_gt. destruct (y =? 62); [reflexivity|].
    intros H. exfalso. apply H. reflexivity.
Qed.

Lemma search_tag (a b : str) :
  found (search_from RE_TAG b a) = has_tag a.
Proof.
  revert b. induction a as [|x a IH]; intros b.
  - cbn [search_from has_tag]. pose proof (match_at_tag b []) as H.
    destruct (match_at RE_TAG (Cursor b [])); [destruct H as [H _]|];
      rewrite H; reflexivity.
  - cbn [search_from has_tag]. pose proof (match_at_tag b (x :: a)) as H.
    destruct (match_at RE_TAG (Cursor b (x :: a))).
    + destruct H as [H _]. rewrite H. reflexivity.
    + rewrite H. exact (IH (x :: b)).
Qed.

(** A scan that finds no match at its first position copies the
    character there. *)
Lemma sub_from_skip (r : regex) (repl : str) (fuel : nat) (x : char)
    (a b : str) :
  match_at r (Cursor b (x :: a)) = None ->
  sub_from (S fuel) r repl (Cursor b (x :: a))
  = x :: sub_from (S fuel) r repl (Cursor (x :: b) a).
Proof.
  intros Hm.
  assert (Hs : search_from r b (x :: a) = search_from r (x :: b) a)
    by (cbn [search_from]; rewrite Hm; reflexivity).
  cbn [sub_from before after]. rewrite Hs.
  destruct (search_from r (x :: b) a) as [m|] eqn:Hf; [|reflexivity].
  apply search_from_start in Hf as (a1 & a2 & -> & Hstart).
  rewrite Hstart. unfold span, pos. cbn [before after].
  rewrite length_app, length_rev. cbn [length].
  replace (length a1 + S (length b) - length b)%nat
    with (S (length a1)) by lia.
  replace (length a1 + S (length b) - S (length b))%nat
    with (length a1) by lia.
  reflexivity.
Qed.

Lemma tag_at_no_gt (c : char) (s : str) :
  has_gt s = false -> tag_at (c :: s) = false.
Proof.
  destruct s as [|x s']; [reflexivity|]. unfold tag_at, has_gt.
  cbn [existsb]. intros H. apply orb_false_elim in H as [_ H].
  rewrite H. apply andb_false_r.
Qed.

(** The text without its tags holds no tag, and no [>] the text did not
    hold. *)
Lemma sub_tag (n : nat) :
  forall a, (length a <= n)%nat ->
  forall fuel b, (length a < fuel)%nat ->
    has_tag (sub_from fuel RE_TAG [32] (Cursor b a)) = false
    /\ (has_gt a = false ->
        has_gt (sub_from fuel RE_TAG [32] (Cursor b a)) = false).
Proof.
  induction n as [|n IH]; intros a Hn fuel b Hf.
  - destruct a; [|simpl in Hn; lia].
    destruct fuel; [lia|]. cbn [sub_from before after search_from].
    pose proof (match_at_tag b []) as H.
    destruct (match_at RE_TAG (Cursor b [])); [destruct H as [H _]; discriminate H|].
    split; reflexivity.
  - destruct fuel as [|fuel]; [lia|].
    destruct a as [|x a].
    + cbn [sub_from before after search_from].
      pose proof (match_at_tag b []) as H.
      destruct (match_at RE_TAG (Cursor b []));
        [destruct H as [H _]; discriminate H|].
      split; reflexivity.
    + simpl in Hn, Hf.
      pose proof (match_at_tag b (x :: a)) as Hm.
      destruct (match_at RE_TAG (Cursor b (x :: a))) as [m|] eqn:E.
      * destruct Hm as (Htag & Hstart & Hlen).
        cbn [sub_from before after search_from]. rewrite E.
        rewrite Hstart. unfold span, pos. cbn [before after].
        rewrite Nat.sub_diag, take_0. cbn [app].
        replace (length (after (m_end m)) <? length (x :: a))%nat with true
          by (symmetry; apply Nat.ltb_lt; exact Hlen).
        simpl in Hlen.
        destruct (IH (after (m_end m)) ltac:(lia) fuel (before (m_end m))
                    ltac:(lia)) as [IH1 _].
        destruct (m_end m) as [be af]. cbn [before after] in *.
        split.
        -- rewrite has_tag_cons.
           rewrite IH1, orb_false_r.
           destruct (sub_from fuel RE_TAG [32] (Cursor be af)) as [|y [|z s]];
             reflexivity.
        -- intros Hgt. exfalso. destruct a as [|y a']; [discriminate Htag|].
           unfold tag_at, has_gt in Htag. unfold has_gt in Hgt.
           cbn [existsb] in Hgt.
           apply orb_false_elim in Hgt as [_ Hgt].
           apply orb_false_elim in Hgt as [_ Hgt].
           rewrite Hgt, andb_false_r in Htag. discriminate Htag.
      * rewrite (sub_from_skip _ _ _ _ _ _ E).
        match goal with
        | |- context [sub_from ?f ?r ?rp ?c] =>
            remember (sub_from f r rp c) as o eqn:Ho
        end.
        assert (IH1 : has_tag o = false)
          by (rewrite Ho; apply (IH a ltac:(lia) (S fuel) (x :: b)); lia).
        assert (IH2 : has_gt a = false -> has_gt o = false)
          by (rewrite Ho; apply (IH a ltac:(lia) (S fuel) (x :: b)); lia).
        assert (Hgt : has_gt (x :: a) = false -> has_gt (x :: o) = false).
        { cbn [has_gt existsb]. intros H.
          apply orb_false_elim in H as [Hx H]. rewrite Hx. exact (IH2 H). }
        split; [|exact Hgt].
        rewrite has_tag_cons.
        rewrite IH1, orb_false_r.
        (* the character copied does not open a tag in the output *)
        destruct a as [|y a'].
        { subst o. cbn [sub_from before after search_from].
          pose proof (match_at_tag (x :: b) []) as H.
          destruct (match_at RE_TAG (Cursor (x :: b) []));
            [destruct H as [H _]; discriminate H|]. reflexivity. }
        cbn [tag_at] in Hm.
        destruct (N.eqb_spec x 60) as [->|Hx];
          [|destruct o as [|z o']; [reflexivity|];
            cbn [tag_at]; apply N.eqb_neq in Hx; rewrite Hx; reflexivity].
        cbn [andb] in Hm.
        destruct (not_gt y) eqn:Hy.
        -- cbn [andb] in Hm. apply tag_at_no_gt. apply IH2.
           cbn [has_gt existsb]. unfold not_gt in Hy.
           apply negb_true_iff in Hy. rewrite N.eqb_sym, Hy. exact Hm.
        -- (* the character after is a [>], and is copied *)
           assert (Hy62 : y = 62).
           { unfold not_gt in Hy. apply negb_false_iff, N.eqb_eq in Hy.
             exact Hy. }
           subst y.
           pose proof (match_at_tag (60 :: b) (62 :: a')) as H62.
           destruct (match_at RE_TAG (Cursor (60 :: b) (62 :: a'))) eqn:E2.
           { destruct H62 as [H62 _]. destruct a'; discriminate H62. }
           subst o. rewrite (sub_from_skip _ _ _ _ _ _ E2). reflexivity.
Qed.

Lemma has_gt_squeeze (in_run : bool) (s : str) :
  has_gt (squeeze is_space [32] in_run s) = true -> has_gt s = true.
Proof.
  revert in_run. induction s as [|x s IH]; intros in_run; [discriminate|].
  cbn [squeeze]. destruct (is_space x) eqn:Hx.
  - intros H. cbn [has_gt existsb]. apply orb_true_intro. right.
    apply (IH true). destruct in_run; [exact H|].
    cbn [app has_gt existsb] in H. exact H.
  - cbn [has_gt existsb]. intros H. apply orb_prop in H as [H|H].
    + rewrite H. reflexivity.
    + apply orb_true_intro. right. exact (IH false H).
Qed.

Lemma has_tag_squeeze (in_run : bool) (s : str) :
  has_tag (squeeze is_space [32] in_run s) = true -> has_tag s = true.
Proof.
  revert in_run. induction s as [|x s IH]; intros in_run; [discriminate|].
  cbn [squeeze]. destruct (is_space x) eqn:Hx.
  - intros H. cbn [has_tag]. apply orb_true_intro. right. apply (IH true).
    destruct in_run; [exact H|].
    cbn [app] in H.
    rewrite has_tag_cons in H.
    apply orb_prop in H as [H|H]; [|exact H].
    destruct (squeeze is_space [32] true s) as [|y [|z t]]; discriminate H.
  - rewrite has_tag_cons.
    intros H. apply orb_prop in H as [H|H].
    + cbn [has_tag]. apply orb_true_intro. left.
      (* the tag opened at [x] is closed in the text as well *)
      destruct s as [|y s']; [discriminate H|].
      cbn [squeeze] in H. cbn [tag_at].
      destruct (is_space y) eqn:Hy.
      * cbn [app] in H. cbn [tag_at] in H.
        apply andb_prop in H as [H Hgt]. apply andb_prop in H as [Hc _].
        rewrite Hc. cbn [andb].
        assert (Hyn : not_gt y = true).
        { unfold not_gt. destruct (N.eqb_spec y 62) as [->|]; [|reflexivity].
          discriminate Hy. }
        rewrite Hyn. cbn [andb]. exact (has_gt_squeeze true s' Hgt).
      * cbn [tag_at] in H.
        apply andb_prop in H as [H Hgt]. rewrite H. cbn [andb].
        exact (has_gt_squeeze false s' Hgt).
    + cbn [has_tag]. apply orb_true_intro. right. exact (IH false H).
Qed.

Lemma has_gt_app (l s : str) : has_gt s = true -> has_gt (s ++ l) = true.
Proof.
  unfold has_gt. rewrite existsb_app. intros ->. reflexivity.
Qed.

Lemma tag_at_app (s r : str) : tag_at s = true -> tag_at (s ++ r) = true.
Proof.
  destruct s as [|c [|x s']]; try discriminate. cbn [app tag_at].
  intros H. apply andb_prop in H as [H Hgt]. rewrite H. cbn [andb].
  exact (has_gt_app r s' Hgt).
Qed.

Lemma has_tag_infix (l s r : str) :
  has_tag s = true -> has_tag (l ++ s ++ r) = true.
Proof.
  intros H. induction l as [|x l IH].
  - cbn [app]. induction s as [|y s IHs]; [discriminate H|].
    cbn [has_tag] in H. apply orb_prop in H as [H|H].
    + change ((y :: s) ++ r) with (y :: s ++ r).
      rewrite has_tag_cons.
      apply orb_true_intro. left.
      exact (tag_at_app (y :: s) r H).
    + change ((y :: s) ++ r) with (y :: s ++ r).
      rewrite has_tag_cons.
      apply orb_true_intro. right. exact (IHs H).
  - change ((x :: l) ++ s ++ r) with (x :: l ++ s ++ r).
    rewrite has_tag_cons.
    apply orb_true_intro. right. exact IH.
Qed.

(** X13: the cleaned text holds no tag: the pattern of the tags the cleaning
    removes matches nowhere in its result, whatever the description was
    and whatever the entities in it stand for. *)
Theorem strip_html_leaves_no_tag (text : str) :
  re_search RE_TAG (_strip_html text) = None.
Proof.
  assert (H : has_tag (_strip_html text) = false).
  { unfold _strip_html. cbv zeta.
    change (codes " ") with [32]. rewrite re_sub_plus.
    set (t := re_sub _ [32] (unescape text)).
    assert (Ht : has_tag t = false).
    { subst t. unfold re_sub.
      apply (sub_tag (length (unescape text))); lia. }
    destruct (has_tag (strip (squeeze is_space [32] false t))) eqn:E;
      [|reflexivity].
    destruct (strip_infix (squeeze is_space [32] false t))
      as (l & r & Hs & _ & _).
    apply (has_tag_infix l _ r) in E. rewrite <- Hs in E.
    apply has_tag_squeeze in E. congruence. }
  unfold re_search. pose proof (search_tag (_strip_html text) []) as Hs.
  rewrite H in Hs. destruct (search_from RE_TAG [] (_strip_html text));
    [discriminate Hs|reflexivity].
Qed.

(** ** The district list of a declaration *)

(** What a match consumes: the matcher only moves forward in the text. *)
Lemma matches_consumes (r : regex) (c : cursor) (g : groups) (c' : cursor)
    (g' : groups) :
  matches r c g c' g' ->
  exists o, after c = o ++ after c' /\ before c' = rev o ++ before c.
Proof.
  revert c g c' g'.
  induction r as [s|p|r1 IH1 r2 IH2|r1 IH1 r2 IH2|p|p|r1 IH1|n r1 IH1| | | |s|p];
    intros c g c' g'; simpl.
  - intros (He & Hb & _). apply eat_lit_take in He as [He _].
    exists (take (length s) (after c)). auto.
  - intros [(x & Ha & _ & Hb) _]. exists [x]. auto.
  - intros (c1 & g1 & H1 & H2).
    apply IH1 in H1 as (o1 & Ha1 & Hb1). apply IH2 in H2 as (o2 & Ha2 & Hb2).
    exists (o1 ++ o2).
    rewrite Ha1, Ha2, Hb2, Hb1, rev_app_distr, <- !app_assoc. auto.
  - intros [H|H]; [exact (IH1 _ _ _ _ H)|exact (IH2 _ _ _ _ H)].
  - intros [(xs & Ha & _ & Hb) _]. exists xs. auto.
  - intros [(xs & Ha & _ & Hb) _]. exists xs. auto.
  - intros [H|[-> _]]; [exact (IH1 _ _ _ _ H)|exists []; auto].
  - intros (g1 & H & _). exact (IH1 _ _ _ _ H).
  - intros (_ & -> & _). exists []. auto.
  - intros (_ & -> & _). exists []. auto.
  - intros (_ & -> & _). exists []. auto.
  - intros (_ & -> & _). exists []. auto.
  - intros (_ & -> & _). exists []. auto.
Qed.

(** The matcher finds a match whenever there is one its continuation
    accepts. *)
Lemma star_complete {A : Type} (p : char -> bool) (k : cursor -> option A)
    (xs a' : str) :
  forall b, forallb p xs = true -> k (Cursor (rev xs ++ b) a') <> None ->
            star p b (xs ++ a') k <> None.
Proof.
  induction xs as [|y xs IH]; intros b Hxs Hk.
  - simpl in Hk. cbn [app]. destruct a' as [|x a'']; [exact Hk|]. simpl.
    destruct (p x); [|exact Hk].
    destruct (star p (x :: b) a'' k); [discriminate|exact Hk].
  - simpl in Hxs. apply andb_prop in Hxs as [Hy Hxs]. simpl. rewrite Hy.
    assert (H : star p (y :: b) (xs ++ a') k <> None).
    { apply IH; [exact Hxs|]. simpl in Hk. rewrite <- app_assoc in Hk.
      exact Hk. }
    destruct (star p (y :: b) (xs ++ a') k); [discriminate|].
    exfalso. apply H. reflexivity.
Qed.

Lemma lazy_star_complete {A : Type} (p : char -> bool)
    (k : cursor -> option A) (xs a' : str) :
  forall b, forallb p xs = true -> k (Cursor (rev xs ++ b) a') <> None ->
            lazy_star p b (xs ++ a') k <> None.
Proof.
  induction xs as [|y xs IH]; intros b Hxs Hk.
  - simpl in Hk. cbn [app]. destruct a' as [|x a'']; simpl;
      (destruct (k _); [discriminate|exfalso; apply Hk; reflexivity]).
  - simpl in Hxs. apply andb_prop in Hxs as [Hy Hxs]. simpl.
    destruct (k (Cursor b (y :: xs ++ a'))); [discriminate|]. rewrite Hy.
    apply IH; [exact Hxs|]. simpl in Hk. rewrite <- app_assoc in Hk. exact Hk.
Qed.

Lemma run_complete {A : Type} (r : regex) :
  forall (c : cursor) (g : groups) (c' : cursor) (g' : groups)
         (k : cursor -> groups -> option A),
    matches r c g c' g' -> k c' g' <> None -> run r c g k <> None.
Proof.
  induction r as [s|p|r1 IH1 r2 IH2|r1 IH1 r2 IH2|p|p|r1 IH1|n r1 IH1| | | |s|p];
    intros c g c' g' k; simpl.
  - intros (He & Hb & ->) Hk. rewrite He, <- Hb. destruct c'; exact Hk.
  - intros [(x & Ha & Hp & Hb) ->] Hk. rewrite Ha, Hp, <- Hb.
    destruct c'; exact Hk.
  - intros (c1 & g1 & H1 & H2) Hk. apply (IH1 _ _ c1 g1); [exact H1|].
    exact (IH2 _ _ _ _ _ H2 Hk).
  - intros [H|H] Hk.
    + destruct (run r1 c g k) eqn:E; [discriminate|].
      exfalso. exact (IH1 _ _ _ _ _ H Hk E).
    + destruct (run r1 c g k); [discriminate|]. exact (IH2 _ _ _ _ _ H Hk).
  - intros [(xs & Ha & Hxs & Hb) ->] Hk. rewrite Ha.
    apply star_complete; [exact Hxs|]. rewrite <- Hb. destruct c'; exact Hk.
  - intros [(xs & Ha & Hxs & Hb) ->] Hk. rewrite Ha.
    apply lazy_star_complete; [exact Hxs|]. rewrite <- Hb.
    destruct c'; exact Hk.
  - intros [H|[-> ->]] Hk; destruct (run r1 c g k) eqn:E; try discriminate.
    + exfalso. exact (IH1 _ _ _ _ _ H Hk E).
    + exact Hk.
  - intros (g1 & H & ->) Hk.
    exact (IH1 _ _ c' g1 (fun c'0 g'0 => k c'0 ((n, span c c'0) :: g'0)) H Hk).
  - intros (Hb & -> & ->) Hk. rewrite Hb. exact Hk.
  - intros ([Ha|Ha] & -> & ->) Hk; rewrite Ha; exact Hk.
  - intros (Hx & -> & ->) Hk. rewrite Hx. exact Hk.
  - intros (He & -> & ->) Hk. rewrite He. exact Hk.
  - intros (Hb & -> & ->) Hk. destruct (before c) as [|x b]; [exact Hk|].
    rewrite Hb. exact Hk.
Qed.

(** The match a search returns is the leftmost one. *)
Lemma search_from_leftmost (r : regex) (a b : str) (m : rmatch) :
  search_from r b a = Some m ->
  exists a1 a2,
    a = a1 ++ a2
    /\ match_at r (Cursor (rev a1 ++ b) a2) = Some m
    /\ forall u v, a1 = u ++ v -> v <> [] ->
                   match_at r (Cursor (rev u ++ b) (v ++ a2)) = None.
Proof.
  revert b. induction a as [|x a IH]; intros b; simpl.
  - destruct (match_at r (Cursor b [])) eqn:Hm; [|discriminate].
    intros [= <-]. exists [], []. split; [reflexivity|]. split; [exact Hm|].
    intros u v E Hv. symmetry in E. apply app_eq_nil in E as [_ ->].
    contradiction.
  - destruct (match_at r (Cursor b (x :: a))) eqn:Hm.
    + intros [= <-]. exists [], (x :: a). split; [reflexivity|].
      split; [exact Hm|].
      intros u v E Hv. symmetry in E. apply app_eq_nil in E as [_ ->].
      contradiction.
    + intros H. apply IH in H as (a1 & a2 & -> & H1 & H2).
      exists (x :: a1), a2. split; [reflexivity|]. split.
      * simpl. rewrite <- app_assoc. exact H1.
      * intros u v E Hv. destruct u as [|y u].
        -- simpl in E. subst v. exact Hm.
        -- injection E as <- E. simpl. rewrite <- app_assoc.
           exact (H2 u v E Hv).
Qed.

Lemma search_from_none (r : regex) (a b : str) :
  search_from r b a = None ->
  forall u v, a = u ++ v -> match_at r (Cursor (rev u ++ b) v) = None.
Proof.
  revert b. induction a as [|x a IH]; intros b; simpl.
  - destruct (match_at r (Cursor b [])) eqn:Hm; [discriminate|].
    intros _ u v E. symmetry in E. apply app_eq_nil in E as [-> ->]. exact Hm.
  - destruct (match_at r (Cursor b (x :: a))) eqn:Hm; [discriminate|].
    intros H u v E. destruct u as [|y u].
    + simpl in E. subst v. exact Hm.
    + injection E as <- E. simpl. rewrite <- app_assoc. exact (IH _ H u v E).
Qed.

(** The pattern of the district list is an opening, the list, and what
    closes it. *)
Definition LIST_OPENING : regex :=
  Seq (phrase ["Total"; "Fire"; "Ban"]%string)
    (Seq (Plus is_space)
       (Alt (Seq (phrase ["in"; "the"]%string) (Plus is_space))
            (Seq (phrase ["for"; "the"]%string) (Plus is_space)))).

Definition LIST_CLOSING : regex :=
  Alt (Seq (Lit (codes "district"))
         (Seq (Opt (Lit (codes "(")))
            (Seq (Opt (Lit (codes "s"))) (Opt (Lit (codes ")"))))))
      Eol.

Lemma district_list_pattern {A : Type} (c : cursor) (g : groups)
    (k : cursor -> groups -> option A) :
  run RE_TFB_DISTRICT_LIST c g k
  = run (Seq LIST_OPENING (Seq (Group 1 (LazyStar any_char)) LIST_CLOSING))
      c g k.
Proof. reflexivity. Qed.

(** After [pre], the text [o ++ t] opens a district list with [o]: a
    spelling of "Total Fire Ban in the" or "Total Fire Ban for the", its
    words apart by white space, and white space after it. *)
Definition opens (pre o t : str) : Prop :=
  exists g, matches LIST_OPENING (Cursor (rev pre) (o ++ t)) []
              (Cursor (rev o ++ rev pre) t) g.

(** What closes the list stands at the start of [rest]: "district", or
    the end of the text. *)
Definition stops (rest : str) : Prop :=
  begins_with (codes "district") rest \/ rest = [] \/ rest = [10].

Definition at_line_end (t : str) : bool :=
  match t with
  | [] => true
  | [x] => x =? 10
  | _ => false
  end.

Definition list_stop (t : str) : bool :=
  starts_with (codes "district") t || at_line_end t.

Lemma list_stop_stops (t : str) : list_stop t = true <-> stops t.
Proof.
  unfold list_stop, stops, starts_with. rewrite orb_true_iff.
  rewrite <- eat_lit_begins.
  assert (Hl : at_line_end t = true <-> t = [] \/ t = [10]).
  { destruct t as [|x [|y t]]; simpl.
    - split; auto.
    - rewrite N.eqb_eq. split.
      + intros ->. auto.
      + intros [H|H]; congruence.
    - split; [discriminate|]. intros [H|H]; discriminate H. }
  rewrite Hl.
  destruct (eat_lit (codes "district") t) as [r|].
  - split; [intros _; left; eauto|auto].
  - split.
    + intros [H|H]; [discriminate H|auto].
    + intros [[r H]|H]; [discriminate H|auto].
Qed.

(** The text up to what closes the list. *)
Fixpoint upto_stop (t : str) : str :=
  match t with
  | [] => []
  | x :: t' => if list_stop (x :: t') then [] else x :: upto_stop t'
  end.

Lemma upto_stop_spec (a : str) :
  exists rest,
    a = upto_stop a ++ rest
    /\ list_stop rest = true
    /\ forall l1 l2, upto_stop a = l1 ++ l2 -> l2 <> [] ->
                     list_stop (l2 ++ rest) = false.
Proof.
  induction a as [|x a (rest & Ha & Hr & Hmin)].
  - exists []. split; [reflexivity|]. split; [reflexivity|].
    intros l1 l2 E Hl. symmetry in E. apply app_eq_nil in E as [_ ->].
    contradiction.
  - cbn [upto_stop]. destruct (list_stop (x :: a)) eqn:Hs.
    + exists (x :: a). split; [reflexivity|]. split; [exact Hs|].
      intros l1 l2 E Hl. symmetry in E. apply app_eq_nil in E as [_ ->].
      contradiction.
    + exists rest. split; [simpl; f_equal; exact Ha|]. split; [exact Hr|].
      intros l1 l2 E Hl. destruct l1 as [|y l1].
      * simpl in E. subst l2. simpl. rewrite <- Ha. exact Hs.
      * injection E as _ E. exact (Hmin l1 l2 E Hl).
Qed.

Lemma upto_stop_take (a : str) : take (length (upto_stop a)) a = upto_stop a.
Proof.
  destruct (upto_stop_spec a) as (rest & Ha & _).
  rewrite Ha at 2. apply take_app_length.
Qed.

(** What closes the list, at a cursor. *)
Lemma closing_run (c0 c : cursor) (g : groups) :
  if list_stop (after c)
  then exists c',
         run LIST_CLOSING c g (fun c' g' => Some (Match c0 c' g'))
         = Some (Match c0 c' g)
  else run LIST_CLOSING c g (fun c' g' => Some (Match c0 c' g')) = None.
Proof.
  unfold LIST_CLOSING, list_stop, starts_with. cbn [run after before].
  destruct (eat_lit (codes "district") (after c)) as [a1|].
  - cbn [orb].
    repeat match goal with
           | |- context [eat_lit ?s ?t] => destruct (eat_lit s t)
           end; eexists; reflexivity.
  - cbn [orb]. unfold at_line_end.
    destruct (after c) as [|x [|y t]]; [eexists; reflexivity| |reflexivity].
    destruct (x =? 10); [eexists; reflexivity|reflexivity].
Qed.

(** The list, from a cursor on: the lazy repetition stops at the first
    place where the list can be closed. *)
Lemma list_run (c0 c3 : cursor) (g3 : groups) :
  exists cend,
    run (Seq (Group 1 (LazyStar any_char)) LIST_CLOSING) c3 g3
      (fun c' g' => Some (Match c0 c' g'))
    = Some (Match c0 cend ((1%nat, upto_stop (after c3)) :: g3)).
Proof.
  cbn [run].
  assert (H : forall a b,
            exists cend,
              lazy_star any_char b a
                (fun c' =>
                   run LIST_CLOSING c' ((1%nat, span c3 c') :: g3)
                     (fun c'0 g' => Some (Match c0 c'0 g')))
              = Some (Match c0 cend
                        ((1%nat,
                          span c3 (Cursor (rev (upto_stop a) ++ b)
                                     (drop (length (upto_stop a)) a))) :: g3))).
  { induction a as [|x a IH]; intros b.
    - pose proof (closing_run c0 (Cursor b []) ((1%nat, span c3 (Cursor b [])) :: g3))
        as Hc.
      cbn [after] in Hc. change (list_stop []) with true in Hc.
      destruct Hc as [cend Hc]. exists cend. cbn [lazy_star]. rewrite Hc.
      reflexivity.
    - pose proof (closing_run c0 (Cursor b (x :: a))
                    ((1%nat, span c3 (Cursor b (x :: a))) :: g3)) as Hc.
      cbn [after] in Hc. cbn [upto_stop].
      destruct (list_stop (x :: a)).
      + destruct Hc as [cend Hc]. exists cend. cbn [lazy_star]. rewrite Hc.
        reflexivity.
      + cbn [lazy_star]. rewrite Hc. cbn [any_char].
        destruct (IH (x :: b)) as [cend Hl]. exists cend. rewrite Hl.
        cbn [rev length drop]. rewrite <- app_assoc. reflexivity. }
  destruct (H (after c3) (before c3)) as [cend Hl]. exists cend.
  rewrite Hl.
  match goal with
  | |- context [span ?a ?b] =>
      assert (E : span a b = upto_stop (after c3))
  end.
  { unfold span, pos. cbn [before after].
    rewrite length_app, length_rev.
    replace (length (upto_stop (after c3)) + length (before c3)
             - length (before c3))%nat
      with (length (upto_stop (after c3))) by lia.
    apply upto_stop_take. }
  rewrite E. reflexivity.
Qed.

(** A repetition of one or more, before something that accepts every
    end, takes the longest run. *)
Lemma plus_total {A : Type} (p : char -> bool) (c : cursor) (g : groups)
    (k : cursor -> groups -> option A) :
  (forall c' g', k c' g' <> None) ->
  run (Plus p) c g k
  = match after c with
    | x :: a' =>
        if p x
        then k (Cursor (rev (take_while p a') ++ x :: before c)
                  (drop_while p a')) g
        else None
    | [] => None
    end.
Proof.
  intros Hk. unfold Plus. cbn [run after before].
  destruct (after c) as [|x a']; [reflexivity|].
  destruct (p x); [|reflexivity].
  rewrite star_greedy by (intros c'; apply Hk). reflexivity.
Qed.

(** Where the pattern of the district list matches, and what it takes for
    the list. *)
Lemma district_list_match (c : cursor) (m : rmatch) :
  match_at RE_TFB_DISTRICT_LIST c = Some m ->
  exists c3 g3,
    matches LIST_OPENING c [] c3 g3
    /\ m_group 1 m = upto_stop (after c3)
    /\ forall x t, after c3 = x :: t -> is_space x = false.
Proof.
  unfold match_at. rewrite district_list_pattern.
  set (K3 := fun (c3 : cursor) (g3 : groups) =>
               run (Seq (Group 1 (LazyStar any_char)) LIST_CLOSING) c3 g3
                 (fun c' g' => Some (Match c c' g'))).
  assert (Htot : forall c' g', K3 c' g' <> None).
  { intros c' g'. unfold K3. destruct (list_run c c' g') as [cend ->].
    discriminate. }
  intros H.
  change (run (phrase ["Total"; "Fire"; "Ban"]%string) c []
            (fun c1 g1 =>
               run (Plus is_space) c1 g1
                 (fun c2 g2 =>
                    match run (phrase ["in"; "the"]%string) c2 g2
                            (fun c4 g4 => run (Plus is_space) c4 g4 K3) with
                    | Some v => Some v
                    | None =>
                        run (phrase ["for"; "the"]%string) c2 g2
                          (fun c4 g4 => run (Plus is_space) c4 g4 K3)
                    end)) = Some m) in H.
  apply run_sound in H as (c1 & g1 & M1 & H).
  apply run_sound in H as (c2 & g2 & M2 & H).
  assert (Hw : exists w,
            (w = ["in"; "the"]%string \/ w = ["for"; "the"]%string)
            /\ run (phrase w) c2 g2 (fun c4 g4 => run (Plus is_space) c4 g4 K3)
               = Some m).
  { destruct (run (phrase ["in"; "the"]%string) c2 g2 _) as [v|] eqn:E.
    - injection H as ->. eauto.
    - eauto. }
  destruct Hw as (w & Hw & H4).
  apply run_sound in H4 as (c4 & g4 & M4 & H4).
  rewrite plus_total in H4 by exact Htot.
  destruct (after c4) as [|x a'] eqn:Ha4; [discriminate|].
  destruct (is_space x) eqn:Hx; [|discriminate].
  set (c3 := Cursor (rev (take_while is_space a') ++ x :: before c4)
               (drop_while is_space a')) in *.
  unfold K3 in H4. destruct (list_run c c3 g4) as [cend Hl].
  rewrite Hl in H4. injection H4 as <-.
  exists c3, g4. split; [|split].
  - assert (M5 : matches (Plus is_space) c4 g4 c3 g4).
    { unfold Plus. cbn [matches].
      exists (Cursor (x :: before c4) a'), g4. split.
      - split; [|reflexivity]. exists x. cbn [after before]. auto.
      - split; [|reflexivity]. exists (take_while is_space a').
        cbn [after before]. split; [apply take_drop_while|].
        split; [apply take_while_all|reflexivity]. }
    cbn [matches]. exists c1, g1. split; [exact M1|].
    exists c2, g2. split; [exact M2|].
    destruct Hw as [-> | ->]; [left|right]; exists c4, g4; auto.
  - reflexivity.
  - intros y t Hy. cbn [after] in Hy. exact (drop_while_head _ _ _ _ Hy).
Qed.

(** The district-list substring as the claim words it: the text between a
    declaration phrase and the next "district". *)
Definition stated_district_list (text l : str) : Prop :=
  exists pre decl rest,
    text = pre ++ decl ++ l ++ rest
    /\ (exists g,
          matches RE_TFB_DECLARED (Cursor (rev pre) (decl ++ l ++ rest)) []
            (Cursor (rev decl ++ rev pre) (l ++ rest)) g
          \/ matches RE_TFB_IS (Cursor (rev pre) (decl ++ l ++ rest)) []
               (Cursor (rev decl ++ rev pre) (l ++ rest)) g)
    /\ begins_with (codes "district") rest
    /\ forall l1 l2, l = l1 ++ l2 -> l2 <> [] ->
                     ~ begins_with (codes "district") (l2 ++ rest).

(** A text without "district" has no such substring. *)
Lemma no_token_no_list (text : str) :
  found (re_search (Lit (codes "district")) text) = false ->
  forall l, ~ stated_district_list text l.
Proof.
  intros Hn l (pre & decl & rest & -> & _ & Hb & _).
  assert (H : found (re_search (Lit (codes "district"))
                       (pre ++ decl ++ l ++ rest)) = true).
  { unfold re_search. apply search_from_iff.
    exists (pre ++ decl ++ l), rest. split; [rewrite <- !app_assoc; reflexivity|].
    apply eat_lit_begins in Hb as [r Hb].
    unfold match_at. cbn [run after before]. rewrite Hb. reflexivity. }
  congruence.
Qed.

(** C2 (as amended): the ban flag is true exactly when the text has no
    explicit negative phrasing and either has the statewide phrasing, or
    has a declaration and the district list, if it can be located, names
    the region, by a match that does not take "Central" after "North " and
    takes no other name in the middle of a word; a declaration whose
    district list cannot be located counts for every region.  The
    district list is what follows the first opening "Total Fire Ban in
    the" or "Total Fire Ban for the" of the text, wherever it stands, and
    the white space after it, up to the first place where "district"
    follows or the text ends; it cannot be located only in a text without
    such an opening.  The notice that lists "North Central and Mallee
    district(s)" is a ban for North Central and for Mallee and none for
    Central. *)
Theorem C2_ban_flag_district_list (text district_name : str) :
  (total_fire_ban (parse_text text district_name) = true
   <-> found (re_search RE_TFB_NO text) = false
       /\ (found (re_search RE_TFB_STATEWIDE text) = true
           \/ (declaration_present text = true
               /\ match district_list text with
                  | Some district_list_text =>
                      listed district_name district_list_text
                  | None => True
                  end)))
  /\ match district_list text with
     | Some district_list_text =>
         exists pre o rest,
           text = pre ++ o ++ district_list_text ++ rest
           /\ opens pre o (district_list_text ++ rest)
           /\ (forall u v o' t',
                 pre = u ++ v -> v <> [] ->
                 v ++ o ++ district_list_text ++ rest = o' ++ t' ->
                 ~ opens u o' t')
           /\ (forall x t, district_list_text ++ rest = x :: t ->
                           is_space x = false)
           /\ stops rest
           /\ (forall l1 l2,
                 district_list_text = l1 ++ l2 -> l2 <> [] ->
                 ~ stops (l2 ++ rest))
     | None => forall pre o t, text = pre ++ o ++ t -> ~ opens pre o t
     end
  /\ district_list BAN_NOTICE = Some (codes "North Central and Mallee ")
  /\ total_fire_ban (parse_text BAN_NOTICE (codes "North Central")) = true
  /\ total_fire_ban (parse_text BAN_NOTICE (codes "Mallee")) = true
  /\ total_fire_ban (parse_text BAN_NOTICE (codes "Central")) = false.
Proof.
  split; [|split; [|repeat split; vm_compute; reflexivity]].
  - unfold parse_text. cbn [total_fire_ban].
    unfold extract_total_fire_ban, declaration_present, district_list.
    destruct (found (re_search RE_TFB_NO text)).
    { split; [discriminate|]. intros [H _]. discriminate H. }
    destruct (found (re_search RE_TFB_STATEWIDE text)).
    { split; [|reflexivity]. intros _. split; [reflexivity|]. left.
      reflexivity. }
    destruct (found (re_search RE_TFB_DECLARED text)
              || found (re_search RE_TFB_IS text)).
    + destruct (re_search RE_TFB_DISTRICT_LIST text) as [m|].
      * cbv zeta. rewrite district_search. split.
        -- intros H. split; [reflexivity|]. right.
           split; [reflexivity|exact H].
        -- intros [_ [H|[_ H]]]; [discriminate H|exact H].
      * split; [|reflexivity]. intros _. split; [reflexivity|]. right.
        split; [reflexivity|exact I].
    + split; [discriminate|]. intros [_ [H|[H _]]]; discriminate H.
  - assert (Hopen : forall pre o t,
              opens pre o t ->
              match_at RE_TFB_DISTRICT_LIST (Cursor (rev pre) (o ++ t)) <> None).
    { intros pre o t [g M]. unfold match_at. rewrite district_list_pattern.
      change (run LIST_OPENING (Cursor (rev pre) (o ++ t)) []
                (fun c3 g3 =>
                   run (Seq (Group 1 (LazyStar any_char)) LIST_CLOSING) c3 g3
                     (fun c' g' =>
                        Some (Match (Cursor (rev pre) (o ++ t)) c' g')))
              <> None).
      apply (run_complete _ _ _ _ _ _ M).
      destruct (list_run (Cursor (rev pre) (o ++ t))
                  (Cursor (rev o ++ rev pre) t) g) as [cend ->].
      discriminate. }
    unfold district_list, re_search.
    destruct (search_from RE_TFB_DISTRICT_LIST [] text) as [m|] eqn:Hs.
    + apply search_from_leftmost in Hs as (a1 & a2 & -> & Hm & Hleft).
      rewrite app_nil_r in Hm.
      apply district_list_match in Hm as (c3 & g3 & M & -> & Hsp).
      pose proof (matches_consumes _ _ _ _ _ M) as (o & Ha & Hb).
      cbn [before after] in Ha, Hb.
      destruct (upto_stop_spec (after c3)) as (rest & Hrest & Hstop & Hmin).
      exists a1, o, rest.
      assert (Ht : a2 = o ++ upto_stop (after c3) ++ rest)
        by (rewrite <- Hrest; exact Ha).
      split; [rewrite Ht; reflexivity|]. split; [|split; [|split; [|split]]].
      * exists g3. rewrite <- Hrest, <- Ha, <- Hb. destruct c3; exact M.
      * intros u v o' t' -> Hv E Ho. apply Hopen in Ho.
        apply Ho. rewrite <- E, <- Ht.
        specialize (Hleft u v eq_refl Hv). rewrite app_nil_r in Hleft.
        exact Hleft.
      * intros x t E. rewrite <- Hrest in E. exact (Hsp x t E).
      * apply list_stop_stops. exact Hstop.
      * intros l1 l2 E Hl Hst. apply list_stop_stops in Hst.
        rewrite (Hmin l1 l2 E Hl) in Hst. discriminate Hst.
    + intros pre o t -> Ho. apply Hopen in Ho. apply Ho.
      pose proof (search_from_none _ _ _ Hs pre (o ++ t) eq_refl) as Hn.
      rewrite app_nil_r in Hn. exact Hn.
Qed.

(** Two notices without the negative and without the statewide phrasing.
    In the first an earlier sentence has "Total Fire Ban in the"; the
    second has no "district" at all. *)
Definition EARLIER_BAN : str :=
  codes "Yesterday the Total Fire Ban in the Wimmera district ended. Today has been declared a day of Total Fire Ban in the Mallee district.".
Definition NO_TOKEN : str :=
  codes "Today has been declared a day of Total Fire Ban in the Mallee. Central: HIGH".

Lemma no_stop_inside (l rest : str) :
  forallb (fun i => negb (starts_with (codes "district") (drop i (l ++ rest))))
          (seq 0 (length l)) = true ->
  forall l1 l2, l = l1 ++ l2 -> l2 <> [] ->
                ~ begins_with (codes "district") (l2 ++ rest).
Proof.
  intros H l1 l2 -> Hl Hb. rewrite forallb_forall in H.
  assert (Hin : In (length l1) (seq 0 (length (l1 ++ l2)))).
  { apply in_seq. rewrite length_app. destruct l2; [contradiction|].
    simpl. lia. }
  apply H in Hin. rewrite <- app_assoc, drop_app_length in Hin.
  apply eat_lit_begins in Hb as [r Hb]. unfold starts_with in Hin.
  rewrite Hb in Hin. discriminate Hin.
Qed.

Lemma list_of_notices :
  (found (re_search RE_TFB_NO EARLIER_BAN) = false
   /\ found (re_search RE_TFB_STATEWIDE EARLIER_BAN) = false
   /\ declaration_present EARLIER_BAN = true
   /\ stated_district_list EARLIER_BAN (codes " in the Mallee ")
   /\ listed (codes "Mallee") (codes " in the Mallee ")
   /\ district_list EARLIER_BAN = Some (codes "Wimmera ")
   /\ total_fire_ban (parse_text EARLIER_BAN (codes "Mallee")) = false)
  /\ (found (re_search RE_TFB_NO NO_TOKEN) = false
      /\ found (re_search RE_TFB_STATEWIDE NO_TOKEN) = false
      /\ declaration_present NO_TOKEN = true
      /\ (forall l, ~ stated_district_list NO_TOKEN l)
      /\ district_list NO_TOKEN = Some (codes "Mallee. Central: HIGH")
      /\ total_fire_ban (parse_text NO_TOKEN (codes "Wimmera")) = false).
Proof.
  split.
  - split; [vm_compute; reflexivity|]. split; [vm_compute; reflexivity|].
    split; [vm_compute; reflexivity|]. split; [|split; [|split]].
    + exists (codes "Yesterday the Total Fire Ban in the Wimmera district ended. Today "),
             (codes "has been declared a day of Total Fire Ban"),
             (codes "district.").
      split; [reflexivity|]. split; [|split].
      * exists []. left.
        assert (Hm : match_at RE_TFB_DECLARED
                       (Cursor (rev (codes "Yesterday the Total Fire Ban in the Wimmera district ended. Today "))
                          (codes "has been declared a day of Total Fire Ban"
                           ++ codes " in the Mallee " ++ codes "district."))
                     = Some (Match
                               (Cursor (rev (codes "Yesterday the Total Fire Ban in the Wimmera district ended. Today "))
                                  (codes "has been declared a day of Total Fire Ban"
                                   ++ codes " in the Mallee " ++ codes "district."))
                               (Cursor (rev (codes "has been declared a day of Total Fire Ban")
                                        ++ rev (codes "Yesterday the Total Fire Ban in the Wimmera district ended. Today "))
                                  (codes " in the Mallee " ++ codes "district."))
                               []))
          by (vm_compute; reflexivity).
        apply match_at_sound in Hm as [_ Hm]. exact Hm.
      * apply eat_lit_begins. exists (codes "."). vm_compute. reflexivity.
      * apply no_stop_inside. vm_compute. reflexivity.
    + apply district_search. vm_compute. reflexivity.
    + vm_compute. reflexivity.
    + vm_compute. reflexivity.
  - split; [vm_compute; reflexivity|]. split; [vm_compute; reflexivity|].
    split; [vm_compute; reflexivity|]. split; [|split].
    + apply no_token_no_list. vm_compute. reflexivity.
    + vm_compute. reflexivity.
    + vm_compute. reflexivity.
Qed.

End Unicode.

(** * Worked cases

    The inputs of the cases below are ASCII text without character
    references.  On such text [html.unescape] changes nothing and none of
    the tables of the Unicode database is consulted; the lemmas on the
    worked inputs above hold for every choice of the tables.  Here the
    tables are those of ASCII. *)

Definition plain_word (c : char) : bool := false.
Definition plain_upper (c : char) : str := [c].
Definition plain_ci (p c : char) : bool := p =? c.
Definition plain_unescape (text : str) : str := text.

(** The coordinator, the strategies and the extractor over these tables. *)
Definition update_plain : Coordinator -> session -> Coordinator * Cycle :=
  _async_update_data plain_word plain_upper plain_ci plain_unescape.
Definition run_cycles_plain : Coordinator -> list session -> Coordinator * list Cycle :=
  run_cycles plain_word plain_upper plain_ci plain_unescape.
Definition fetch_combined_plain : session -> gset str -> outcome (gmap str Snapshot) :=
  _fetch_combined_feed plain_word plain_upper plain_ci plain_unescape.
Definition fetch_individual_plain : session -> gset str -> outcome (gmap str Snapshot * list str) :=
  _fetch_individual_feeds plain_word plain_upper plain_ci plain_unescape.
Definition parse_text_plain : str -> str -> Forecast :=
  parse_text plain_word plain_upper plain_ci.

Lemma tracking_central_tracks : _district_slugs tracking_central <> ∅.
Proof. apply (bool_decide_unpack _). vm_compute. exact I. Qed.

(** C1, as stated, fails: with the combined feed down from cycle 1 on,
    cycles 1 to 3 attempt it and cycle 4 goes straight to the individual
    feeds, but the first retry is cycle 10, the cycle whose count is a
    multiple of 10, and cycle 13 skips the combined feed. *)
Lemma C1_first_retry_is_cycle_10 :
  List.map attempted_combined
    (run_cycles_plain tracking_central (repeat combined_down 13)).2
  = [true; true; true; false; false; false; false; false; false; true;
     false; false; false].
Proof. exact (combined_down_13_cycles _ _ _ _). Qed.

(** C1 at a coordinator that tracks Central, with the combined feed down. *)
Lemma C1_fallback_state_machine_witness :
  _district_slugs tracking_central <> ∅
  /\ _cycle_count (update_plain tracking_central combined_down).1 = 1%Z.
Proof.
  split.
  - apply (bool_decide_unpack _). vm_compute. exact I.
  - refine (proj1 (C1_fallback_state_machine plain_word plain_upper plain_ci
                     plain_unescape tracking_central combined_down [] _)).
    apply (bool_decide_unpack _). vm_compute. exact I.
Defined.

(** C2, as stated, fails: neither notice has the negative or the
    statewide phrasing, and both have a declaration.  In the first, the
    text between the declaration phrase and the next "district" is
    " in the Mallee ", which names Mallee, and the flag for Mallee is
    false: the code takes for the list what follows the first
    "Total Fire Ban in the" of the text, "Wimmera ", from the sentence
    before the declaration.  The second has no "district", so that no
    text lies between the declaration phrase and one, and the flag for
    Wimmera is false, not true: the code takes the list to the end of the
    text. *)
Lemma C2_list_not_between_declaration_and_token :
  (found (re_search plain_word plain_ci RE_TFB_NO EARLIER_BAN) = false
   /\ found (re_search plain_word plain_ci RE_TFB_STATEWIDE EARLIER_BAN) = false
   /\ declaration_present plain_word plain_ci EARLIER_BAN = true
   /\ stated_district_list plain_word plain_ci EARLIER_BAN
        (codes " in the Mallee ")
   /\ listed plain_word plain_ci (codes "Mallee") (codes " in the Mallee ")
   /\ district_list plain_word plain_ci EARLIER_BAN = Some (codes "Wimmera ")
   /\ total_fire_ban (parse_text_plain EARLIER_BAN (codes "Mallee")) = false)
  /\ (found (re_search plain_word plain_ci RE_TFB_NO NO_TOKEN) = false
      /\ found (re_search plain_word plain_ci RE_TFB_STATEWIDE NO_TOKEN) = false
      /\ declaration_present plain_word plain_ci NO_TOKEN = true
      /\ (forall l, ~ stated_district_list plain_word plain_ci NO_TOKEN l)
      /\ district_list plain_word plain_ci NO_TOKEN
         = Some (codes "Mallee. Central: HIGH")
      /\ total_fire_ban (parse_text_plain NO_TOKEN (codes "Wimmera")) = false).
Proof. exact (list_of_notices plain_word plain_upper plain_ci). Qed.

(** C4, as stated, fails: the feed has entries and, no region being
    tracked, every tracked region is UNKNOWN on every entry; yet the
    combined strategy does not raise, it returns the empty result. *)
Lemma C4_no_region_tracked :
  _parse_rss_xml plain_word plain_ci FEED = Returns (FEED_PUB_DATE, FEED_ITEMS)
  /\ all_days_unknown plain_word plain_upper plain_ci plain_unescape ∅ FEED_ITEMS
     = true
  /\ fetch_combined_plain all_up ∅ = Returns ∅.
Proof.
  split; [vm_compute; reflexivity|]. split; [vm_compute; reflexivity|].
  exact (no_region_returns_empty _ _ _ _).
Qed.

(** C4 on the worked feed, with Central tracked. *)
Lemma C4_combined_validation_witness :
  all_up CFA_COMBINED_RSS_URL = Http 200 FEED
  /\ _parse_rss_xml plain_word plain_ci FEED = Returns (FEED_PUB_DATE, FEED_ITEMS)
  /\ match fetch_combined_plain all_up {[codes "central"]} with
     | Raises e =>
         (FEED_ITEMS = [] /\ e = NO_ITEMS)
         \/ (FEED_ITEMS <> [] /\ ({[codes "central"]} : gset str) <> ∅
             /\ all_days_unknown plain_word plain_upper plain_ci plain_unescape
                  {[codes "central"]} FEED_ITEMS = true
             /\ e = ALL_UNKNOWN)
     | Returns result =>
         FEED_ITEMS <> []
         /\ (({[codes "central"]} : gset str) = ∅
             \/ all_days_unknown plain_word plain_upper plain_ci plain_unescape
                  {[codes "central"]} FEED_ITEMS = false)
         /\ covers plain_word plain_upper plain_ci plain_unescape FEED_PUB_DATE
              {[codes "central"]} result FEED_ITEMS
     end.
Proof.
  split; [reflexivity|]. split; [vm_compute; reflexivity|].
  apply (C4_combined_validation plain_word plain_upper plain_ci plain_unescape
           all_up {[codes "central"]} FEED FEED_PUB_DATE FEED_ITEMS).
  - reflexivity.
  - vm_compute. reflexivity.
Defined.

(** C8, as stated, fails: the combined attempt is made and fails, the
    individual feed of the one tracked region answers, and the cycle ends
    with no last error and no failed region. *)
Lemma C8_combined_failure_leaves_no_error :
  attempted_combined (update_plain tracking_central combined_down).2 = true
  /\ is_raises (fetch_combined_plain combined_down
                  (_district_slugs tracking_central)) = true
  /\ is_raises (returned (update_plain tracking_central combined_down).2) = false
  /\ _last_error (update_plain tracking_central combined_down).1 = None
  /\ _failed_districts (update_plain tracking_central combined_down).1 = [].
Proof. exact (combined_down_cycle _ _ _ _). Qed.

(** C8 at a coordinator that tracks Central, with the combined feed down:
    the failed attempt is counted. *)
Lemma C8_failures_recorded_witness :
  _district_slugs tracking_central <> ∅
  /\ _combined_fail_count (update_plain tracking_central combined_down).1 = 1%Z.
Proof.
  split.
  - apply (bool_decide_unpack _). vm_compute. exact I.
  - refine (proj1 (C8_failures_recorded plain_word plain_upper plain_ci
                     plain_unescape tracking_central combined_down _) _ _).
    + apply (bool_decide_unpack _). vm_compute. exact I.
    + vm_compute. reflexivity.
    + vm_compute. reflexivity.
Defined.

(** C10 at the coordinator at its start, which tracks no region. *)
Lemma C10_empty_region_set_witness :
  _district_slugs init = ∅
  /\ fetch_individual_plain all_up (_district_slugs init)
     = Raises (Exn UpdateFailed
                 (codes "All individual district feeds failed: "
                  ++ join (codes ", ") []))
  /\ update_plain init all_up
     = (init, {| returned := Returns ∅; requested := [] |}).
Proof.
  split; [reflexivity|].
  apply (C10_empty_region_set plain_word plain_upper plain_ci plain_unescape
           init all_up).
  reflexivity.
Defined.

(** * Worked cases of the further properties *)

(** No feed answers. *)
Definition all_down : session := fun _ => Fails TIMEOUT.

(** A feed with a channel and no entry. *)
Definition EMPTY_FEED : xml :=
  Document
    (Element (codes "rss") None
       [ Element (codes "channel") None
           [ Element (codes "pubDate") (Some (codes "Wed, 04 Nov 2026")) [] ] ]).

(** Every feed answers with the feed without entries. *)
Definition all_empty : session := fun _ => Http 200 EMPTY_FEED.

(** The snapshot of Central over [FEED], and the result that holds it. *)
Definition CENTRAL_SNAPSHOT : Snapshot :=
  snapshot_of plain_word plain_upper plain_ci plain_unescape FEED_PUB_DATE
    FEED_ITEMS (codes "central").
Definition CENTRAL_RESULT : gmap str Snapshot :=
  {[ codes "central" := CENTRAL_SNAPSHOT ]}.
Definition CENTRAL_TODAY : Forecast :=
  forecast_for plain_word plain_upper plain_ci plain_unescape (codes "central")
    (codes "Today, Wed 04 Nov", codes "Central: HIGH Mallee: EXTREME").

(** A coordinator in fallback: Central tracked, four cycles with the
    combined feed down. *)
Definition fallen_back : Coordinator :=
  (run_cycles_plain tracking_central (repeat combined_down 4)).1.

(** A description with tags, a line break and an issue time. *)
Definition ISSUED : str :=
  codes "<p>Central: HIGH</p><p>Bureau of Meteorology forecast issued at:
 4.30 pm</p>".

(** With no feed answering, the cycle of a coordinator that tracks
    Central raises the error of the individual strategy. *)
Lemma cycle_raises_iff_all_fail_witness :
  _district_slugs tracking_central <> ∅
  /\ forall e,
       returned (update_plain tracking_central all_down).2 = Raises e ->
       e = Exn UpdateFailed
             (codes "All individual district feeds failed: "
              ++ join (codes ", ") (elements (_district_slugs tracking_central)))
       /\ _last_error (update_plain tracking_central all_down).1
          = Some (exn_msg e)
       /\ _failed_districts (update_plain tracking_central all_down).1
          = elements (_district_slugs tracking_central)
       /\ _last_source (update_plain tracking_central all_down).1
          = _last_source tracking_central.
Proof.
  split.
  - apply (bool_decide_unpack _). vm_compute. exact I.
  - refine (proj2 (cycle_raises_iff_all_fail plain_word plain_upper plain_ci
                     plain_unescape tracking_central all_down _)).
    apply (bool_decide_unpack _). vm_compute. exact I.
Defined.

(** With every feed answering, the result of the cycle holds Central and
    no district has failed. *)
Lemma cycle_result_partition_witness :
  returned (update_plain tracking_central all_up).2 = Returns CENTRAL_RESULT
  /\ CENTRAL_RESULT <> ∅.
Proof.
  split.
  - vm_compute. reflexivity.
  - refine (proj1 (cycle_result_partition plain_word plain_upper plain_ci
                     plain_unescape tracking_central all_up CENTRAL_RESULT _ _)).
    + apply (bool_decide_unpack _). vm_compute. exact I.
    + vm_compute. reflexivity.
Defined.

(** Ten cycles with every feed answering bring the coordinator in
    fallback back. *)
Lemma recovery_within_10_cycles_witness :
  _fallback_active fallen_back = true
  /\ recovered (run_cycles_plain fallen_back (repeat all_up 10)).1.
Proof.
  split.
  - vm_compute. reflexivity.
  - apply (recovery_within_10_cycles plain_word plain_upper plain_ci
             plain_unescape fallen_back (repeat all_up 10)).
    + apply (bool_decide_unpack _). vm_compute. exact I.
    + reflexivity.
    + repeat constructor; vm_compute; reflexivity.
Defined.

(** On the worked feed, the combined strategy and the individual one make
    the same snapshot of Central. *)
Lemma strategies_agree_witness :
  exists snap,
    CENTRAL_RESULT !! codes "central" = Some snap
    /\ _fetch_individual_feed plain_word plain_upper plain_ci plain_unescape
         all_up (codes "central") = Returns snap.
Proof.
  apply (strategies_agree plain_word plain_upper plain_ci plain_unescape
           all_up all_up {[codes "central"]} (codes "central") FEED
           CENTRAL_RESULT).
  - apply (bool_decide_unpack _). vm_compute. exact I.
  - reflexivity.
  - reflexivity.
  - vm_compute. reflexivity.
Defined.

(** With every feed answering with the feed without entries, the cycle
    returns a result and records no error. *)
Lemma rejected_feed_returned_by_fallback_witness :
  is_raises (fetch_combined_plain all_empty (_district_slugs tracking_central))
  = true
  /\ _last_error (update_plain tracking_central all_empty).1 = None
  /\ _failed_districts (update_plain tracking_central all_empty).1 = []
  /\ _last_source (update_plain tracking_central all_empty).1
     = codes "individual".
Proof.
  split.
  - vm_compute. reflexivity.
  - refine (proj2 (rejected_feed_returned_by_fallback plain_word plain_upper
                     plain_ci plain_unescape tracking_central all_empty
                     EMPTY_FEED FEED_PUB_DATE [] _ _ _ _)).
    + apply (bool_decide_unpack _). vm_compute. exact I.
    + intros url. reflexivity.
    + vm_compute. reflexivity.
    + left. reflexivity.
Defined.

(** The day sensors of Central after a cycle on the worked feed. *)
Lemma day_sensors_follow_document_witness :
  exists url raw pub items,
    In url (requested (update_plain tracking_central all_up).2)
    /\ all_up url = Http 200 raw
    /\ _parse_rss_xml plain_word plain_ci raw = Returns (pub, items)
    /\ forall day_index : nat,
         rating_native_value (Some CENTRAL_RESULT) (codes "central") day_index
         = (fun item =>
              rating (_parse_item plain_word plain_upper plain_ci plain_unescape
                        item.2 (feed_name_of (codes "central"))))
             <$> items !! day_index
         /\ tfb_native_value (Some CENTRAL_RESULT) (codes "central") day_index
            = (fun item =>
                 if total_fire_ban
                      (_parse_item plain_word plain_upper plain_ci plain_unescape
                         item.2 (feed_name_of (codes "central")))
                 then codes "Yes" else codes "No")
                <$> items !! day_index.
Proof.
  apply (day_sensors_follow_document plain_word plain_upper plain_ci
           plain_unescape tracking_central all_up CENTRAL_RESULT
           (codes "central")).
  - vm_compute. reflexivity.
  - exists CENTRAL_SNAPSHOT. vm_compute. reflexivity.
Defined.

(** The line break of the description between "at:" and the time is one
    space of the cleaned text. *)
Lemma strip_html_single_spaced_witness :
  _strip_html plain_word plain_ci plain_unescape ISSUED
  = codes "Central: HIGH Bureau of Meteorology forecast issued at:"
    ++ 32 :: codes "4.30 pm"
  /\ exists y post', codes "4.30 pm" = y :: post' /\ is_space y = false.
Proof.
  split.
  - vm_compute. reflexivity.
  - refine (proj2 (proj2 (strip_html_single_spaced plain_word plain_ci
                            plain_unescape ISSUED
                            (codes "Central: HIGH Bureau of Meteorology forecast issued at:")
                            32 (codes "4.30 pm") _ _))).
    + vm_compute. reflexivity.
    + reflexivity.
Defined.

(** The issue time of the description. *)
Lemma issued_at_runs_to_end_witness :
  codes "4.30 pm" <> []
  /\ exists pre gap,
       _strip_html plain_word plain_ci plain_unescape ISSUED
       = pre ++ gap ++ codes "4.30 pm"
       /\ ends_with plain_ci (codes "at:") pre
       /\ (gap = [] \/ gap = [32]).
Proof.
  apply (issued_at_runs_to_end plain_word plain_upper plain_ci plain_unescape
           ISSUED (codes "Central") (codes "4.30 pm")).
  vm_compute. reflexivity.
Defined.

(** The forecast of Central for today, after a cycle on the worked feed. *)
Lemma returned_forecasts_well_formed_witness :
  In CENTRAL_TODAY (forecasts CENTRAL_SNAPSHOT)
  /\ severity CENTRAL_TODAY = severity_of (rating CENTRAL_TODAY).
Proof.
  split.
  - left. vm_compute. reflexivity.
  - refine (proj1 (proj2 (proj2 (proj2
             (returned_forecasts_well_formed plain_word plain_upper plain_ci
                plain_unescape tracking_central all_up CENTRAL_RESULT
                (codes "central") CENTRAL_SNAPSHOT CENTRAL_TODAY _ _ _))))).
    + vm_compute. reflexivity.
    + vm_compute. reflexivity.
    + left. vm_compute. reflexivity.
Defined.
